(** * TBmodels: the tight-binding [Model] of [tbmodels/_tb_model.py]

    A shallow embedding of the class [Model] and of its helper functions,
    followed by the properties of its construction, of [hamilton] and of
    the derived-model operations.

    Numbers.  The source computes with numpy's [complex128]; the embedding
    uses exact complex numbers over the reals of the Standard Library, so
    every statement below is about the exact arithmetic the source
    approximates.  Integers ([G], [dim], [occ]) are [Z]: the 64-bit
    integers of numpy do not wrap around on any table that fits in memory.

    Containers.  A hopping matrix (a numpy array or a [sp.csr] sparse
    matrix) is a list of rows.  A Python [dict] keyed by lattice vectors is
    an association list in iteration order: the order in which the loops of
    the source meet the keys decides which exception is raised first.

    Effects.  Exceptions are the [Err] case of [result].  The only method
    that writes into objects owned by [self] is [em_field]; the derived
    operations return the state of their operands after the call next to
    their outcome.  The functions [scalar_pot], [vec_pot] and [passivation]
    that the caller supplies are pure functions. *)

From Stdlib Require Import String Reals Lra Lia ZArith Bool List.
Import ListNotations.

Set Implicit Arguments.

(** ** Exceptions and results *)

Definition LatticeVector : Type := (Z * Z * Z)%type.
Definition vec3 : Type := (R * R * R)%type.
(** A 3x3 real matrix, as its three rows. *)
Definition mat3 : Type := (vec3 * vec3 * vec3)%type.

(** The messages of the [ValueError]s the source raises. *)
Inductive value_error : Type :=
| EmptyHoppingsNoSize
| InvalidPos
| NotHermitian
| BadShape (found : nat * nat) (expected : nat * nat)
| InvalidAddArgument
| OccMismatch (occ1 occ2 : option Z)
| UcMismatch (uc1 uc2 : option mat3)
| PosMismatch (pos1 pos2 : list vec3)
| DetNotOne (det : R)
| UcNotSpecified
| BadModeScalar
| BadModeVec
| InconsistentShapes.

Inductive exn : Type :=
| ValueError (msg : value_error)
| KeyError (key : LatticeVector)
| IndexError
| TypeError
| AttributeError
| ZeroDivisionError.

Inductive result (A : Type) : Type :=
| Ok (a : A)
| Err (e : exn).
Arguments Ok {A} a.
Arguments Err {A} e.

Definition bind {A B} (r : result A) (k : A -> result B) : result B :=
  match r with
  | Ok a => k a
  | Err e => Err e
  end.

Notation "x <- r ;; k" := (bind r (fun x => k))
  (at level 61, r at next level, right associativity).

(** A [for] loop whose body may raise. *)
Fixpoint foldM {A S} (body : S -> A -> result S) (l : list A) (s : S) : result S :=
  match l with
  | [] => Ok s
  | a :: l' => s' <- body s a ;; foldM body l' s'
  end.

(** [range(n)] and [enumerate]. *)
Definition range (n : Z) : list Z := map Z.of_nat (seq 0 (Z.to_nat n)).
Definition enumerate {A} (l : list A) : list (nat * A) := combine (seq 0 (length l)) l.

(** ** Complex numbers *)

Module Cx.
Local Open Scope R_scope.

Definition C : Type := (R * R)%type.

Definition zero : C := (0, 0).
Definition one : C := (1, 0).
Definition of_R (x : R) : C := (x, 0).
Definition add (a b : C) : C := (fst a + fst b, snd a + snd b).
Definition sub (a b : C) : C := (fst a - fst b, snd a - snd b).
Definition mul (a b : C) : C :=
  (fst a * fst b - snd a * snd b, fst a * snd b + snd a * fst b).
Definition scale (x : R) (a : C) : C := (x * fst a, x * snd a).
Definition conj (a : C) : C := (fst a, - snd a).
Definition abs2 (a : C) : R := fst a * fst a + snd a * snd a.
(** [np.exp] on a complex argument. *)
Definition cexp (a : C) : C := (exp (fst a) * cos (snd a), exp (fst a) * sin (snd a)).
(** [t != 0] *)
Definition nonzero (a : C) : bool :=
  if Req_dec_T (fst a) 0 then (if Req_dec_T (snd a) 0 then false else true) else true.

End Cx.

Abbreviation C := Cx.C.

(** ** Matrices

    numpy arrays and sparse matrices are rectangular; [rect r c m] is that
    representation invariant together with the shape [(r, c)].  An array
    with no row is [[]], whatever its number of columns. *)

Module Mat.

Definition matrix : Type := list (list C).

Definition nrows (m : matrix) : nat := length m.
Definition ncols (m : matrix) : nat :=
  match m with [] => 0 | row :: _ => length row end.
(** [m.shape] *)
Definition shape (m : matrix) : nat * nat := (nrows m, ncols m).

Definition rect (r c : nat) (m : matrix) : Prop :=
  length m = r /\ Forall (fun row => length row = c) m.

(** [m.shape == (r, c)], for a rectangular [m]. *)
Definition has_shape (r c : nat) (m : matrix) : bool :=
  (length m =? r)%nat && forallb (fun row => (length row =? c)%nat) m.

Definition get (m : matrix) (i j : nat) : C := nth j (nth i m []) Cx.zero.

Definition mk (r c : nat) (f : nat -> nat -> C) : matrix :=
  map (fun i => map (fun j => f i j) (seq 0 c)) (seq 0 r).

(** [np.zeros((r, c), dtype=complex)], [sp.csr((r, c), dtype=complex)] *)
Definition zeros (r c : nat) : matrix := mk r c (fun _ _ => Cx.zero).

Definition pointwise (f : C -> C -> C) (a b : matrix) : matrix :=
  mk (nrows a) (ncols a) (fun i j => f (get a i j) (get b i j)).

Definition same_shape (a b : matrix) : bool :=
  (nrows a =? nrows b)%nat && (ncols a =? ncols b)%nat.

(** [a + b] and [a - b] on sparse matrices: scipy raises
    [ValueError('inconsistent shapes')] unless the shapes agree. *)
Definition add (a b : matrix) : result matrix :=
  if same_shape a b then Ok (pointwise Cx.add a b)
  else Err (ValueError InconsistentShapes).

Definition sub (a b : matrix) : result matrix :=
  if same_shape a b then Ok (pointwise Cx.sub a b)
  else Err (ValueError InconsistentShapes).

(** [x * m] for a real [x], and [m * z] for a complex [z]. *)
Definition scale (x : R) (m : matrix) : matrix := map (map (Cx.scale x)) m.
Definition cscale (m : matrix) (z : C) : matrix := map (map (fun t => Cx.mul t z)) m.

(** [m.conjugate()] and [m.T] *)
Definition conj (m : matrix) : matrix := map (map Cx.conj) m.
Definition transpose (m : matrix) : matrix :=
  mk (ncols m) (nrows m) (fun i j => get m j i).

(** [la.norm]: the Frobenius norm. *)
Definition sum_abs2 (m : matrix) : R :=
  fold_right (fun row acc => fold_right (fun z s => Cx.abs2 z + s) acc row)%R 0%R m.
Definition norm (m : matrix) : R := sqrt (sum_abs2 m).

(** [m[i, j] = f(m[i, j])]; nothing changes when [(i, j)] is out of range. *)
Definition upd (m : matrix) (i j : nat) (f : C -> C) : matrix :=
  map (fun ir => if (fst ir =? i)%nat
                 then map (fun jz => if (fst jz =? j)%nat then f (snd jz) else snd jz)
                          (enumerate (snd ir))
                 else snd ir)
      (enumerate m).

(** The index pairs of [m.nonzero()], in row-major order. *)
Definition nonzero_idx (m : matrix) : list (nat * nat) :=
  flat_map (fun ir =>
              flat_map (fun jz => if Cx.nonzero (snd jz) then [(fst ir, fst jz)] else [])
                       (enumerate (snd ir)))
           (enumerate m).

End Mat.

Abbreviation matrix := Mat.matrix.

(** ** Dictionaries keyed by lattice vectors

    A Python [dict] in iteration order.  [set] keeps the place of a key
    that is already there and appends a new one, as assignment to a
    [dict] does. *)

Module Dict.

Definition key_eqb (a b : LatticeVector) : bool :=
  let '(a1, a2, a3) := a in
  let '(b1, b2, b3) := b in
  ((a1 =? b1) && (a2 =? b2) && (a3 =? b3))%Z.

Definition dict (V : Type) : Type := list (LatticeVector * V).

Fixpoint get {V} (d : dict V) (k : LatticeVector) : option V :=
  match d with
  | [] => None
  | (k', v) :: d' => if key_eqb k k' then Some v else get d' k
  end.

Fixpoint set {V} (d : dict V) (k : LatticeVector) (v : V) : dict V :=
  match d with
  | [] => [(k, v)]
  | (k', v') :: d' => if key_eqb k k' then (k', v) :: d' else (k', v') :: set d' k v
  end.

Definition keys {V} (d : dict V) : list LatticeVector := map fst d.
Definition values {V} (d : dict V) : list V := map snd d.

(** [d[k]] on a plain [dict] *)
Definition lookup {V} (d : dict V) (k : LatticeVector) : result V :=
  match get d k with
  | Some v => Ok v
  | None => Err (KeyError k)
  end.

(** [d[k]] on a [defaultdict] whose factory returns [dflt] *)
Definition get_default {V} (d : dict V) (k : LatticeVector) (dflt : V) : V :=
  match get d k with
  | Some v => v
  | None => dflt
  end.

(** The keys of a Python [dict] are pairwise different. *)
Definition wf {V} (d : dict V) : Prop := NoDup (keys d).

End Dict.

Abbreviation dict := Dict.dict.

(** ** Lattice vectors and positions *)

Definition origin : LatticeVector := (0, 0, 0)%Z.

(** [tuple(-x for x in G)] *)
Definition neg_G (G : LatticeVector) : LatticeVector :=
  let '(a, b, c) := G in (- a, - b, - c)%Z.

Definition add_G (G H : LatticeVector) : LatticeVector :=
  let '(a, b, c) := G in let '(a', b', c') := H in (a + a', b + b', c + c')%Z.

Definition sub_G (G H : LatticeVector) : LatticeVector :=
  let '(a, b, c) := G in let '(a', b', c') := H in (a - a', b - b', c - c')%Z.

(** [G[np.nonzero(G)[0][0]] > 0], for [G != (0, 0, 0)] *)
Definition first_nonzero_positive (G : LatticeVector) : bool :=
  let '(a, b, c) := G in
  (if a =? 0 then (if b =? 0 then 0 <? c else 0 <? b) else 0 <? a)%Z.

(** [np.array(np.floor(p), dtype=int)] *)
Definition floor3 (p : vec3) : LatticeVector :=
  let '(x, y, z) := p in (Zfloor x, Zfloor y, Zfloor z).

(** [np.array(p) % 1] *)
Definition mod1 (x : R) : R := (x - IZR (Zfloor x))%R.
Definition mod1_3 (p : vec3) : vec3 :=
  let '(x, y, z) := p in (mod1 x, mod1 y, mod1 z).

(** ** The model *)

Record Model : Type := mkModel {
  size : nat;
  occ : option Z;
  pos : list vec3;
  uc : option mat3;
  hoppings : dict matrix
}.

(** [seq[i]] for a Python list and an index from [enumerate] *)
Definition index {A} (l : list A) (i : nat) : result A :=
  match nth_error l i with
  | Some a => Ok a
  | None => Err IndexError
  end.

(** [m[i][j] += t] on an array of [r] rows and [c] columns *)
Definition add_at (r c : nat) (m : matrix) (i j : nat) (t : C) : result matrix :=
  if (i <? r)%nat && (j <? c)%nat
  then Ok (Mat.upd m i j (fun z => Cx.add z t))
  else Err IndexError.

(** The three nested loops over the entries of a table that several
    methods share: [for G, hop_mat in hoppings.items()],
    [for i0, row in enumerate(hop_mat)], [for i1, t in enumerate(row)]. *)
Definition for_entries {S} (body : S -> LatticeVector -> nat -> nat -> C -> result S)
    (hop : dict matrix) (s : S) : result S :=
  foldM (fun s Gh =>
    foldM (fun s ir =>
      foldM (fun s jt => body s (fst Gh) (fst ir) (fst jt) (snd jt))
            (enumerate (snd ir)) s)
      (enumerate (snd Gh)) s)
    hop s.

Section Init.

(** [self.size], which the helper methods read *)
Variable size_ : nat.

(** *** [_map_to_uc] *)

Definition map_to_uc_entry (uc_offsets : list LatticeVector)
    (new_hoppings : dict matrix) (G : LatticeVector) (i0 i1 : nat) (t : C)
    : result (dict matrix) :=
  if Cx.nonzero t then
    o1 <- index uc_offsets i1 ;;
    o0 <- index uc_offsets i0 ;;
    let G_new := sub_G (add_G G o1) o0 in
    let m := Dict.get_default new_hoppings G_new (Mat.zeros size_ size_) in
    m' <- add_at size_ size_ m i0 i1 t ;;
    Ok (Dict.set new_hoppings G_new m')
  else Ok new_hoppings.

Definition _map_to_uc (pos : list vec3) (hoppings : dict matrix)
    : result (list vec3 * dict matrix) :=
  let uc_offsets := map floor3 pos in
  if forallb (Dict.key_eqb origin) uc_offsets then Ok (pos, hoppings)
  else
    let new_pos := map mod1_3 pos in
    new_hoppings <- for_entries (map_to_uc_entry uc_offsets) hoppings [] ;;
    Ok (new_pos, new_hoppings).

(** *** [_reduce_hoppings] *)

Definition check_cc (hop : dict matrix) (cc_tolerance : R) (_ : unit)
    (Gh : LatticeVector * matrix) : result unit :=
  partner <- Dict.lookup hop (neg_G (fst Gh)) ;;
  d <- Mat.sub (snd Gh) (Mat.conj (Mat.transpose partner)) ;;
  if Rgt_dec (Mat.norm d) cc_tolerance then Err (ValueError NotHermitian)
  else Ok tt.

Definition reduce_step (res : dict matrix) (Gh : LatticeVector * matrix) : dict matrix :=
  let (G, hop_csr) := Gh in
  if Dict.key_eqb G origin then Dict.set res G (Mat.scale (1/2) hop_csr)
  else if first_nonzero_positive G then Dict.set res G hop_csr
  else res.

Definition _reduce_hoppings (hop : dict matrix) (cc_tolerance : R) : result (dict matrix) :=
  _ <- foldM (check_cc hop cc_tolerance) hop tt ;;
  Ok (fold_left reduce_step hop []).

(** *** [_map_hoppings_positive_G] *)

Definition fold_step (new_hoppings : dict matrix) (Gh : LatticeVector * matrix)
    : result (dict matrix) :=
  let (G, hop_csr) := Gh in
  let dflt := Mat.zeros size_ size_ in
  if Dict.key_eqb G origin then Ok (Dict.set new_hoppings G hop_csr)
  else if first_nonzero_positive G then
    m <- Mat.add (Dict.get_default new_hoppings G dflt) hop_csr ;;
    Ok (Dict.set new_hoppings G m)
  else
    let minus_G := neg_G G in
    m <- Mat.add (Dict.get_default new_hoppings minus_G dflt)
                 (Mat.conj (Mat.transpose hop_csr)) ;;
    Ok (Dict.set new_hoppings minus_G m).

Definition _map_hoppings_positive_G (hoppings : dict matrix) : result (dict matrix) :=
  foldM fold_step hoppings [].

(** The consistency check for the size, at the end of [__init__]. *)
Definition check_shape (_ : unit) (Gh : LatticeVector * matrix) : result unit :=
  if Mat.has_shape size_ size_ (snd Gh) then Ok tt
  else Err (ValueError (BadShape (Mat.shape (snd Gh)) (size_, size_))).

End Init.

(** *** [Model.__init__] *)

(** The block [SIZE] *)
Definition init_size (hoppings : dict matrix) (size : option nat) : result nat :=
  match size, hoppings with
  | Some n, _ => Ok n
  | None, [] => Err (ValueError EmptyHoppingsNoSize)
  | None, (_, m) :: _ => Ok (Mat.nrows m)
  end.

(** The positions, and the table as it reaches the reduction. *)
Definition init_positions (size_ : nat) (pos : option (list vec3)) (hoppings : dict matrix)
    : result (list vec3 * dict matrix) :=
  match pos with
  | None => Ok (repeat (0, 0, 0)%R size_, hoppings)
  | Some p =>
      if (length p =? size_)%nat then _map_to_uc size_ p hoppings
      else Err (ValueError InvalidPos)
  end.

Definition Model_init (hoppings : dict matrix) (size : option nat) (occ : option Z)
    (pos : option (list vec3)) (uc : option mat3) (contains_cc : bool)
    (cc_tolerance : R) : result Model :=
  (* ---- SIZE ---- *)
  size_ <- init_size hoppings size ;;
  (* ---- HOPPING TERMS AND POSITIONS ---- *)
  ph <- init_positions size_ pos hoppings ;;
  let (pos_, hoppings1) := ph : list vec3 * dict matrix in
  hoppings2 <- (if contains_cc then _reduce_hoppings hoppings1 cc_tolerance
                else _map_hoppings_positive_G size_ hoppings1) ;;
  (* consistency check for size *)
  _ <- foldM (check_shape size_) hoppings2 tt ;;
  (* ---- UNIT CELL, OCCUPATION NR ---- *)
  Ok (mkModel size_ occ pos_ uc hoppings2).

(** The default of [cc_tolerance]. *)
Definition default_cc_tolerance : R := (1 / 1000000000000)%R.

(** ** Basic functionality: [hamilton] *)

Definition vec3_list (v : vec3) : list R := let '(x, y, z) := v in [x; y; z].
Definition mat3_rows (m : mat3) : list vec3 := let '(r0, r1, r2) := m in [r0; r1; r2].

Definition vec3_of_G (G : LatticeVector) : vec3 :=
  let '(a, b, c) := G in (IZR a, IZR b, IZR c).

Definition dot3 (u v : vec3) : R :=
  let '(u0, u1, u2) := u in let '(v0, v1, v2) := v in (u0 * v0 + u1 * v1 + u2 * v2)%R.

Definition add3 (u v : vec3) : vec3 :=
  let '(u0, u1, u2) := u in let '(v0, v1, v2) := v in (u0 + v0, u1 + v1, u2 + v2)%R.

Definition sub3 (u v : vec3) : vec3 :=
  let '(u0, u1, u2) := u in let '(v0, v1, v2) := v in (u0 - v0, u1 - v1, u2 - v2)%R.

(** [np.dot(m, v)] for a 3x3 matrix and a vector *)
Definition mat3_vec (m : mat3) (v : vec3) : vec3 :=
  let '(r0, r1, r2) := m in (dot3 r0 v, dot3 r1 v, dot3 r2 v).

(** [np.exp(2j * np.pi * np.dot(G, k))] *)
Definition bloch_phase (G : LatticeVector) (k : vec3) : C :=
  Cx.cexp (Cx.scale (dot3 (vec3_of_G G) k) (Cx.scale PI (0, 2)%R)).

(** The running value of the builtin [sum]: it starts from the integer 0. *)
Inductive pysum : Type :=
| SumInt0
| SumArr (m : matrix).

(** One addition of [sum].  [0 + array] adds 0 to every entry.  Two arrays
    are added entry by entry; the matrices of one model have one shape (on
    arrays of different shapes numpy broadcasts or raises, which is
    reported here as the error of [Mat.add]). *)
Definition sum_step (acc : pysum) (term : matrix) : result pysum :=
  match acc with
  | SumInt0 => Ok (SumArr (map (map (Cx.add Cx.zero)) term))
  | SumArr a => m <- Mat.add a term ;; Ok (SumArr m)
  end.

Definition hamilton_terms (self : Model) (k : vec3) : list matrix :=
  map (fun Gh => Mat.cscale (snd Gh) (bloch_phase (fst Gh) k)) (hoppings self).

Definition hamilton (self : Model) (k : vec3) : result matrix :=
  H <- foldM sum_step (hamilton_terms self k) SumInt0 ;;
  match H with
  | SumInt0 => Err AttributeError          (* [H.conjugate().T] on the integer 0 *)
  | SumArr H => Mat.add H (Mat.transpose (Mat.conj H))
  end.

(** ** Arithmetic operations

    Each operation returns the state of its operands after the call, then
    its outcome. *)

(** The right operand of [+]: a [Model] or anything else. *)
Inductive operand : Type :=
| IsModel (m : Model)
| NotModel.

Definition add_tolerance : R := (1 / 1000000)%R.

(** [abs(x1 - x2) > tolerance] for no pair of the two zipped sequences *)
Definition coords_match (v1 v2 : list R) : bool :=
  forallb (fun x => if Rgt_dec (Rabs (fst x - snd x)) add_tolerance then false else true)
          (combine v1 v2).

Definition vectors_match (l1 l2 : list vec3) : bool :=
  forallb (fun v => coords_match (vec3_list (fst v)) (vec3_list (snd v))) (combine l1 l2).

Definition uc_match (uc1 uc2 : option mat3) : bool :=
  match uc1, uc2 with
  | None, None => true
  | None, Some _ | Some _, None => false
  | Some u1, Some u2 => vectors_match (mat3_rows u1) (mat3_rows u2)
  end.

Definition option_Z_eqb (a b : option Z) : bool :=
  match a, b with
  | None, None => true
  | Some x, Some y => (x =? y)%Z
  | _, _ => false
  end.

(** [new_hoppings[G] += hop_mat] on a plain [dict] *)
Definition add_into (new_hoppings : dict matrix) (Gh : LatticeVector * matrix)
    : result (dict matrix) :=
  old <- Dict.lookup new_hoppings (fst Gh) ;;
  m <- Mat.add old (snd Gh) ;;
  Ok (Dict.set new_hoppings (fst Gh) m).

Definition add_outcome (self model : Model) : result Model :=
  if negb (option_Z_eqb (occ self) (occ model))
  then Err (ValueError (OccMismatch (occ self) (occ model)))
  else if negb (size self =? size model)%nat
  then Err TypeError                       (* [len(self.size)] in the message *)
  else if negb (uc_match (uc self) (uc model))
  then Err (ValueError (UcMismatch (uc self) (uc model)))
  else if negb (vectors_match (pos self) (pos model))
  then Err (ValueError (PosMismatch (pos self) (pos model)))
  else
    new_hoppings <- foldM add_into (hoppings model) (hoppings self) ;;
    Model_init new_hoppings None (occ self) (Some (pos self)) (uc self) false
               default_cc_tolerance.

(** [Model.__add__] and [Model.__radd__] *)
Definition add (self : Model) (model : operand) : Model * operand * result Model :=
  match model with
  | NotModel => (self, model, Err (ValueError InvalidAddArgument))
  | IsModel m => (self, model, add_outcome self m)
  end.

Definition radd (self : Model) (model : operand) : Model * operand * result Model :=
  add self model.

(** [Model.__mul__] and [Model.__rmul__] *)
Definition mul (self : Model) (x : R) : Model * result Model :=
  let new_hoppings :=
    fold_left (fun d Gh => Dict.set d (fst Gh) (Mat.scale x (snd Gh))) (hoppings self) [] in
  (self, Model_init new_hoppings None (occ self) (Some (pos self)) (uc self) false
                    default_cc_tolerance).

Definition rmul (self : Model) (x : R) : Model * result Model := mul self x.

(** [Model.__neg__] *)
Definition neg (self : Model) : Model * result Model := rmul self (-1)%R.

(** [Model.__sub__]: [self + -model] *)
Definition sub (self model : Model) : Model * Model * result Model :=
  let (model', negated) := neg model in
  match negated with
  | Err e => (self, model', Err e)
  | Ok m =>
      let '(self', _, r) := add self (IsModel m) in (self', model', r)
  end.

(** [Model.__div__] and [Model.__truediv__]: [self * (1. / x)] *)
Definition div (self : Model) (x : R) : Model * result Model :=
  if Req_dec_T x 0 then (self, Err ZeroDivisionError) else mul self (1 / x)%R.

Definition truediv (self : Model) (x : R) : Model * result Model := div self x.

(** ** Other derived models *)

(** *** Helper functions for [supercell] *)

(** [_pos_to_idx] *)
Definition _pos_to_idx (pos dim : LatticeVector) : result Z :=
  let '(p0, p1, p2) := pos in
  let '(d0, d1, d2) := dim in
  if ((d0 <=? p0) || (d1 <=? p1) || (d2 <=? p2))%Z then Err IndexError
  else Ok (((p0 * d1) + p1) * d2 + p2)%Z.

(** [_edge_detect_pos] *)
Definition _edge_detect_pos (pos dim : LatticeVector)
    : result ((bool * bool) * (bool * bool) * (bool * bool)) :=
  let '(p0, p1, p2) := pos in
  let '(d0, d1, d2) := dim in
  if ((d0 <=? p0) || (d1 <=? p1) || (d2 <=? p2))%Z then Err IndexError
  else Ok ((p0 =? 0, p0 =? d0 - 1), (p1 =? 0, p1 =? d1 - 1), (p2 =? 0, p2 =? d2 - 1))%Z.

(** *** [supercell] *)

Definition G_list (G : LatticeVector) : list Z := let '(a, b, c) := G in [a; b; c].

(** numpy's reading of an integer index into an axis of length [n]:
    a negative index counts from the end. *)
Definition np_index (n : nat) (i : Z) : result nat :=
  if ((0 <=? i) && (i <? Z.of_nat n))%Z then Ok (Z.to_nat i)
  else if ((- Z.of_nat n <=? i) && (i <? 0))%Z then Ok (Z.to_nat (i + Z.of_nat n))
  else Err IndexError.

(** [m[i, j] += t] on a square array of [n] rows *)
Definition np_add_at (n : nat) (m : matrix) (i j : Z) (t : C) : result matrix :=
  i' <- np_index n i ;;
  j' <- np_index n j ;;
  Ok (Mat.upd m i' j' (fun z => Cx.add z t)).

(** [np.array(np.floor(a / d), dtype=int)] and [a % d], coordinate by coordinate *)
Definition floor_div (a d : Z) : Z := Zfloor (IZR a / IZR d).
Definition floor_div3 (a d : LatticeVector) : LatticeVector :=
  let '(a0, a1, a2) := a in let '(d0, d1, d2) := d in
  (floor_div a0 d0, floor_div a1 d1, floor_div a2 d2).
Definition mod3 (a d : LatticeVector) : LatticeVector :=
  let '(a0, a1, a2) := a in let '(d0, d1, d2) := d in
  (a0 mod d0, a1 mod d1, a2 mod d2)%Z.

(** The three nested loops [for i in range(nx)], [for j in range(ny)],
    [for k in range(nz)]. *)
Definition cells (dim : LatticeVector) : list LatticeVector :=
  let '(nx, ny, nz) := dim in
  flat_map (fun i => flat_map (fun j => map (fun k => (i, j, k)) (range nz)) (range ny))
           (range nx).

Definition div3 (p : vec3) (dim : LatticeVector) : vec3 :=
  let '(x, y, z) := p in let '(nx, ny, nz) := dim in
  (x / IZR nx, y / IZR ny, z / IZR nz)%R.

(** [self.uc * dim]: column [j] of [uc] times [dim[j]] *)
Definition scale_columns (u : mat3) (dim : LatticeVector) : mat3 :=
  let '(nx, ny, nz) := dim in
  let f := fun r : vec3 => let '(x, y, z) := r in (x * IZR nx, y * IZR ny, z * IZR nz)%R in
  let '(r0, r1, r2) := u in (f r0, f r1, f r2).

Section Supercell.

Variable self : Model.
Variable dim : LatticeVector.
Variable periodic : list bool.

Definition new_size : nat :=
  let '(nx, ny, nz) := dim in Z.to_nat (Z.of_nat (size self) * nx * ny * nz).

(** [full_idx] *)
Definition full_idx (uc_pos : LatticeVector) (orbital_idx : nat) : result Z :=
  uc_idx <- _pos_to_idx uc_pos dim ;;
  Ok (uc_idx * Z.of_nat (size self) + Z.of_nat orbital_idx)%Z.

Definition supercell_entry (uc0_pos : LatticeVector) (new_hoppings : dict matrix)
    (G : LatticeVector) (i0 i1 : nat) (t : C) : result (dict matrix) :=
  new_i0 <- full_idx uc0_pos i0 ;;
  let full_uc1_pos := add_G uc0_pos G in
  let outside_supercell :=
    map (fun pd => (fst pd <? 0) || (snd pd <=? fst pd))%Z
        (combine (G_list full_uc1_pos) (G_list dim)) in
  let cut_hop :=
    existsb (fun po => negb (fst po) && snd po) (combine periodic outside_supercell) in
  if cut_hop then Ok new_hoppings
  else
    let new_G := floor_div3 full_uc1_pos dim in
    let uc1_pos := mod3 full_uc1_pos dim in
    new_i1 <- full_idx uc1_pos i1 ;;
    let m := Dict.get_default new_hoppings new_G (Mat.zeros new_size new_size) in
    m' <- np_add_at new_size m new_i0 new_i1 t ;;
    Ok (Dict.set new_hoppings new_G m').

Definition supercell_hoppings : result (dict matrix) :=
  foldM (fun nh uc0_pos => for_entries (supercell_entry uc0_pos) (hoppings self) nh)
        (cells dim) [].

(** [block[idx:idx+size, idx:idx+size] += np.diag(v * 0.5)]: a vector of
    [size] entries goes on the diagonal of the block, a vector of one entry
    is broadcast over the whole block, any other length raises. *)
Definition add_passivation (m : matrix) (idx : nat) (v : list R) : result matrix :=
  let n := size self in
  let inside := fun a b => ((idx <=? a) && (a <? idx + n) && (idx <=? b) && (b <? idx + n))%nat in
  if (length v =? n)%nat then
    Ok (Mat.mk new_size new_size (fun a b =>
          if inside a b
          then Cx.add (Mat.get m a b)
                      (Cx.of_R (if (a =? b)%nat then nth (a - idx) v 0 * (1/2) else 0)%R)
          else Mat.get m a b))
  else if (length v =? 1)%nat then
    Ok (Mat.mk new_size new_size (fun a b =>
          if inside a b
          then Cx.add (Mat.get m a b) (Cx.of_R (nth 0 v 0 * (1/2))%R)
          else Mat.get m a b))
  else Err (ValueError InconsistentShapes).

Definition passivation_step
    (passivation : (bool * bool) -> (bool * bool) -> (bool * bool) -> list R)
    (new_hoppings : dict matrix) (cell : LatticeVector) : result (dict matrix) :=
  let '(i, j, k) := cell in
  let '(nx, ny, nz) := dim in
  let idx := ((i * ny * nz + j * nz + k) * Z.of_nat (size self))%Z in
  edges <- _edge_detect_pos cell dim ;;
  let '(ex, ey, ez) := edges in
  let m := Dict.get_default new_hoppings origin (Mat.zeros new_size new_size) in
  m' <- add_passivation m (Z.to_nat idx) (passivation ex ey ez) ;;
  Ok (Dict.set new_hoppings origin m').

Definition supercell_outcome
    (passivation : option ((bool * bool) -> (bool * bool) -> (bool * bool) -> list R))
    : result Model :=
  let '(nx, ny, nz) := dim in
  let new_occ := match occ self with
                 | None => None
                 | Some o => Some ((nx + ny + nz) * o)%Z
                 end in
  let new_uc := match uc self with
                | None => None
                | Some u => Some (scale_columns u dim)
                end in
  (* the new positions, normalized to the supercell *)
  let reduced_pos := map (fun p => div3 p dim) (pos self) in
  let new_pos :=
    flat_map (fun cell => map (fun p => add3 (div3 (vec3_of_G cell) dim) p) reduced_pos)
             (cells dim) in
  (* new hoppings, cutting those that cross the supercell boundary *)
  new_hoppings <- supercell_hoppings ;;
  (* new on_site terms, including passivation *)
  let passivation' := match passivation with
                      | None => fun _ _ _ => repeat 0%R (size self)
                      | Some f => f
                      end in
  new_hoppings' <- foldM (passivation_step passivation') (cells dim) new_hoppings ;;
  Model_init new_hoppings' None new_occ (Some new_pos) new_uc false default_cc_tolerance.

End Supercell.

Definition supercell (self : Model) (dim : LatticeVector) (periodic : list bool)
    (passivation : option ((bool * bool) -> (bool * bool) -> (bool * bool) -> list R))
    : Model * result Model :=
  (self, supercell_outcome self dim periodic passivation).

Definition default_periodic : list bool := [true; true; true].

(** *** [trs] *)

(** [new[:n, :n] += hop] followed by [new[n:, n:] += hop.conjugate()] on a
    [2n x 2n] array, for a [hop] of shape [(n, n)]; another shape of [hop]
    is reported as the error of mismatched shapes. *)
Definition trs_blocks (n : nat) (new : matrix) (hop : matrix) : result matrix :=
  if Mat.has_shape n n hop then
    Ok (Mat.mk (2 * n) (2 * n) (fun a b =>
          if ((a <? n) && (b <? n))%nat then Cx.add (Mat.get new a b) (Mat.get hop a b)
          else if ((n <=? a) && (n <=? b))%nat
               then Cx.add (Mat.get new a b) (Cx.conj (Mat.get hop (a - n) (b - n)))
               else Mat.get new a b))
  else Err (ValueError InconsistentShapes).

Definition trs_step (n : nat) (new_hoppings : dict matrix) (Gh : LatticeVector * matrix)
    : result (dict matrix) :=
  let (G, hop) := Gh in
  let new := Dict.get_default new_hoppings G (Mat.zeros (2 * n) (2 * n)) in
  m <- trs_blocks n new hop ;;
  Ok (Dict.set new_hoppings G m).

Definition trs (self : Model) : Model * result Model :=
  let new_occ := match occ self with
                 | None => None
                 | Some o => Some (o * 2)%Z
                 end in
  let new_pos := pos self ++ pos self in
  (self,
   new_hoppings <- foldM (trs_step (size self)) (hoppings self) [] ;;
   Model_init new_hoppings None new_occ (Some new_pos) (uc self) false
              default_cc_tolerance).

(** *** [change_uc] *)

(** [la.det] of a 3x3 matrix *)
Definition det3 (m : mat3) : R :=
  let '((a, b, c), (d, e, f), (g, h, i)) := m in
  (a * (e * i - f * h) - b * (d * i - f * g) + c * (d * h - e * g))%R.

(** [la.solve(m, v)], by Cramer's rule *)
Definition solve3 (m : mat3) (v : vec3) : vec3 :=
  let '((a, b, c), (d, e, f), (g, h, i)) := m in
  let '(x, y, z) := v in
  let dt := det3 m in
  (det3 ((x, b, c), (y, e, f), (z, h, i)) / dt,
   det3 ((a, x, c), (d, y, f), (g, z, i)) / dt,
   det3 ((a, b, x), (d, e, y), (g, h, z)) / dt)%R.

(** [np.dot(a, b)] of two 3x3 matrices *)
Definition mat3_mul (a b : mat3) : mat3 :=
  let '(b0, b1, b2) := b in
  let col := fun j : nat =>
    match j with
    | 0%nat => (fst (fst b0), fst (fst b1), fst (fst b2))
    | 1%nat => (snd (fst b0), snd (fst b1), snd (fst b2))
    | _ => (snd b0, snd b1, snd b2)
    end in
  let row := fun r : vec3 => (dot3 r (col 0%nat), dot3 r (col 1%nat), dot3 r (col 2%nat)) in
  let '(a0, a1, a2) := a in (row a0, row a1, row a2).

(** The conversion of a float to [dtype=int]: truncation towards zero. *)
Definition trunc (x : R) : Z :=
  if Rlt_dec x 0 then Zceil x else Zfloor x.
Definition trunc3 (v : vec3) : LatticeVector :=
  let '(x, y, z) := v in (trunc x, trunc y, trunc z).

Definition change_uc (self : Model) (uc_ : mat3) (in_place : bool) : Model * result Model :=
  (self,
   if Req_dec_T (det3 uc_) 1 then
     let new_uc := match uc self with
                   | Some u => Some (mat3_mul u uc_)
                   | None => None
                   end in
     let new_pos := map (solve3 uc_) (pos self) in
     let new_hoppings :=
       fold_left (fun d Gh => Dict.set d (trunc3 (solve3 uc_ (vec3_of_G (fst Gh)))) (snd Gh))
                 (hoppings self) [] in
     Model_init new_hoppings None (occ self) (Some new_pos) new_uc false
                default_cc_tolerance
   else Err (ValueError (DetNotOne (det3 uc_)))).

Definition identity3 : mat3 := ((1, 0, 0), (0, 1, 0), (0, 0, 1))%R.

(** *** [em_field] *)

Section EmField.

Variable self : Model.
Variable prefactor_scalar prefactor_vec : R.
Variable mode_scalar mode_vec : string.

(** One turn of the loop over [enumerate(self.pos)] for the scalar potential;
    it works on the deep copy.  The target [new_hoppings[(0, 0, 0)][i, i]]
    is read before the right-hand side is evaluated. *)
Definition scalar_step (scalar_pot : vec3 -> R) (new_hoppings : dict matrix)
    (ip : nat * vec3) : result (dict matrix) :=
  let (i, p) := ip in
  let add_on_site := fun rhs : result R =>
    m <- Dict.lookup new_hoppings origin ;;
    _ <- (if (i <? Mat.nrows m)%nat && (i <? Mat.ncols m)%nat then Ok tt
          else Err IndexError) ;;
    phi <- rhs ;;
    Ok (Dict.set new_hoppings origin
          (Mat.upd m i i (fun z => Cx.add z (Cx.of_R (1/2 * prefactor_scalar * phi)%R)))) in
  if (mode_scalar =? "relative")%string then add_on_site (Ok (scalar_pot p))
  else if (mode_scalar =? "absolute")%string then
    add_on_site match uc self with
                | None => Err TypeError    (* [np.dot(None, p)] *)
                | Some u => Ok (scalar_pot (mat3_vec u p))
                end
  else Err (ValueError BadModeScalar).

(** [np.exp(-1j * prefactor_vec * np.dot(G + r1 - r0, A1 - A0))] *)
Definition peierls_phase (G : LatticeVector) (r0 r1 A0 A1 : vec3) : C :=
  Cx.cexp (Cx.scale (dot3 (sub3 (add3 (vec3_of_G G) r1) r0) (sub3 A1 A0))
                    (Cx.scale prefactor_vec (0, -1)%R)).

(** The body of the loop over the non-zero entries of one matrix of
    [self.hoppings]: the matrix it returns is that matrix after
    [hop_mat[i0, i1] *= ...]. *)
Definition peierls_entry (u : mat3) (vector_pot : vec3 -> vec3) (G : LatticeVector)
    (hop_mat : matrix) (i0 i1 : nat) : result matrix :=
  p0 <- index (pos self) i0 ;;
  p1 <- index (pos self) i0 ;;
  let r0 := mat3_vec u p0 in
  let r1 := mat3_vec u p1 in
  A <- (if (mode_vec =? "absolute")%string
        then Ok (vector_pot (mat3_vec u (mod1_3 p0)), vector_pot (mat3_vec u (mod1_3 p1)))
        else if (mode_vec =? "relative")%string
        then Ok (vector_pot (mod1_3 p0), vector_pot (mod1_3 p1))
        else Err (ValueError BadModeVec)) ;;
  let (A0, A1) := A : vec3 * vec3 in
  Ok (Mat.upd hop_mat i0 i1 (fun t => Cx.mul t (peierls_phase G r0 r1 A0 A1))).

(** A loop that writes into a matrix of [self]: when the body raises, the
    matrix keeps what was written before. *)
Fixpoint peierls_matrix (body : matrix -> nat -> nat -> result matrix)
    (idx : list (nat * nat)) (hop_mat : matrix) : matrix * result unit :=
  match idx with
  | [] => (hop_mat, Ok tt)
  | (i0, i1) :: rest =>
      match body hop_mat i0 i1 with
      | Ok hop_mat' => peierls_matrix body rest hop_mat'
      | Err e => (hop_mat, Err e)
      end
  end.

(** The loop over [self.hoppings.items()]; it returns [self.hoppings] as
    the loop leaves it. *)
Fixpoint peierls_table (u : mat3) (vector_pot : vec3 -> vec3) (hop : dict matrix)
    : dict matrix * result unit :=
  match hop with
  | [] => ([], Ok tt)
  | (G, hop_mat) :: rest =>
      let (hop_mat', r) :=
        peierls_matrix (peierls_entry u vector_pot G) (Mat.nonzero_idx hop_mat) hop_mat in
      match r with
      | Err e => ((G, hop_mat') :: rest, Err e)
      | Ok _ =>
          let (rest', r') := peierls_table u vector_pot rest in
          ((G, hop_mat') :: rest', r')
      end
  end.

Definition with_hoppings (h : dict matrix) : Model :=
  mkModel (size self) (occ self) (pos self) (uc self) h.

Definition em_field (scalar_pot : option (vec3 -> R)) (vec_pot : option (vec3 -> vec3))
    : Model * result Model :=
  (* new_hoppings = copy.deepcopy(self.hoppings) *)
  let copied := hoppings self in
  let scalar_part :=
    match scalar_pot with
    | None => Ok copied
    | Some f => foldM (scalar_step f) (enumerate (pos self)) copied
    end in
  match scalar_part with
  | Err e => (self, Err e)
  | Ok new_hoppings =>
      let (self', vec_part) :=
        match vec_pot with
        | None => (self, Ok tt)
        | Some A =>
            match uc self with
            | None => (self, Err (ValueError UcNotSpecified))
            | Some u =>
                let (h', r) := peierls_table u A (hoppings self) in (with_hoppings h', r)
            end
        end in
      match vec_part with
      | Err e => (self', Err e)
      | Ok _ =>
          (self', Model_init new_hoppings None (occ self) (Some (pos self')) (uc self')
                             false default_cc_tolerance)
      end
  end.

End EmField.

Definition default_prefactor_vec : R := (7596337572 / 1000000000000000)%R.

(** ** The derived-model operations, as one relation

    [derived self self' r]: some derived-model operation called on [self]
    leaves [self] in the state [self'] and has the outcome [r]. *)

Inductive derived (self : Model) : Model -> result Model -> Prop :=
| derived_add model :
    derived self (fst (fst (add self model))) (snd (add self model))
| derived_radd model :
    derived self (fst (fst (radd self model))) (snd (radd self model))
| derived_sub model :
    derived self (fst (fst (sub self model))) (snd (sub self model))
| derived_neg :
    derived self (fst (neg self)) (snd (neg self))
| derived_mul x :
    derived self (fst (mul self x)) (snd (mul self x))
| derived_rmul x :
    derived self (fst (rmul self x)) (snd (rmul self x))
| derived_div x :
    derived self (fst (div self x)) (snd (div self x))
| derived_truediv x :
    derived self (fst (truediv self x)) (snd (truediv self x))
| derived_supercell dim periodic passivation :
    derived self (fst (supercell self dim periodic passivation))
                 (snd (supercell self dim periodic passivation))
| derived_trs :
    derived self (fst (trs self)) (snd (trs self))
| derived_change_uc uc_ in_place :
    derived self (fst (change_uc self uc_ in_place)) (snd (change_uc self uc_ in_place))
| derived_em_field ps pv ms mv scalar_pot vec_pot :
    derived self (fst (em_field self ps pv ms mv scalar_pot vec_pot))
                 (snd (em_field self ps pv ms mv scalar_pot vec_pot)).

(** ** The canonical-storage rule *)

(** The first non-zero coordinate of [G] is positive. *)
Definition leading_positive (G : LatticeVector) : Prop :=
  let '(a, b, c) := G in
  (0 < a \/ (a = 0 /\ 0 < b) \/ (a = 0 /\ b = 0 /\ 0 < c))%Z.

Definition canonical_storage (h : dict matrix) : Prop :=
  (forall G, In G (Dict.keys h) -> G <> origin -> leading_positive G) /\
  (forall G G', In G (Dict.keys h) -> In G' (Dict.keys h) -> G <> G' -> G' <> neg_G G).

Definition keys_canonical (h : dict matrix) : Prop :=
  forall G, In G (Dict.keys h) -> G = origin \/ leading_positive G.

(** ** Valid models

    The invariants of a [Model]: the keys of the table are pairwise
    different and canonical, every hopping matrix has the shape
    [(size, size)], there is one position per orbital, and every position
    lies in the home unit cell. *)

Definition in_home_cell (p : vec3) : Prop := floor3 p = origin.

Record valid (m : Model) : Prop := {
  valid_keys : Dict.wf (hoppings m);
  valid_canonical : keys_canonical (hoppings m);
  valid_shapes : Forall (Mat.rect (size m) (size m)) (Dict.values (hoppings m));
  valid_pos_length : length (pos m) = size m;
  valid_pos_home : Forall in_home_cell (pos m)
}.

(** ** The Hamiltonian, in the words of the specification *)

(** [h^dagger], the conjugate transpose *)
Definition dagger (h : matrix) : matrix := Mat.conj (Mat.transpose h).

Definition hermitian (h : matrix) : Prop := dagger h = h.

(** The [N x N] matrix [sum_G h(G) exp(2 pi i G.k)] over the stored keys. *)
Definition bloch_sum (m : Model) (k : vec3) : matrix :=
  fold_left (fun acc Gh =>
               Mat.pointwise Cx.add acc (Mat.cscale (snd Gh) (bloch_phase (fst Gh) k)))
            (hoppings m) (Mat.zeros (size m) (size m)).

(** ** The Hermiticity check, in the words of the specification *)

(** [H(G) - H(-G)^dagger], when [-G] is stored and the shapes allow it. *)
Definition hermitian_gap (hop : dict matrix) (G : LatticeVector) (h : matrix)
    (d : matrix) : Prop :=
  exists partner, Dict.get hop (neg_G G) = Some partner /\
                  Mat.sub h (Mat.conj (Mat.transpose partner)) = Ok d.

(** The stored key [G] violates [H(G) == H(-G)^dagger] beyond the tolerance. *)
Definition violates (hop : dict matrix) (tol : R) (G : LatticeVector) (h : matrix) : Prop :=
  exists d, hermitian_gap hop G h d /\ (Mat.norm d > tol)%R.

(** The pair of [G] satisfies the bound. *)
Definition within (hop : dict matrix) (tol : R) (G : LatticeVector) (h : matrix) : Prop :=
  exists d, hermitian_gap hop G h d /\ ~ (Mat.norm d > tol)%R.

(** Every stored key has its partner stored, with a matrix of the
    transposed shape. *)
Definition comparable (hop : dict matrix) : Prop :=
  forall G h, In (G, h) hop -> exists d, hermitian_gap hop G h d.

(** Every matrix of the table has the shape [(n, n)]. *)
Definition shaped (n : nat) (d : dict matrix) : Prop :=
  Forall (Mat.rect n n) (Dict.values d).

(** A passivation function returns one on-site energy per orbital. *)
Definition passivation_fits (m : Model)
    (passivation : option ((bool * bool) -> (bool * bool) -> (bool * bool) -> list R))
    : Prop :=
  match passivation with
  | None => True
  | Some f => forall x y z, length (f x y z) = size m
  end.

(** ** The operand checks of [add], in the words of the specification *)

(** Two vectors differ beyond the absolute tolerance in some coordinate. *)
Definition coords_differ (v1 v2 : vec3) : Prop :=
  let '(x1, y1, z1) := v1 in
  let '(x2, y2, z2) := v2 in
  (Rabs (x1 - x2) > add_tolerance \/ Rabs (y1 - y2) > add_tolerance \/
   Rabs (z1 - z2) > add_tolerance)%R.

(** Some vector of the first sequence differs from the vector at the same
    place of the second. *)
Definition vectors_differ (l1 l2 : list vec3) : Prop :=
  exists i v1 v2, nth_error l1 i = Some v1 /\ nth_error l2 i = Some v2 /\
                  coords_differ v1 v2.

Definition uc_differ (uc1 uc2 : option mat3) : Prop :=
  match uc1, uc2 with
  | None, None => False
  | Some u1, Some u2 => vectors_differ (mat3_rows u1) (mat3_rows u2)
  | _, _ => True
  end.

(** The union of two tables with the matrices of matching keys summed:
    the keys of the left table in their order, then the keys that only the
    right table stores. *)
Definition merge_entry (b : dict matrix) (Gh : LatticeVector * matrix)
    : LatticeVector * matrix :=
  (fst Gh, match Dict.get b (fst Gh) with
           | Some h' => Mat.pointwise Cx.add (snd Gh) h'
           | None => snd Gh
           end).

Definition table_sum (a b : dict matrix) : dict matrix :=
  map (merge_entry b) a
  ++ filter (fun Gh => match Dict.get a (fst Gh) with Some _ => false | None => true end) b.

(** ** The expanded table, in the words of the specification

    Every stored [G] is reinstated together with its partner [-G], which
    carries the conjugate transpose; the block at (0,0,0) is un-halved by
    adding its own conjugate transpose. *)

Definition expand_entry (Gh : LatticeVector * matrix) : dict matrix :=
  let (G, h) := Gh in
  if Dict.key_eqb G origin then [(G, Mat.pointwise Cx.add h (dagger h))]
  else [(G, h); (neg_G G, dagger h)].

Definition expand (h : dict matrix) : dict matrix := flat_map expand_entry h.

(** The construction of a model from its own expanded table. *)
Definition roundtrip (m : Model) (cc_tolerance : R) : result Model :=
  Model_init (expand (hoppings m)) (Some (size m)) (occ m) (Some (pos m)) (uc m) true
             cc_tolerance.

(** The table in which the block at (0,0,0) is replaced by its Hermitian
    average. *)
Definition symmetrize_entry (Gh : LatticeVector * matrix) : LatticeVector * matrix :=
  let (G, h) := Gh in
  if Dict.key_eqb G origin then (G, Mat.scale (1/2) (Mat.pointwise Cx.add h (dagger h)))
  else (G, h).

Definition symmetrized (h : dict matrix) : dict matrix := map symmetrize_entry h.

(** ** The Peierls phase, in the words of the specification

    [exp(-i * prefactor_vec * (G + r1 - r0).(A(r1) - A(r0)))] with [r0] at
    orbital [i0] and [r1] at orbital [i1]; the potential is evaluated as
    [em_field] does for the mode. *)
Definition prescribed_phase (m : Model) (u : mat3) (A : vec3 -> vec3) (prefactor_vec : R)
    (mode_vec : string) (G : LatticeVector) (i0 i1 : nat) : C :=
  let p0 := nth i0 (pos m) (0, 0, 0)%R in
  let p1 := nth i1 (pos m) (0, 0, 0)%R in
  let at_ := fun p => if (mode_vec =? "absolute")%string
                      then A (mat3_vec u (mod1_3 p)) else A (mod1_3 p) in
  peierls_phase prefactor_vec G (mat3_vec u p0) (mat3_vec u p1) (at_ p0) (at_ p1).

(** ** Tables built entry by entry from another table *)

(** The table with every matrix replaced by its image under [g]. *)
Definition map_table (g : matrix -> matrix) (h : dict matrix) : dict matrix :=
  map (fun Gh => (fst Gh, g (snd Gh))) h.

(** The block-diagonal matrix of [trs]: [h] and its complex conjugate. *)
Definition trs_block (n : nat) (h : matrix) : matrix :=
  Mat.mk (2 * n) (2 * n) (fun a b =>
    if ((a <? n) && (b <? n))%nat then Mat.get h a b
    else if ((n <=? a) && (n <=? b))%nat then Cx.conj (Mat.get h (a - n) (b - n))
         else Cx.zero).

(** ** The two reductions of the constructor, key by key *)

Definition is_canonical (G : LatticeVector) : bool :=
  Dict.key_eqb G origin || first_nonzero_positive G.

(** The entries of the canonical keys, in their order, with the matrix of
    [(0, 0, 0)] halved. *)
Definition reduced (hop : dict matrix) : dict matrix :=
  map (fun Gh => (fst Gh, if Dict.key_eqb (fst Gh) origin
                          then Mat.scale (1/2) (snd Gh) else snd Gh))
      (filter (fun Gh => is_canonical (fst Gh)) hop).

(** A stored matrix, or the [n x n] zero matrix for a key that is absent. *)
Definition part (n : nat) (o : option matrix) : matrix :=
  match o with
  | Some h => h
  | None => Mat.zeros n n
  end.

(** [h(G) + h(-G)^dagger] at a canonical key of which [G] or [-G] is
    stored, [h(0, 0, 0)] at the key [(0, 0, 0)]. *)
Definition merged_lookup (n : nat) (hop : dict matrix) (G : LatticeVector)
    : option matrix :=
  if Dict.key_eqb G origin then Dict.get hop G
  else if first_nonzero_positive G then
    match Dict.get hop G, Dict.get hop (neg_G G) with
    | None, None => None
    | a, b => Some (Mat.pointwise Cx.add (part n a) (dagger (part n b)))
    end
  else None.

(** ** The on-site block under a scalar potential *)

(** [h0] with [1/2 * prefactor * phi(pos[a])] added to the diagonal entry
    of every orbital [a]. *)
Definition on_site_shift (m : Model) (prefactor : R) (phi : vec3 -> R) (h0 : matrix)
    : matrix :=
  Mat.mk (size m) (size m) (fun a b =>
    if (a =? b)%nat
    then Cx.add (Mat.get h0 a b)
                (Cx.of_R (1/2 * prefactor * phi (nth a (pos m) (0, 0, 0)%R))%R)
    else Mat.get h0 a b).

(** ** Entries of a table, and the keys that [_map_to_uc] reads them from *)

(** The entry [(a, b)] of the matrix stored at [G]; 0 when [G] is absent. *)
Definition entry (d : dict matrix) (G : LatticeVector) (a b : nat) : C :=
  match Dict.get d G with
  | Some h => Mat.get h a b
  | None => Cx.zero
  end.

(** [uc_offsets[i]] *)
Definition uc_offset (pos : list vec3) (i : nat) : LatticeVector :=
  nth i (map floor3 pos) origin.

(** The key [G - uc_offsets[b] + uc_offsets[a]]. *)
Definition source_key (pos : list vec3) (G : LatticeVector) (a b : nat) : LatticeVector :=
  add_G (sub_G G (uc_offset pos b)) (uc_offset pos a).

(** ** Block-diagonal matrices *)

Definition neg3 (k : vec3) : vec3 := let '(x, y, z) := k in (- x, - y, - z)%R.

(** The [2n x 2n] matrix with the [n x n] blocks [A] and [B] on the
    diagonal. *)
Definition block_diag (n : nat) (A B : matrix) : matrix :=
  Mat.mk (2 * n) (2 * n) (fun a b =>
    if ((a <? n) && (b <? n))%nat then Mat.get A a b
    else if ((n <=? a) && (n <=? b))%nat then Mat.get B (a - n) (b - n)
         else Cx.zero).

(** ** The table of a supercell, entry by entry *)

Definition mul_G (X d : LatticeVector) : LatticeVector :=
  let '(x, y, z) := X in let '(dx, dy, dz) := d in (x * dx, y * dy, z * dz)%Z.

(** The lattice vector, in unit cells, from the cell [c0] of the home
    supercell to the cell [c1] of the supercell at [X]. *)
Definition source_G (dim X c0 c1 : LatticeVector) : LatticeVector :=
  sub_G (add_G (mul_G X dim) c1) c0.

(** The supercell lattice vector [X] leaves the home supercell along a
    direction that is not periodic. *)
Definition crosses (periodic : list bool) (X : LatticeVector) : bool :=
  existsb (fun pX => negb (fst pX) && negb (snd pX =? 0)%Z) (combine periodic (G_list X)).

(** The on-site energy that the passivation gives to orbital [a] of the
    unit cell [c]; 0 without a passivation. *)
Definition passivation_energy (dim : LatticeVector)
    (passivation : option ((bool * bool) -> (bool * bool) -> (bool * bool) -> list R))
    (c : LatticeVector) (a : nat) : R :=
  match passivation with
  | None => 0%R
  | Some f =>
      match _edge_detect_pos c dim with
      | Ok (ex, ey, ez) => nth a (f ex ey ez) 0%R
      | Err _ => 0%R
      end
  end.

(** ** Example inputs *)

Module Examples.

Definition m1 (z : C) : matrix := [[z]].

(** A partnerless key first, then a pair that is not Hermitian. *)
Definition partnerless_first : dict matrix :=
  [((1, 0, 0)%Z, m1 Cx.one); ((2, 0, 0)%Z, m1 Cx.one); ((-2, 0, 0)%Z, m1 Cx.zero)].

(** A pair that is not Hermitian first, then a partnerless key. *)
Definition partnerless_last : dict matrix :=
  [((2, 0, 0)%Z, m1 Cx.one); ((-2, 0, 0)%Z, m1 Cx.zero); ((1, 0, 0)%Z, m1 Cx.one)].

(** A Hermitian pair with its on-site block. *)
Definition hermitian_chain : dict matrix :=
  [((0, 0, 0)%Z, m1 Cx.one); ((1, 0, 0)%Z, m1 (0, 1)%R); ((-1, 0, 0)%Z, m1 (0, -1)%R)].

(** The same, and a key without its partner at the end. *)
Definition chain_with_stray_key : dict matrix :=
  hermitian_chain ++ [((0, 1, 0)%Z, m1 Cx.one)].

(** One pair that is not Hermitian. *)
Definition non_hermitian_pair : dict matrix :=
  [((2, 0, 0)%Z, m1 Cx.one); ((-2, 0, 0)%Z, m1 Cx.zero)].

(** A reduced table given with the negative key only. *)
Definition backward_hop : dict matrix := [((-1, 0, 0)%Z, m1 (0, 1)%R)].

(** A model without any hopping term: [Model({}, size=1)]. *)
Definition empty_model : Model := mkModel 1 None [(0, 0, 0)%R] None [].

(** The single-orbital chain: hopping 1 at [G = (1, 0, 0)]. *)
Definition chain : Model := mkModel 1 None [(0, 0, 0)%R] None [((1, 0, 0)%Z, m1 Cx.one)].

(** Two orbitals a half lattice vector apart along x, with a hopping of
    amplitude 1 from orbital 0 to orbital 1 of the next cell. *)
Definition two_site : Model :=
  mkModel 2 None [(0, 0, 0)%R; (1/2, 0, 0)%R] (Some identity3)
          [((1, 0, 0)%Z, [[Cx.zero; Cx.one]; [Cx.zero; Cx.zero]])].

(** The same model with one occupied state. *)
Definition half_filled : Model :=
  mkModel 2 (Some 1%Z) [(0, 0, 0)%R; (1/2, 0, 0)%R] (Some identity3)
          [((1, 0, 0)%Z, [[Cx.zero; Cx.one]; [Cx.zero; Cx.zero]])].

(** The vector potential [A(r) = r]. *)
Definition linear_pot : vec3 -> vec3 := fun r => r.

(** One orbital whose stored on-site term is the imaginary unit:
    [Model({(0, 0, 0): [[1j]]}, contains_cc=False)]. *)
Definition imaginary_on_site : Model :=
  mkModel 1 None [(0, 0, 0)%R] None [((0, 0, 0)%Z, m1 (0, 1)%R)].

(** The chain with an on-site energy, in reduced form. *)
Definition on_site_chain : Model :=
  mkModel 1 None [(0, 0, 0)%R] None
          [((0, 0, 0)%Z, m1 Cx.one); ((1, 0, 0)%Z, m1 (0, 1)%R)].

(** The chain with an imaginary hopping amplitude. *)
Definition chain_i : Model :=
  mkModel 1 None [(0, 0, 0)%R] None [((1, 0, 0)%Z, m1 (0, 1)%R)].

End Examples.

(** * Properties *)

(** ** Complex arithmetic *)

Module CxFacts.
Import Cx.
Local Open Scope R_scope.

Lemma eq_intro (a b : C) : fst a = fst b -> snd a = snd b -> a = b.
Proof. destruct a, b; simpl; intros; subst; reflexivity. Qed.

Lemma add_comm a b : add a b = add b a.
Proof. apply eq_intro; simpl; ring. Qed.

Lemma add_zero_l a : add zero a = a.
Proof. apply eq_intro; simpl; ring. Qed.

Lemma add_zero_r a : add a zero = a.
Proof. apply eq_intro; simpl; ring. Qed.

Lemma sub_diag a : sub a a = zero.
Proof. apply eq_intro; simpl; ring. Qed.

Lemma mul_one_r a : mul a one = a.
Proof. apply eq_intro; simpl; ring. Qed.

Lemma conj_conj a : conj (conj a) = a.
Proof. apply eq_intro; simpl; ring. Qed.

Lemma conj_add a b : conj (add a b) = add (conj a) (conj b).
Proof. apply eq_intro; simpl; ring. Qed.

Lemma conj_zero : conj zero = zero.
Proof. apply eq_intro; simpl; ring. Qed.

Lemma scale_half_double a : scale (1/2) (add a a) = a.
Proof. apply eq_intro; simpl; field. Qed.

Lemma cexp_zero : cexp zero = one.
Proof. unfold cexp, zero, one; simpl. rewrite exp_0, cos_0, sin_0. f_equal; ring. Qed.

Lemma abs2_zero : abs2 zero = 0.
Proof. unfold abs2, zero; simpl; ring. Qed.

Lemma abs2_nonneg a : 0 <= abs2 a.
Proof. unfold abs2. nra. Qed.

Lemma nonzero_zero : nonzero zero = false.
Proof.
  unfold nonzero, zero; simpl.
  destruct (Req_dec_T 0 0) as [_|H]; [reflexivity | exfalso; apply H; reflexivity].
Qed.

Lemma nonzero_false a : nonzero a = false -> a = zero.
Proof.
  unfold nonzero. destruct a as [x y]; simpl.
  destruct (Req_dec_T x 0); [|discriminate].
  destruct (Req_dec_T y 0); [|discriminate]. intros _. subst. reflexivity.
Qed.

End CxFacts.

(** ** Matrix algebra *)

Module MatFacts.
Import Mat.

Lemma has_shape_rect r c m : has_shape r c m = true <-> rect r c m.
Proof.
  unfold has_shape, rect. rewrite andb_true_iff, Nat.eqb_eq, forallb_forall, Forall_forall.
  split; intros [H1 H2]; split; auto; intros x Hx.
  - apply Nat.eqb_eq. auto.
  - apply Nat.eqb_eq. auto.
Qed.

Lemma rect_nil c : rect 0 c [].
Proof. split; [reflexivity | constructor]. Qed.

Lemma rect_zero_rows c m : rect 0 c m -> m = [].
Proof. intros [H _]. destruct m; [reflexivity | discriminate]. Qed.

Lemma rect_ncols r c m : rect r c m -> (0 < r)%nat -> ncols m = c.
Proof.
  intros [H1 H2] Hr. destruct m as [|row m]; simpl in *; [lia|].
  inversion H2; assumption.
Qed.

Lemma rect_mk r c f : rect r c (mk r c f).
Proof.
  unfold mk; split.
  - rewrite length_map, length_seq. reflexivity.
  - apply Forall_forall. intros row Hrow. apply in_map_iff in Hrow.
    destruct Hrow as [i [<- _]]. rewrite length_map, length_seq. reflexivity.
Qed.

Lemma get_mk r c f i j : (i < r)%nat -> (j < c)%nat -> get (mk r c f) i j = f i j.
Proof.
  intros Hi Hj. unfold get, mk.
  rewrite nth_indep with (d' := map (fun j => f i j) (seq 0 c))
    by (rewrite length_map, length_seq; exact Hi).
  rewrite (map_nth (fun i => map (fun j => f i j) (seq 0 c)) (seq 0 r) i i).
  rewrite seq_nth by exact Hi. simpl.
  rewrite nth_indep with (d' := f i j)
    by (rewrite length_map, length_seq; exact Hj).
  rewrite (map_nth (fun j => f i j) (seq 0 c) j j).
  rewrite seq_nth by exact Hj. reflexivity.
Qed.

Lemma row_ext (l1 l2 : list C) :
  length l1 = length l2 ->
  (forall j, (j < length l1)%nat -> nth j l1 Cx.zero = nth j l2 Cx.zero) -> l1 = l2.
Proof.
  revert l2. induction l1 as [|x l1 IH]; intros [|y l2] Hlen H; try discriminate.
  - reflexivity.
  - f_equal.
    + apply (H 0%nat). simpl; lia.
    + apply IH; [simpl in Hlen; lia|]. intros j Hj. apply (H (S j)). simpl; lia.
Qed.

(** Two matrices of one shape with the same entries are equal. *)
Lemma ext r c (a b : matrix) :
  rect r c a -> rect r c b ->
  (forall i j, (i < r)%nat -> (j < c)%nat -> get a i j = get b i j) -> a = b.
Proof.
  revert r b. induction a as [|ra a IH]; intros r b [Ha1 Ha2] [Hb1 Hb2] H.
  - simpl in Ha1. subst r. destruct b; [reflexivity | discriminate].
  - destruct b as [|rb b]; [simpl in *; congruence|].
    simpl in Ha1. inversion Ha2; subst. inversion Hb2; subst.
    f_equal.
    + apply row_ext; [congruence|]. intros j Hj.
      apply (H 0%nat j); [lia | assumption].
    + apply (IH (length a)).
      * split; [reflexivity | assumption].
      * split; [simpl in Hb1; lia | assumption].
      * intros i j Hi Hj. apply (H (S i) j); [lia | assumption].
Qed.

Lemma mk_get r c m : rect r c m -> mk r c (get m) = m.
Proof.
  intros Hm. apply (@ext r c); [apply rect_mk | assumption |].
  intros i j Hi Hj. apply get_mk; assumption.
Qed.

Lemma mk_ext r c f g :
  (forall i j, (i < r)%nat -> (j < c)%nat -> f i j = g i j) -> mk r c f = mk r c g.
Proof.
  intros H. apply (@ext r c); try apply rect_mk.
  intros i j Hi Hj. rewrite !get_mk by assumption. apply H; assumption.
Qed.

(** [mk] at the shape read off a rectangular matrix. *)
Lemma mk_shape_of r c m f : rect r c m -> mk (nrows m) (ncols m) f = mk r c f.
Proof.
  intros Hm. destruct r as [|r].
  - rewrite (rect_zero_rows Hm). reflexivity.
  - rewrite (rect_ncols Hm) by lia. unfold nrows. destruct Hm as [Hm _]. rewrite Hm. reflexivity.
Qed.

Lemma mk_shape_of_T r c m f : rect r c m -> (0 < r)%nat \/ c = 0%nat ->
  mk (ncols m) (nrows m) f = mk c r f.
Proof.
  intros Hm Hc. destruct r as [|r].
  - rewrite (rect_zero_rows Hm). destruct Hc as [Hc | ->]; [lia | reflexivity].
  - rewrite (rect_ncols Hm) by lia. unfold nrows. destruct Hm as [Hm _]. rewrite Hm. reflexivity.
Qed.


(** *** Entrywise operations *)

Lemma rect_row r c m i : rect r c m -> (i < r)%nat -> length (nth i m []) = c.
Proof.
  intros [H1 H2] Hi. rewrite Forall_forall in H2. apply H2. apply nth_In. lia.
Qed.

Lemma rect_map r c f m : rect r c m -> rect r c (map (map f) m).
Proof.
  intros [H1 H2]. split; [rewrite length_map; assumption|].
  apply Forall_forall. intros row Hrow. apply in_map_iff in Hrow.
  destruct Hrow as [row' [<- Hin]]. rewrite length_map.
  rewrite Forall_forall in H2. auto.
Qed.

Lemma get_map r c f m i j :
  rect r c m -> (i < r)%nat -> (j < c)%nat -> get (map (map f) m) i j = f (get m i j).
Proof.
  intros Hm Hi Hj. unfold get.
  change (@nil C) with (map f []) at 1. rewrite map_nth.
  rewrite nth_indep with (d' := f Cx.zero)
    by (rewrite length_map, (rect_row Hm Hi); exact Hj).
  apply map_nth.
Qed.

Lemma map_id_ext (f : C -> C) m : (forall z, f z = z) -> map (map f) m = m.
Proof.
  intros Hf. induction m as [|row m IH]; simpl; [reflexivity|]. f_equal; [|assumption].
  induction row as [|z row IHr]; simpl; [reflexivity|]. rewrite Hf. f_equal. assumption.
Qed.

Lemma rect_pointwise r c f a b : rect r c a -> rect r c (pointwise f a b).
Proof. intros Ha. unfold pointwise. rewrite (mk_shape_of _ Ha). apply rect_mk. Qed.

Lemma get_pointwise r c f a b i j :
  rect r c a -> (i < r)%nat -> (j < c)%nat ->
  get (pointwise f a b) i j = f (get a i j) (get b i j).
Proof.
  intros Ha Hi Hj. unfold pointwise. rewrite (mk_shape_of _ Ha). apply get_mk; assumption.
Qed.

Lemma same_shape_rect r c a b : rect r c a -> rect r c b -> same_shape a b = true.
Proof.
  intros Ha Hb. unfold same_shape, nrows. destruct r as [|r].
  - rewrite (rect_zero_rows Ha), (rect_zero_rows Hb). reflexivity.
  - rewrite (rect_ncols Ha), (rect_ncols Hb) by lia.
    destruct Ha as [-> _], Hb as [-> _]. rewrite !Nat.eqb_refl. reflexivity.
Qed.

Lemma add_rect r c a b : rect r c a -> rect r c b -> add a b = Ok (pointwise Cx.add a b).
Proof. intros Ha Hb. unfold add. rewrite (same_shape_rect Ha Hb). reflexivity. Qed.

Lemma sub_rect r c a b : rect r c a -> rect r c b -> sub a b = Ok (pointwise Cx.sub a b).
Proof. intros Ha Hb. unfold sub. rewrite (same_shape_rect Ha Hb). reflexivity. Qed.

Lemma rect_zeros r c : rect r c (zeros r c).
Proof. apply rect_mk. Qed.

Lemma pointwise_add_zeros_l r c a : rect r c a -> pointwise Cx.add (zeros r c) a = a.
Proof.
  intros Ha. apply (@ext r c); [apply rect_pointwise, rect_zeros | assumption |].
  intros i j Hi Hj. rewrite (get_pointwise _ _ (rect_zeros r c) Hi Hj).
  unfold zeros. rewrite get_mk by assumption. apply CxFacts.add_zero_l.
Qed.

(** *** Transposition of square matrices *)

Lemma rect_transpose n a : rect n n a -> rect n n (transpose a).
Proof.
  intros Ha. unfold transpose. rewrite (mk_shape_of_T _ Ha); [apply rect_mk|].
  destruct n; [right; reflexivity | left; lia].
Qed.

Lemma get_transpose n a i j :
  rect n n a -> (i < n)%nat -> (j < n)%nat -> get (transpose a) i j = get a j i.
Proof.
  intros Ha Hi Hj. unfold transpose. rewrite (mk_shape_of_T _ Ha).
  - rewrite get_mk by assumption. reflexivity.
  - left; lia.
Qed.

Lemma rect_dagger n a : rect n n a -> rect n n (conj (transpose a)).
Proof. intros Ha. apply rect_map, rect_transpose, Ha. Qed.

Lemma get_dagger n a i j :
  rect n n a -> (i < n)%nat -> (j < n)%nat ->
  get (conj (transpose a)) i j = Cx.conj (get a j i).
Proof.
  intros Ha Hi Hj. unfold conj.
  rewrite (get_map _ (rect_transpose Ha) Hi Hj), (get_transpose Ha Hi Hj). reflexivity.
Qed.

(** [m.conjugate().T] and [m.T.conjugate()] are one matrix. *)
Lemma transpose_conj n a : rect n n a -> transpose (conj a) = conj (transpose a).
Proof.
  intros Ha. apply (@ext n n).
  - apply rect_transpose, rect_map, Ha.
  - apply rect_dagger, Ha.
  - intros i j Hi Hj. rewrite (get_dagger Ha Hi Hj).
    rewrite (@get_transpose n (conj a) i j (rect_map Cx.conj Ha) Hi Hj).
    apply (get_map _ Ha Hj Hi).
Qed.

Lemma dagger_involutive n a : rect n n a -> conj (transpose (conj (transpose a))) = a.
Proof.
  intros Ha. apply (@ext n n); [apply rect_dagger, rect_dagger, Ha | assumption |].
  intros i j Hi Hj. rewrite (get_dagger (rect_dagger Ha) Hi Hj), (get_dagger Ha Hj Hi).
  apply CxFacts.conj_conj.
Qed.

End MatFacts.

(** ** Loops and dictionaries *)

Lemma bind_ok {A B} (r : result A) (k : A -> result B) b :
  bind r k = Ok b -> exists a, r = Ok a /\ k a = Ok b.
Proof. destruct r; simpl; intros H; [eauto | discriminate]. Qed.

(** A loop whose body keeps an invariant and never raises on a state that
    satisfies it runs to the end. *)
Lemma foldM_inv {A S} (P : S -> Prop) (body : S -> A -> result S) l :
  (forall s a, In a l -> P s -> exists s', body s a = Ok s' /\ P s') ->
  forall s, P s -> exists s', foldM body l s = Ok s' /\ P s'.
Proof.
  induction l as [|a l IH]; intros Hbody s Hs; simpl.
  - eauto.
  - destruct (Hbody s a (or_introl eq_refl) Hs) as [s1 [-> Hs1]]. simpl.
    apply IH; [|assumption]. intros s0 a0 Hin. apply Hbody. right; assumption.
Qed.

(** What a finished loop leaves, from what its body keeps. *)
Lemma foldM_post {A S} (P : S -> Prop) (body : S -> A -> result S) l :
  (forall s a s', In a l -> P s -> body s a = Ok s' -> P s') ->
  forall s s', P s -> foldM body l s = Ok s' -> P s'.
Proof.
  induction l as [|a l IH]; intros Hbody s s' Hs; simpl.
  - intros [= <-]. assumption.
  - intros H. apply bind_ok in H. destruct H as [s1 [H1 H2]].
    apply (IH (fun s0 a0 s0' Hin => Hbody s0 a0 s0' (or_intror Hin)) s1 s'); [|assumption].
    apply (Hbody s a s1); [left; reflexivity | assumption | assumption].
Qed.

Lemma fold_left_inv {A S} (P : S -> Prop) (f : S -> A -> S) l :
  (forall s a, In a l -> P s -> P (f s a)) -> forall s, P s -> P (fold_left f l s).
Proof.
  induction l as [|a l IH]; intros Hf s Hs; simpl; [assumption|].
  apply IH; [intros; apply Hf; [right|]; assumption|].
  apply Hf; [left; reflexivity | assumption].
Qed.

Module DictFacts.
Import Dict.

Lemma key_eqb_eq a b : key_eqb a b = true <-> a = b.
Proof.
  destruct a as [[a1 a2] a3], b as [[b1 b2] b3]. unfold key_eqb.
  rewrite !andb_true_iff, !Z.eqb_eq. split.
  - intros [[-> ->] ->]. reflexivity.
  - intros [= -> -> ->]. auto.
Qed.

Lemma key_eqb_refl a : key_eqb a a = true.
Proof. apply key_eqb_eq. reflexivity. Qed.

Lemma key_eqb_neq a b : key_eqb a b = false <-> a <> b.
Proof.
  split.
  - intros H E. apply key_eqb_eq in E. congruence.
  - intros H. destruct (key_eqb a b) eqn:E; [|reflexivity].
    apply key_eqb_eq in E. contradiction.
Qed.

Lemma key_eqb_sym a b : key_eqb a b = key_eqb b a.
Proof.
  destruct (key_eqb a b) eqn:E.
  - apply key_eqb_eq in E. subst. symmetry. apply key_eqb_refl.
  - symmetry. apply key_eqb_neq. apply key_eqb_neq in E. congruence.
Qed.

Lemma key_dec (a b : LatticeVector) : {a = b} + {a <> b}.
Proof.
  destruct (key_eqb a b) eqn:E.
  - left. apply key_eqb_eq. assumption.
  - right. apply key_eqb_neq. assumption.
Qed.

Section WithValue.
Context {V : Type}.
Implicit Types (d : dict V) (k : LatticeVector) (v : V).

Lemma get_in_keys d k : get d k <> None <-> In k (keys d).
Proof.
  induction d as [|[k' v'] d IH]; simpl.
  - split; [congruence | tauto].
  - destruct (key_eqb k k') eqn:E.
    + apply key_eqb_eq in E. subst. split; [auto | congruence].
    + apply key_eqb_neq in E. rewrite IH. split; [auto|].
      intros [H|H]; [congruence | assumption].
Qed.

Lemma get_none d k : get d k = None <-> ~ In k (keys d).
Proof.
  rewrite <- get_in_keys. destruct (get d k); split; try congruence; tauto.
Qed.

Lemma get_some_in d k v : get d k = Some v -> In (k, v) d.
Proof.
  induction d as [|[k' v'] d IH]; simpl; [discriminate|].
  destruct (key_eqb k k') eqn:E.
  - apply key_eqb_eq in E. subst. intros [= ->]. left; reflexivity.
  - intros H. right. auto.
Qed.

Lemma in_get d k v : wf d -> In (k, v) d -> get d k = Some v.
Proof.
  unfold wf. induction d as [|[k' v'] d IH]; simpl; [tauto|].
  intros Hnd [H|H].
  - inversion H; subst. rewrite key_eqb_refl. reflexivity.
  - inversion Hnd; subst. destruct (key_eqb k k') eqn:E.
    + apply key_eqb_eq in E. subst. exfalso. apply H2.
      change k' with (fst (k', v)). apply in_map. assumption.
    + auto.
Qed.

Lemma get_set_same d k v : get (set d k v) k = Some v.
Proof.
  induction d as [|[k' v'] d IH]; simpl.
  - rewrite key_eqb_refl. reflexivity.
  - destruct (key_eqb k k') eqn:E; simpl; rewrite E; [reflexivity | assumption].
Qed.

Lemma get_set_other d k k' v : k' <> k -> get (set d k v) k' = get d k'.
Proof.
  intros Hne. induction d as [|[k0 v0] d IH]; simpl.
  - apply key_eqb_neq in Hne. rewrite Hne. reflexivity.
  - destruct (key_eqb k k0) eqn:E; simpl.
    + apply key_eqb_eq in E. subst k0. apply key_eqb_neq in Hne. rewrite Hne. reflexivity.
    + rewrite IH. reflexivity.
Qed.

Lemma keys_set d k v :
  keys (set d k v) = if existsb (key_eqb k) (keys d) then keys d else keys d ++ [k].
Proof.
  induction d as [|[k' v'] d IH]; simpl; [reflexivity|].
  destruct (key_eqb k k') eqn:E; simpl; [reflexivity|].
  unfold keys in *. rewrite IH. destruct (existsb _ _); reflexivity.
Qed.

Lemma in_keys_set d k v k' : In k' (keys (set d k v)) <-> k' = k \/ In k' (keys d).
Proof.
  rewrite keys_set. destruct (existsb (key_eqb k) (keys d)) eqn:E.
  - split; [auto|]. intros [->|H]; [|assumption].
    apply existsb_exists in E. destruct E as [x [Hx Hk]].
    apply key_eqb_eq in Hk. subst. assumption.
  - rewrite in_app_iff. simpl. split; intros H; intuition.
Qed.

Lemma wf_set d k v : wf d -> wf (set d k v).
Proof.
  unfold wf. rewrite keys_set. destruct (existsb (key_eqb k) (keys d)) eqn:E; [auto|].
  intros H. apply NoDup_app; [assumption | repeat constructor; simpl; tauto |].
  intros x Hx [Hk|[]]. subst x.
  assert (existsb (key_eqb k) (keys d) = true); [|congruence].
  apply existsb_exists. exists k. split; [assumption | apply key_eqb_refl].
Qed.

Lemma in_set d k v k' v' : In (k', v') (set d k v) -> (k' = k /\ v' = v) \/ In (k', v') d.
Proof.
  induction d as [|[k0 v0] d IH]; simpl.
  - intros [[= <- <-]|[]]. auto.
  - destruct (key_eqb k k0) eqn:E; simpl.
    + apply key_eqb_eq in E. subst. intros [[= <- <-]|H]; auto.
    + intros [H|H]; [auto|]. apply IH in H. tauto.
Qed.

Lemma values_set d k v (P : V -> Prop) :
  Forall P (values d) -> P v -> Forall P (values (set d k v)).
Proof.
  unfold values. rewrite !Forall_forall. intros Hd Hv x Hx.
  apply in_map_iff in Hx. destruct Hx as [[k' v'] [<- Hin]]. simpl.
  apply in_set in Hin. destruct Hin as [[_ ->]|Hin]; [assumption|].
  apply Hd. change v' with (snd (k', v')). apply in_map. assumption.
Qed.

(** Setting the keys of a dictionary in their order, from the empty
    dictionary, rebuilds it. *)
Lemma set_append d k v : ~ In k (keys d) -> set d k v = d ++ [(k, v)].
Proof.
  induction d as [|[k' v'] d IH]; simpl; [reflexivity|].
  intros H. destruct (key_eqb k k') eqn:E.
  - apply key_eqb_eq in E. subst. tauto.
  - rewrite IH by tauto. reflexivity.
Qed.

End WithValue.
End DictFacts.

(** ** Lattice vectors *)

Lemma first_nonzero_positive_spec G :
  first_nonzero_positive G = true <-> leading_positive G.
Proof.
  destruct G as [[a b] c]. unfold first_nonzero_positive, leading_positive.
  destruct (Z.eqb_spec a 0); [destruct (Z.eqb_spec b 0)|]; rewrite Z.ltb_lt; lia.
Qed.

Lemma neg_G_involutive G : neg_G (neg_G G) = G.
Proof. destruct G as [[a b] c]. unfold neg_G. f_equal; [f_equal|]; lia. Qed.

Lemma neg_G_origin G : neg_G G = G <-> G = origin.
Proof.
  destruct G as [[a b] c]. unfold neg_G, origin. split.
  - intros [= Ha Hb Hc]. f_equal; [f_equal|]; lia.
  - intros [= -> -> ->]. reflexivity.
Qed.

Lemma leading_positive_neg G : leading_positive G -> ~ leading_positive (neg_G G).
Proof. destruct G as [[a b] c]. unfold leading_positive, neg_G. lia. Qed.

Lemma not_leading_positive_neg G :
  G <> origin -> ~ leading_positive G -> leading_positive (neg_G G).
Proof.
  destruct G as [[a b] c]. unfold leading_positive, neg_G, origin. intros H1 H2.
  assert (H : a <> 0%Z \/ b <> 0%Z \/ c <> 0%Z).
  { destruct (Z.eq_dec a 0), (Z.eq_dec b 0), (Z.eq_dec c 0); subst; try tauto. }
  lia.
Qed.

(** ** Canonical storage of every constructed model (C8) *)

Lemma keys_canonical_storage h : keys_canonical h -> canonical_storage h.
Proof.
  intros Hk. split.
  - intros G HG Hne. destruct (Hk G HG); [contradiction | assumption].
  - intros G G' HG HG' Hne ->.
    destruct (Hk G HG) as [->|HP].
    + apply Hne. reflexivity.
    + destruct (Hk _ HG') as [H0|HP'].
      * apply Hne. rewrite <- (neg_G_involutive G), H0. reflexivity.
      * apply (@leading_positive_neg G); assumption.
Qed.

Lemma keys_canonical_set h G m :
  keys_canonical h -> G = origin \/ leading_positive G -> keys_canonical (Dict.set h G m).
Proof.
  intros Hh HG G' HG'. apply DictFacts.in_keys_set in HG'.
  destruct HG' as [->|HG']; [assumption | apply Hh; assumption].
Qed.

Lemma keys_canonical_nil : keys_canonical [].
Proof. intros G []. Qed.

Lemma reduce_step_canonical res Gh :
  keys_canonical res -> keys_canonical (reduce_step res Gh).
Proof.
  intros H. destruct Gh as [G hop]. unfold reduce_step.
  destruct (Dict.key_eqb G origin) eqn:E0.
  - apply keys_canonical_set; [assumption|]. left. apply DictFacts.key_eqb_eq. assumption.
  - destruct (first_nonzero_positive G) eqn:E1; [|assumption].
    apply keys_canonical_set; [assumption|]. right.
    apply first_nonzero_positive_spec. assumption.
Qed.

Lemma reduce_hoppings_canonical hop tol res :
  _reduce_hoppings hop tol = Ok res -> keys_canonical res.
Proof.
  unfold _reduce_hoppings. intros H. apply bind_ok in H. destruct H as [_ [_ [= <-]]].
  apply fold_left_inv; [|apply keys_canonical_nil].
  intros s a _. apply reduce_step_canonical.
Qed.

Lemma fold_step_canonical n nh Gh nh' :
  keys_canonical nh -> fold_step n nh Gh = Ok nh' -> keys_canonical nh'.
Proof.
  intros H. destruct Gh as [G hop]. unfold fold_step.
  destruct (Dict.key_eqb G origin) eqn:E0.
  - intros [= <-]. apply keys_canonical_set; [assumption|].
    left. apply DictFacts.key_eqb_eq. assumption.
  - destruct (first_nonzero_positive G) eqn:E1; intros Hb;
      apply bind_ok in Hb; destruct Hb as [m [_ [= <-]]];
      (apply keys_canonical_set; [assumption|]); right.
    + apply first_nonzero_positive_spec. assumption.
    + apply not_leading_positive_neg.
      * apply DictFacts.key_eqb_neq. assumption.
      * rewrite <- first_nonzero_positive_spec. congruence.
Qed.

Lemma map_hoppings_positive_G_canonical n hop res :
  _map_hoppings_positive_G n hop = Ok res -> keys_canonical res.
Proof.
  unfold _map_hoppings_positive_G.
  apply (foldM_post keys_canonical); [|apply keys_canonical_nil].
  intros s a s' _. apply fold_step_canonical.
Qed.

(** What a successful construction went through. *)
Lemma Model_init_ok hop sz oc ps u cc tol m :
  Model_init hop sz oc ps u cc tol = Ok m ->
  exists hop1,
    init_size hop sz = Ok (size m) /\
    init_positions (size m) ps hop = Ok (pos m, hop1) /\
    (if cc then _reduce_hoppings hop1 tol
     else _map_hoppings_positive_G (size m) hop1) = Ok (hoppings m) /\
    foldM (check_shape (size m)) (hoppings m) tt = Ok tt /\
    occ m = oc /\ uc m = u.
Proof.
  unfold Model_init. intros H.
  apply bind_ok in H. destruct H as [n [Hn H]].
  apply bind_ok in H. destruct H as [[p1 hop1] [Hp H]].
  apply bind_ok in H. destruct H as [hop2 [H2 H]].
  apply bind_ok in H. destruct H as [[] [Hc [= <-]]]. simpl.
  exists hop1. repeat split; assumption.
Qed.

Lemma Model_init_canonical hop sz oc ps u cc tol m :
  Model_init hop sz oc ps u cc tol = Ok m -> canonical_storage (hoppings m).
Proof.
  intros H. apply Model_init_ok in H. destruct H as [hop1 [_ [_ [H _]]]].
  apply keys_canonical_storage. destruct cc.
  - eapply reduce_hoppings_canonical; eassumption.
  - eapply map_hoppings_positive_G_canonical; eassumption.
Qed.

(** Every derived-model operation that returns a model got it from the
    constructor, called with [contains_cc=False]. *)
Lemma derived_from_init self self' m :
  derived self self' (Ok m) ->
  exists hop oc ps u, Model_init hop None oc ps u false default_cc_tolerance = Ok m.
Proof.
  assert (Hadd : forall a b, add_outcome a b = Ok m ->
    exists hop oc ps u, Model_init hop None oc ps u false default_cc_tolerance = Ok m).
  { intros a b. unfold add_outcome.
    repeat match goal with |- context [if ?c then _ else _] => destruct c end;
      try discriminate.
    intros H. apply bind_ok in H. destruct H as [nh [_ H]]. eauto. }
  assert (Hmul : forall a x, snd (mul a x) = Ok m ->
    exists hop oc ps u, Model_init hop None oc ps u false default_cc_tolerance = Ok m).
  { intros a x. unfold mul. simpl. eauto. }
  intros H. inversion H as
    [model E1 E2|model E1 E2|model E1 E2|E1 E2|x E1 E2|x E1 E2|x E1 E2|x E1 E2
    |dim per pas E1 E2|E1 E2|uc_ ip E1 E2|ps pv ms mv sp vp E1 E2]; clear H;
    rewrite E2.
  - destruct model as [mm|]; [exact (Hadd _ _ E2) | discriminate].
  - destruct model as [mm|]; [exact (Hadd _ _ E2) | discriminate].
  - unfold sub in E2. destruct (neg model) as [model' [m'|e]];
      [exact (Hadd _ _ E2) | discriminate].
  - apply (Hmul self (-1)%R). assumption.
  - eauto.
  - eauto.
  - unfold div in E2. destruct (Req_dec_T x 0); simpl in E2; [discriminate | eauto].
  - unfold truediv, div in E2. destruct (Req_dec_T x 0); simpl in E2; [discriminate | eauto].
  - unfold supercell, supercell_outcome in E2. simpl in E2.
    destruct dim as [[nx ny] nz].
    apply bind_ok in E2. destruct E2 as [nh [_ E2]].
    apply bind_ok in E2. destruct E2 as [nh' [_ E2]]. eauto.
  - unfold trs in E2. simpl in E2.
    apply bind_ok in E2. destruct E2 as [nh [_ E2]]. eauto.
  - unfold change_uc in E2. simpl in E2.
    destruct (Req_dec_T (det3 uc_) 1); [eauto | discriminate].
  - unfold em_field in E2.
    destruct (match sp with Some f => _ | None => _ end) as [nh|e]; [|discriminate].
    destruct (match vp with Some A => _ | None => _ end) as [s' [[]|e]];
      simpl in E2; [eauto | discriminate].
Qed.

(** C8.  Every model that the constructor returns, and hence every model
    that a derived-model operation returns, obeys the canonical-storage
    rule: a stored key other than (0,0,0) has a positive first non-zero
    coordinate, and no two stored keys are negations of each other. *)
Theorem canonical_storage_invariant :
  (forall hop sz oc ps u cc tol m,
      Model_init hop sz oc ps u cc tol = Ok m -> canonical_storage (hoppings m)) /\
  (forall self self' m, derived self self' (Ok m) -> canonical_storage (hoppings m)).
Proof.
  split.
  - apply Model_init_canonical.
  - intros self self' m H. apply derived_from_init in H.
    destruct H as [hop [oc [ps [u H]]]]. eapply Model_init_canonical. eassumption.
Qed.

Lemma canonical_storage_invariant_witness :
  exists m,
    Model_init Examples.backward_hop None None None None false default_cc_tolerance = Ok m /\
    canonical_storage (hoppings m).
Proof.
  eexists. split; [reflexivity|].
  exact (proj1 canonical_storage_invariant Examples.backward_hop None None None None
               false default_cc_tolerance _ eq_refl).
Defined.

(** ** The Hermiticity check of [_reduce_hoppings] (C5, C10) *)

Lemma hermitian_gap_fun hop G h d d' :
  hermitian_gap hop G h d -> hermitian_gap hop G h d' -> d = d'.
Proof. intros [p [H1 H2]] [p' [H1' H2']]. congruence. Qed.

Lemma check_cc_gap hop tol G h d :
  hermitian_gap hop G h d ->
  check_cc hop tol tt (G, h) =
  if Rgt_dec (Mat.norm d) tol then Err (ValueError NotHermitian) else Ok tt.
Proof.
  intros [p [H1 H2]]. unfold check_cc, Dict.lookup. simpl. rewrite H1. simpl.
  rewrite H2. reflexivity.
Qed.

Lemma check_cc_within hop tol G h : within hop tol G h -> check_cc hop tol tt (G, h) = Ok tt.
Proof.
  intros [d [Hd Hn]]. rewrite (check_cc_gap tol Hd).
  destruct (Rgt_dec (Mat.norm d) tol); [contradiction | reflexivity].
Qed.

Lemma check_cc_violates hop tol G h :
  violates hop tol G h -> check_cc hop tol tt (G, h) = Err (ValueError NotHermitian).
Proof.
  intros [d [Hd Hn]]. rewrite (check_cc_gap tol Hd).
  destruct (Rgt_dec (Mat.norm d) tol); [reflexivity | contradiction].
Qed.

Lemma check_cc_partnerless hop tol G h :
  ~ In (neg_G G) (Dict.keys hop) -> check_cc hop tol tt (G, h) = Err (KeyError (neg_G G)).
Proof.
  intros H. apply DictFacts.get_none in H. unfold check_cc, Dict.lookup. simpl.
  rewrite H. reflexivity.
Qed.

Lemma check_loop_within hop tol items :
  (forall G h, In (G, h) items -> within hop tol G h) ->
  foldM (check_cc hop tol) items tt = Ok tt.
Proof.
  induction items as [|[G h] items IH]; intros H; simpl; [reflexivity|].
  rewrite check_cc_within by (apply H; left; reflexivity). simpl.
  apply IH. intros G' h' Hin. apply H. right; assumption.
Qed.

Lemma check_loop_violates hop tol items :
  (forall G h, In (G, h) items -> exists d, hermitian_gap hop G h d) ->
  (exists G h, In (G, h) items /\ violates hop tol G h) ->
  foldM (check_cc hop tol) items tt = Err (ValueError NotHermitian).
Proof.
  induction items as [|[G h] items IH]; intros Hc [G0 [h0 [Hin Hv]]]; [destruct Hin|].
  simpl. destruct (Hc G h (or_introl eq_refl)) as [d Hd].
  rewrite (check_cc_gap tol Hd).
  destruct (Rgt_dec (Mat.norm d) tol) as [Hgt|Hle]; [reflexivity|]. simpl.
  apply IH.
  - intros G' h' H'. apply Hc. right; assumption.
  - exists G0, h0. split; [|assumption].
    destruct Hin as [[= -> ->]|Hin]; [|assumption].
    destruct Hv as [d' [Hd' Hgt]]. rewrite (hermitian_gap_fun Hd Hd') in Hle. contradiction.
Qed.

Lemma check_loop_partnerless_fails hop tol items :
  (exists G h, In (G, h) items /\ ~ In (neg_G G) (Dict.keys hop)) ->
  exists e, foldM (check_cc hop tol) items tt = Err e.
Proof.
  induction items as [|[G h] items IH]; intros [G0 [h0 [Hin Hno]]]; [destruct Hin|].
  simpl. destruct (check_cc hop tol tt (G, h)) as [[]|e] eqn:E; [|simpl; eauto].
  simpl. apply IH. exists G0, h0. split; [|assumption].
  destruct Hin as [[= -> ->]|Hin]; [|assumption].
  rewrite check_cc_partnerless in E by assumption. discriminate.
Qed.

Lemma check_loop_partnerless_keyerror hop tol items :
  (forall G h, In (G, h) items -> In (neg_G G) (Dict.keys hop) -> within hop tol G h) ->
  (exists G h, In (G, h) items /\ ~ In (neg_G G) (Dict.keys hop)) ->
  exists G h, In (G, h) items /\ ~ In (neg_G G) (Dict.keys hop) /\
              foldM (check_cc hop tol) items tt = Err (KeyError (neg_G G)).
Proof.
  induction items as [|[G h] items IH]; intros Hw [G0 [h0 [Hin Hno]]]; [destruct Hin|].
  simpl. destruct (in_dec DictFacts.key_dec (neg_G G) (Dict.keys hop)) as [Hyes|Hnot].
  - rewrite check_cc_within by (apply Hw; [left; reflexivity | assumption]). simpl.
    destruct IH as [G1 [h1 [H1 [H2 H3]]]].
    + intros G' h' H'. apply Hw. right; assumption.
    + exists G0, h0. split; [|assumption].
      destruct Hin as [[= -> ->]|Hin]; [contradiction | assumption].
    + exists G1, h1. repeat split; [right|..]; assumption.
  - exists G, h. rewrite check_cc_partnerless by assumption.
    repeat split; [left; reflexivity | assumption].
Qed.

Lemma Model_init_unfold hop sz oc ps u cc tol n pos_ hop1 :
  init_size hop sz = Ok n -> init_positions n ps hop = Ok (pos_, hop1) ->
  Model_init hop sz oc ps u cc tol =
  (hoppings2 <- (if cc then _reduce_hoppings hop1 tol
                 else _map_hoppings_positive_G n hop1) ;;
   _ <- foldM (check_shape n) hoppings2 tt ;;
   Ok (mkModel n oc pos_ u hoppings2)).
Proof. intros H1 H2. unfold Model_init. rewrite H1. simpl. rewrite H2. reflexivity. Qed.

Lemma norm_m1 z : Mat.norm (Examples.m1 z) = sqrt (Cx.abs2 z).
Proof. unfold Mat.norm, Examples.m1, Mat.sum_abs2. simpl. rewrite Rplus_0_r. reflexivity. Qed.

Lemma sub_m1 a b : Mat.sub (Examples.m1 a) (Mat.conj (Mat.transpose (Examples.m1 b)))
                   = Ok (Examples.m1 (Cx.sub a (Cx.conj b))).
Proof. reflexivity. Qed.

(** The gap between [[1]] and the conjugate transpose of [[0]] has norm 1. *)
Lemma violates_one_zero hop G tol :
  Dict.get hop (neg_G G) = Some (Examples.m1 Cx.zero) -> (tol < 1)%R ->
  violates hop tol G (Examples.m1 Cx.one).
Proof.
  intros Hget Htol. exists (Examples.m1 (Cx.sub Cx.one (Cx.conj Cx.zero))). split.
  - exists (Examples.m1 Cx.zero). split; [assumption | apply sub_m1].
  - rewrite norm_m1.
    replace (Cx.abs2 (Cx.sub Cx.one (Cx.conj Cx.zero))) with 1%R
      by (unfold Cx.abs2, Cx.sub, Cx.conj, Cx.one, Cx.zero; simpl; ring).
    rewrite sqrt_1. lra.
Qed.

Lemma default_cc_tolerance_small : (0 <= default_cc_tolerance < 1)%R.
Proof. unfold default_cc_tolerance. lra. Qed.

Lemma within_m1 hop G a b tol :
  Dict.get hop (neg_G G) = Some (Examples.m1 b) -> a = Cx.conj b -> (0 <= tol)%R ->
  within hop tol G (Examples.m1 a).
Proof.
  intros Hget -> Htol. exists (Examples.m1 (Cx.sub (Cx.conj b) (Cx.conj b))). split.
  - exists (Examples.m1 b). split; [assumption | apply sub_m1].
  - rewrite norm_m1, CxFacts.sub_diag, CxFacts.abs2_zero, sqrt_0. lra.
Qed.

Lemma reduce_first_violates G h rest tol :
  violates ((G, h) :: rest) tol G h ->
  _reduce_hoppings ((G, h) :: rest) tol = Err (ValueError NotHermitian).
Proof.
  intros Hv. unfold _reduce_hoppings.
  change (foldM (check_cc ((G, h) :: rest) tol) ((G, h) :: rest) tt)
    with (bind (check_cc ((G, h) :: rest) tol tt (G, h))
               (fun s' => foldM (check_cc ((G, h) :: rest) tol) rest s')).
  rewrite check_cc_violates by assumption. reflexivity.
Qed.

Lemma in_keys_exists {V} (d : dict V) G : In G (Dict.keys d) <-> exists h, In (G, h) d.
Proof.
  unfold Dict.keys. rewrite in_map_iff. split.
  - intros [[G' h] [<- H]]. eauto.
  - intros [h H]. exists (G, h). auto.
Qed.

(** C5, as stated, fails when a key without its partner is met before the
    pair that is not Hermitian: the constructor raises [KeyError]. *)
Lemma hermiticity_error_preempted :
  (exists G h, In (G, h) Examples.partnerless_first /\
               violates Examples.partnerless_first default_cc_tolerance G h) /\
  Model_init Examples.partnerless_first None None None None true default_cc_tolerance
  = Err (KeyError (-1, 0, 0)%Z) /\
  Model_init Examples.partnerless_first None None None None true default_cc_tolerance
  <> Err (ValueError NotHermitian).
Proof.
  assert (E : Model_init Examples.partnerless_first None None None None true
                default_cc_tolerance = Err (KeyError (-1, 0, 0)%Z)) by reflexivity.
  split; [|split; [exact E | rewrite E; discriminate]].
  exists (2, 0, 0)%Z, (Examples.m1 Cx.one). split.
  - right; left; reflexivity.
  - apply violates_one_zero; [reflexivity | apply default_cc_tolerance_small].
Qed.

(** C5, amended.  When every key of the table that reaches the reduction
    has its partner stored with a matrix of the transposed shape, a
    construction with [contains_cc=True] in which some stored key violates
    [H(G) == H(-G)^dagger] beyond [cc_tolerance] raises the Hermiticity
    error and returns no model; and the check passes whenever every pair
    satisfies the bound. *)
Theorem hermiticity_check hop sz oc ps u tol n pos_ hop1 :
  init_size hop sz = Ok n ->
  init_positions n ps hop = Ok (pos_, hop1) ->
  comparable hop1 ->
  ((exists G h, In (G, h) hop1 /\ violates hop1 tol G h) ->
   Model_init hop sz oc ps u true tol = Err (ValueError NotHermitian)) /\
  ((forall G h, In (G, h) hop1 -> within hop1 tol G h) ->
   _reduce_hoppings hop1 tol = Ok (fold_left reduce_step hop1 [])).
Proof.
  intros Hsz Hpos Hc. split.
  - intros Hv. rewrite (@Model_init_unfold hop sz oc ps u true tol n pos_ hop1 Hsz Hpos).
    unfold _reduce_hoppings. rewrite check_loop_violates; [reflexivity | exact Hc | exact Hv].
  - intros Hw. unfold _reduce_hoppings. rewrite check_loop_within by exact Hw. reflexivity.
Qed.

Lemma hermiticity_check_witness :
  Model_init Examples.non_hermitian_pair None None None None true default_cc_tolerance
  = Err (ValueError NotHermitian).
Proof.
  refine (proj1 (@hermiticity_check Examples.non_hermitian_pair None None None None
                   default_cc_tolerance 1%nat (repeat (0, 0, 0)%R 1)
                   Examples.non_hermitian_pair eq_refl eq_refl _) _).
  - intros G h [[= <- <-]|[[= <- <-]|[]]].
    + eexists. exists (Examples.m1 Cx.zero). split; [reflexivity | apply sub_m1].
    + eexists. exists (Examples.m1 Cx.one). split; [reflexivity | apply sub_m1].
  - exists (2, 0, 0)%Z, (Examples.m1 Cx.one). split; [left; reflexivity|].
    apply violates_one_zero; [reflexivity | apply default_cc_tolerance_small].
Defined.

(** C10, as stated, fails when a pair that is not Hermitian is met before
    the key without its partner: the constructor raises the Hermiticity
    error, not [KeyError]. *)
Lemma key_error_preempted :
  In (1, 0, 0)%Z (Dict.keys Examples.partnerless_last) /\
  ~ In (neg_G (1, 0, 0)%Z) (Dict.keys Examples.partnerless_last) /\
  Model_init Examples.partnerless_last None None None None true default_cc_tolerance
  = Err (ValueError NotHermitian).
Proof.
  split; [simpl; tauto|]. split.
  - simpl. intros [H|[H|[H|[]]]]; discriminate.
  - rewrite (@Model_init_unfold Examples.partnerless_last None None None None true
               default_cc_tolerance 1%nat (repeat (0, 0, 0)%R 1)
               Examples.partnerless_last eq_refl eq_refl).
    unfold Examples.partnerless_last. rewrite reduce_first_violates; [reflexivity|].
    apply violates_one_zero; [reflexivity | apply default_cc_tolerance_small].
Qed.

(** C10, amended.  A construction with [contains_cc=True] whose table, as
    it reaches the reduction, holds some key [G] but not [-G] returns no
    model; it raises [KeyError] for the first such key whenever every key
    that does have its partner satisfies the bound.  So a successful
    construction needs a key set closed under negation. *)
Theorem partnerless_key_fails hop sz oc ps u tol n pos_ hop1 :
  init_size hop sz = Ok n ->
  init_positions n ps hop = Ok (pos_, hop1) ->
  (exists G, In G (Dict.keys hop1) /\ ~ In (neg_G G) (Dict.keys hop1)) ->
  (exists e, Model_init hop sz oc ps u true tol = Err e) /\
  ((forall G h, In (G, h) hop1 -> In (neg_G G) (Dict.keys hop1) -> within hop1 tol G h) ->
   exists G, In G (Dict.keys hop1) /\ ~ In (neg_G G) (Dict.keys hop1) /\
             Model_init hop sz oc ps u true tol = Err (KeyError (neg_G G))).
Proof.
  intros Hsz Hpos [G [HG Hno]]. apply in_keys_exists in HG. destruct HG as [h HG].
  rewrite (@Model_init_unfold hop sz oc ps u true tol n pos_ hop1 Hsz Hpos). unfold _reduce_hoppings. split.
  - destruct (@check_loop_partnerless_fails hop1 tol hop1) as [e He]; [eauto|].
    rewrite He. simpl. eauto.
  - intros Hw. destruct (@check_loop_partnerless_keyerror hop1 tol hop1 Hw) as
      [G1 [h1 [H1 [H2 H3]]]]; [eauto|].
    exists G1. rewrite H3. repeat split; [|assumption].
    apply in_keys_exists. eauto.
Qed.

Lemma partnerless_key_fails_witness :
  exists G, In G (Dict.keys Examples.chain_with_stray_key) /\
            ~ In (neg_G G) (Dict.keys Examples.chain_with_stray_key) /\
            Model_init Examples.chain_with_stray_key None None None None true
                       default_cc_tolerance = Err (KeyError (neg_G G)).
Proof.
  refine (proj2 (@partnerless_key_fails Examples.chain_with_stray_key None None None None
                   default_cc_tolerance 1%nat (repeat (0, 0, 0)%R 1)
                   Examples.chain_with_stray_key eq_refl eq_refl _) _).
  - exists (0, 1, 0)%Z. split; [simpl; tauto|].
    simpl. intros [H|[H|[H|[H|[]]]]]; discriminate.
  - pose proof default_cc_tolerance_small as [Ht _].
    intros G h [[= <- <-]|[[= <- <-]|[[= <- <-]|[[= <- <-]|[]]]]] Hin.
    + apply within_m1 with (b := Cx.one); [reflexivity | | assumption].
      apply CxFacts.eq_intro; simpl; ring.
    + apply within_m1 with (b := (0, -1)%R); [reflexivity | | assumption].
      apply CxFacts.eq_intro; simpl; ring.
    + apply within_m1 with (b := (0, 1)%R); [reflexivity | | assumption].
      apply CxFacts.eq_intro; simpl; ring.
    + exfalso. simpl in Hin. destruct Hin as [H|[H|[H|[H|[]]]]]; discriminate.
Defined.

(** ** The Hamiltonian (C4) *)

Lemma rect_cscale r c m z : Mat.rect r c m -> Mat.rect r c (Mat.cscale m z).
Proof. apply MatFacts.rect_map. Qed.

(** The loop of [sum], once it holds an array. *)
Lemma sum_from_array n terms acc :
  Mat.rect n n acc -> Forall (Mat.rect n n) terms ->
  foldM sum_step terms (SumArr acc)
  = Ok (SumArr (fold_left (Mat.pointwise Cx.add) terms acc)) /\
  Mat.rect n n (fold_left (Mat.pointwise Cx.add) terms acc).
Proof.
  intros Hacc Hterms. revert acc Hacc.
  induction Hterms as [|t terms Ht Hterms IH]; intros acc Hacc; simpl.
  - split; [reflexivity | assumption].
  - rewrite (MatFacts.add_rect Hacc Ht). simpl. apply IH.
    apply MatFacts.rect_pointwise. assumption.
Qed.

Lemma sum_from_zero n t terms :
  Mat.rect n n t -> Forall (Mat.rect n n) terms ->
  foldM sum_step (t :: terms) SumInt0
  = Ok (SumArr (fold_left (Mat.pointwise Cx.add) (t :: terms) (Mat.zeros n n))) /\
  Mat.rect n n (fold_left (Mat.pointwise Cx.add) (t :: terms) (Mat.zeros n n)).
Proof.
  intros Ht Hterms. simpl.
  rewrite (MatFacts.map_id_ext _ t CxFacts.add_zero_l).
  rewrite (MatFacts.pointwise_add_zeros_l Ht).
  apply sum_from_array; assumption.
Qed.

Lemma bloch_sum_terms m k :
  bloch_sum m k = fold_left (Mat.pointwise Cx.add) (hamilton_terms m k)
                            (Mat.zeros (size m) (size m)).
Proof.
  unfold bloch_sum, hamilton_terms.
  generalize (Mat.zeros (size m) (size m)). induction (hoppings m) as [|Gh l IH]; intros acc.
  - reflexivity.
  - simpl. apply IH.
Qed.

Lemma hamilton_terms_rect m k :
  valid m -> Forall (Mat.rect (size m) (size m)) (hamilton_terms m k).
Proof.
  intros Hv. pose proof (valid_shapes Hv) as Hs. unfold hamilton_terms, Dict.values in *.
  rewrite Forall_map in *. eapply Forall_impl; [|exact Hs].
  intros Gh H. apply rect_cscale. assumption.
Qed.

(** [S + S^dagger] is Hermitian. *)
Lemma plus_dagger_hermitian n S :
  Mat.rect n n S -> hermitian (Mat.pointwise Cx.add S (dagger S)).
Proof.
  intros HS. unfold hermitian, dagger.
  assert (HH : Mat.rect n n (Mat.pointwise Cx.add S (Mat.conj (Mat.transpose S))))
    by (apply MatFacts.rect_pointwise; assumption).
  apply (@MatFacts.ext n n); [apply MatFacts.rect_dagger; assumption | assumption |].
  intros i j Hi Hj.
  rewrite (MatFacts.get_dagger HH Hi Hj).
  rewrite (MatFacts.get_pointwise _ _ HS Hj Hi), (MatFacts.get_pointwise _ _ HS Hi Hj).
  rewrite (MatFacts.get_dagger HS Hj Hi), (MatFacts.get_dagger HS Hi Hj).
  rewrite CxFacts.conj_add, CxFacts.conj_conj. apply CxFacts.add_comm.
Qed.

(** On a valid model with at least one stored key, [hamilton] returns the
    sum over the stored keys plus its conjugate transpose, a Hermitian
    matrix of shape [(size, size)]. *)
Lemma hamilton_formula m k :
  valid m -> hoppings m <> [] ->
  hamilton m k = Ok (Mat.pointwise Cx.add (bloch_sum m k) (dagger (bloch_sum m k))) /\
  Mat.rect (size m) (size m) (Mat.pointwise Cx.add (bloch_sum m k) (dagger (bloch_sum m k))) /\
  hermitian (Mat.pointwise Cx.add (bloch_sum m k) (dagger (bloch_sum m k))).
Proof.
  intros Hv Hne. pose proof (hamilton_terms_rect k Hv) as Hterms.
  unfold hamilton. rewrite bloch_sum_terms.
  destruct (hamilton_terms m k) as [|t terms] eqn:E.
  - exfalso. apply Hne. unfold hamilton_terms in E.
    destruct (hoppings m); [reflexivity | discriminate].
  - inversion Hterms as [|? ? Ht Hrest]; subst.
    destruct (sum_from_zero Ht Hrest) as [Hsum HS]. rewrite Hsum. cbn [bind].
    set (S := fold_left (Mat.pointwise Cx.add) (t :: terms) (Mat.zeros (size m) (size m))) in *.
    unfold dagger. rewrite (MatFacts.transpose_conj HS).
    rewrite (MatFacts.add_rect HS (MatFacts.rect_dagger HS)).
    split; [reflexivity|]. split.
    + apply MatFacts.rect_pointwise. assumption.
    + apply (plus_dagger_hermitian HS).
Qed.

Lemma Zfloor_0 : Zfloor 0 = 0%Z.
Proof. apply Zfloor_eq. simpl. lra. Qed.

Lemma origin_in_home_cell : in_home_cell (0, 0, 0)%R.
Proof. unfold in_home_cell, floor3. rewrite Zfloor_0. reflexivity. Qed.

Lemma empty_model_valid : valid Examples.empty_model.
Proof.
  constructor; simpl.
  - constructor.
  - apply keys_canonical_nil.
  - constructor.
  - reflexivity.
  - repeat constructor. apply origin_in_home_cell.
Qed.

Lemma rect_m1 z : Mat.rect 1 1 (Examples.m1 z).
Proof. split; [reflexivity | repeat constructor]. Qed.

Lemma chain_valid : valid Examples.chain.
Proof.
  constructor; simpl.
  - repeat constructor. simpl. tauto.
  - intros G [<-|[]]. right. simpl. lia.
  - repeat constructor.
  - reflexivity.
  - repeat constructor. apply origin_in_home_cell.
Qed.

(** C4.  On a valid model that stores at least one key, [hamilton(k)] is
    the sum over the stored keys of [h(G) exp(2 pi i G.k)] plus the
    conjugate transpose of that sum, and it is Hermitian.  On a valid model
    whose table is empty the call does not return a matrix: [sum] yields
    the integer 0 and [H.conjugate().T] raises [AttributeError]. *)
Theorem hamilton_hermitian_unless_empty m k :
  valid m ->
  (hoppings m <> [] ->
   hamilton m k = Ok (Mat.pointwise Cx.add (bloch_sum m k) (dagger (bloch_sum m k))) /\
   hermitian (Mat.pointwise Cx.add (bloch_sum m k) (dagger (bloch_sum m k)))) /\
  (hoppings m = [] -> hamilton m k = Err AttributeError).
Proof.
  intros Hv. split.
  - intros Hne. destruct (hamilton_formula k Hv Hne) as [H1 [_ H2]]. split; assumption.
  - intros He. unfold hamilton, hamilton_terms. rewrite He. reflexivity.
Qed.

Lemma hamilton_hermitian_unless_empty_witness :
  Model_init [] (Some 1%nat) None None None true default_cc_tolerance
  = Ok Examples.empty_model /\
  (forall k, hamilton Examples.empty_model k = Err AttributeError) /\
  (forall k, exists H, hamilton Examples.chain k = Ok H /\ hermitian H).
Proof.
  split; [reflexivity|]. split.
  - intros k.
    exact (proj2 (hamilton_hermitian_unless_empty k empty_model_valid) eq_refl).
  - intros k. eexists.
    refine (proj1 (hamilton_hermitian_unless_empty k chain_valid) _). discriminate.
Defined.

(** ** The state of the source model after a derived operation (C1) *)

Lemma map_enumerate_id {A} (g : nat -> A -> A) (l : list A) s :
  (forall i x, g i x = x) ->
  map (fun ix => g (fst ix) (snd ix)) (combine (seq s (length l)) l) = l.
Proof.
  intros Hg. revert s. induction l as [|x l IH]; intros s; simpl; [reflexivity|].
  rewrite Hg, IH. reflexivity.
Qed.

(** Writing back what was read changes nothing. *)
Lemma upd_id m i j f : (forall z, f z = z) -> Mat.upd m i j f = m.
Proof.
  intros Hf. unfold Mat.upd, enumerate.
  apply (map_enumerate_id
           (fun a row => if (a =? i)%nat
                         then map (fun jz => if (fst jz =? j)%nat then f (snd jz) else snd jz)
                                  (combine (seq 0 (length row)) row)
                         else row)).
  intros a row. destruct (a =? i)%nat; [|reflexivity].
  apply (map_enumerate_id (fun b z => if (b =? j)%nat then f z else z)).
  intros b z. destruct (b =? j)%nat; [apply Hf | reflexivity].
Qed.

(** Both ends of the hopping are read at [pos[i0]]: the phase is 1. *)
Lemma peierls_phase_same_ends pv G r A : peierls_phase pv G r r A A = Cx.one.
Proof.
  unfold peierls_phase.
  assert (E : dot3 (sub3 (add3 (vec3_of_G G) r) r) (sub3 A A) = 0%R).
  { destruct G as [[a b] c], r as [[r0 r1] r2], A as [[A0 A1] A2]. simpl. ring. }
  rewrite E.
  replace (Cx.scale 0 (Cx.scale pv (0, -1)%R)) with Cx.zero
    by (apply CxFacts.eq_intro; simpl; ring).
  apply CxFacts.cexp_zero.
Qed.

Lemma peierls_entry_same self pv mv u A G hop_mat i0 i1 hop_mat' :
  peierls_entry self pv mv u A G hop_mat i0 i1 = Ok hop_mat' -> hop_mat' = hop_mat.
Proof.
  unfold peierls_entry. intros H.
  apply bind_ok in H. destruct H as [p0 [Hp0 H]].
  apply bind_ok in H. destruct H as [p1 [Hp1 H]].
  assert (p1 = p0) by congruence. subst p1.
  apply bind_ok in H. destruct H as [[A0 A1] [HA H]].
  assert (A1 = A0).
  { destruct (mv =? "absolute")%string; [congruence|].
    destruct (mv =? "relative")%string; [congruence | discriminate]. }
  subst A1. inversion H; subst. rewrite peierls_phase_same_ends.
  apply upd_id. apply CxFacts.mul_one_r.
Qed.

Lemma peierls_matrix_same body idx hop_mat :
  (forall m i0 i1 m', body m i0 i1 = Ok m' -> m' = m) ->
  fst (peierls_matrix body idx hop_mat) = hop_mat.
Proof.
  intros Hbody. induction idx as [|[i0 i1] idx IH]; simpl; [reflexivity|].
  destruct (body hop_mat i0 i1) as [m'|e] eqn:E; [|reflexivity].
  apply Hbody in E. subst. assumption.
Qed.

Lemma peierls_table_same self pv mv u A hop :
  fst (peierls_table self pv mv u A hop) = hop.
Proof.
  induction hop as [|[G hop_mat] rest IH]; simpl; [reflexivity|].
  pose proof (@peierls_matrix_same (peierls_entry self pv mv u A G)
                (Mat.nonzero_idx hop_mat) hop_mat) as Hm.
  destruct (peierls_matrix _ _ hop_mat) as [hop_mat' r]. simpl in Hm.
  rewrite Hm by (intros; eapply peierls_entry_same; eassumption).
  destruct r as [[]|e]; [|reflexivity].
  destruct (peierls_table self pv mv u A rest) as [rest' r']. simpl in IH. subst.
  reflexivity.
Qed.

Lemma with_hoppings_same self : with_hoppings self (hoppings self) = self.
Proof. destruct self; reflexivity. Qed.

Lemma em_field_same self ps pv ms mv scalar_pot vec_pot :
  fst (em_field self ps pv ms mv scalar_pot vec_pot) = self.
Proof.
  unfold em_field.
  destruct (match scalar_pot with Some f => _ | None => _ end) as [nh|e]; [|reflexivity].
  destruct vec_pot as [A|]; [|reflexivity].
  destruct (uc self) as [u|] eqn:Eu; [|reflexivity].
  pose proof (peierls_table_same self pv mv u A (hoppings self)) as Ht.
  destruct (peierls_table self pv mv u A (hoppings self)) as [h' r]. simpl in Ht. subst h'.
  rewrite with_hoppings_same. destruct r as [[]|e]; reflexivity.
Qed.

(** C1.  After any derived-model operation, whether it returns a model or
    raises, the source model is in the state it was in before the call:
    size, occ, pos, uc and the whole hopping table.  The second operand of
    an addition or a subtraction is unchanged too.  [em_field] does write
    into the matrices of the source, but what it writes is what it read. *)
Theorem source_state_unchanged self :
  (forall self' r, derived self self' r -> self' = self) /\
  (forall model, snd (fst (add self model)) = model) /\
  (forall model, snd (fst (sub self model)) = model).
Proof.
  split; [|split].
  - intros self' r H. destruct H; try reflexivity.
    + destruct model; reflexivity.
    + destruct model; reflexivity.
    + unfold sub. destruct (neg model) as [model' [m|e]]; reflexivity.
    + unfold div. destruct (Req_dec_T x 0); reflexivity.
    + unfold truediv, div. destruct (Req_dec_T x 0); reflexivity.
    + apply em_field_same.
  - intros model. destruct model; reflexivity.
  - intros model. unfold sub. destruct (neg model) as [model' [m|e]] eqn:E;
      unfold neg, rmul, mul in E; inversion E; reflexivity.
Qed.

Lemma source_state_unchanged_witness :
  fst (em_field Examples.two_site 1 1 "relative" "relative" None
                (Some Examples.linear_pot))
  = Examples.two_site.
Proof.
  exact (proj1 (source_state_unchanged Examples.two_site) _ _
               (derived_em_field Examples.two_site 1 1 "relative" "relative" None
                  (Some Examples.linear_pot))).
Defined.

(** ** Every constructed model is valid *)

Lemma wf_nil {V} : Dict.wf (@nil (LatticeVector * V)).
Proof. constructor. Qed.

Lemma reduce_hoppings_wf hop tol res : _reduce_hoppings hop tol = Ok res -> Dict.wf res.
Proof.
  unfold _reduce_hoppings. intros H. apply bind_ok in H. destruct H as [_ [_ [= <-]]].
  apply fold_left_inv; [|apply wf_nil].
  intros s [G h] _ Hs. unfold reduce_step.
  destruct (Dict.key_eqb G origin); [apply DictFacts.wf_set; assumption|].
  destruct (first_nonzero_positive G); [apply DictFacts.wf_set|]; assumption.
Qed.

Lemma map_hoppings_positive_G_wf n hop res :
  _map_hoppings_positive_G n hop = Ok res -> Dict.wf res.
Proof.
  unfold _map_hoppings_positive_G. apply (foldM_post (@Dict.wf matrix)); [|apply wf_nil].
  intros s [G h] s' _ Hs. unfold fold_step.
  destruct (Dict.key_eqb G origin).
  - intros [= <-]. apply DictFacts.wf_set; assumption.
  - destruct (first_nonzero_positive G); intros H;
      apply bind_ok in H; destruct H as [m [_ [= <-]]]; apply DictFacts.wf_set; assumption.
Qed.

Lemma check_shape_ok n hop :
  foldM (check_shape n) hop tt = Ok tt <-> Forall (Mat.rect n n) (Dict.values hop).
Proof.
  induction hop as [|[G h] hop IH]; simpl.
  - split; [constructor | reflexivity].
  - unfold check_shape at 1. simpl. destruct (Mat.has_shape n n h) eqn:E; simpl.
    + apply MatFacts.has_shape_rect in E. rewrite IH. split.
      * intros H. constructor; assumption.
      * intros H. inversion H; assumption.
    + split; [discriminate|]. intros H. inversion H as [|? ? Hh _]; subst.
      apply MatFacts.has_shape_rect in Hh. congruence.
Qed.

Lemma mod1_in_unit x : Zfloor (mod1 x) = 0%Z.
Proof.
  unfold mod1. apply Zfloor_eq. pose proof (Zfloor_bound x). simpl. lra.
Qed.

Lemma mod1_3_in_home_cell p : in_home_cell (mod1_3 p).
Proof.
  destruct p as [[x y] z]. unfold in_home_cell, mod1_3, floor3.
  rewrite !mod1_in_unit. reflexivity.
Qed.

Lemma fast_path_home pos :
  forallb (Dict.key_eqb origin) (map floor3 pos) = true <-> Forall in_home_cell pos.
Proof.
  rewrite forallb_forall, Forall_forall. unfold in_home_cell. split.
  - intros H p Hp. symmetry. apply DictFacts.key_eqb_eq. apply H. apply in_map. assumption.
  - intros H o Ho. apply in_map_iff in Ho. destruct Ho as [p [<- Hp]].
    apply DictFacts.key_eqb_eq. symmetry. apply H. assumption.
Qed.

Lemma map_to_uc_pos n pos hop pos' hop' :
  _map_to_uc n pos hop = Ok (pos', hop') ->
  length pos' = length pos /\ Forall in_home_cell pos'.
Proof.
  unfold _map_to_uc. destruct (forallb _ _) eqn:E.
  - intros [= <- <-]. split; [reflexivity | apply fast_path_home; assumption].
  - intros H. apply bind_ok in H. destruct H as [nh [_ [= <- <-]]]. split.
    + apply length_map.
    + apply Forall_forall. intros p Hp. apply in_map_iff in Hp.
      destruct Hp as [q [<- _]]. apply mod1_3_in_home_cell.
Qed.

Theorem Model_init_valid hop sz oc ps u cc tol m :
  Model_init hop sz oc ps u cc tol = Ok m -> valid m.
Proof.
  intros H. apply Model_init_ok in H.
  destruct H as [hop1 [Hsz [Hpos [Hred [Hshape _]]]]]. constructor.
  - destruct cc; [eapply reduce_hoppings_wf | eapply map_hoppings_positive_G_wf]; eassumption.
  - destruct cc; [eapply reduce_hoppings_canonical
                 | eapply map_hoppings_positive_G_canonical]; eassumption.
  - apply check_shape_ok. assumption.
  - unfold init_positions in Hpos. destruct ps as [p|].
    + destruct (Nat.eqb_spec (length p) (size m)); [|discriminate].
      apply map_to_uc_pos in Hpos. destruct Hpos as [Hl _]. congruence.
    + injection Hpos as Hp Hh. rewrite <- Hp. apply repeat_length.
  - unfold init_positions in Hpos. destruct ps as [p|].
    + destruct (length p =? size m)%nat; [|discriminate].
      apply map_to_uc_pos in Hpos. apply Hpos.
    + injection Hpos as Hp Hh. rewrite <- Hp. apply Forall_forall. intros q Hq.
      apply repeat_spec in Hq. subst q. apply origin_in_home_cell.
Qed.

(** ** Reconstruction of a valid model from its own data *)

Lemma fold_step_fresh n l1 G h :
  ~ In G (Dict.keys l1) -> G = origin \/ leading_positive G -> Mat.rect n n h ->
  fold_step n l1 (G, h) = Ok (l1 ++ [(G, h)]).
Proof.
  intros Hfresh Hcan Hh. unfold fold_step.
  destruct (Dict.key_eqb G origin) eqn:E0.
  - rewrite DictFacts.set_append by assumption. reflexivity.
  - destruct Hcan as [->|Hpos]; [rewrite DictFacts.key_eqb_refl in E0; discriminate|].
    apply first_nonzero_positive_spec in Hpos. rewrite Hpos.
    unfold Dict.get_default. apply DictFacts.get_none in Hfresh. rewrite Hfresh.
    rewrite (MatFacts.add_rect (MatFacts.rect_zeros n n) Hh). simpl.
    rewrite (MatFacts.pointwise_add_zeros_l Hh).
    rewrite DictFacts.set_append by (apply DictFacts.get_none; assumption). reflexivity.
Qed.

Lemma fold_canonical_table n l2 : forall l1,
  Dict.wf (l1 ++ l2) -> keys_canonical l2 -> Forall (Mat.rect n n) (Dict.values l2) ->
  foldM (fold_step n) l2 l1 = Ok (l1 ++ l2).
Proof.
  induction l2 as [|[G h] l2 IH]; intros l1 Hwf Hcan Hrect; cbn [foldM].
  - rewrite app_nil_r. reflexivity.
  - inversion Hrect as [|? ? Hh Hrest]; subst.
    rewrite (@fold_step_fresh n l1 G h).
    + cbn [bind]. rewrite IH.
      * rewrite <- app_assoc. reflexivity.
      * rewrite <- app_assoc. assumption.
      * intros G' HG'. apply Hcan. right. assumption.
      * assumption.
    + unfold Dict.wf, Dict.keys in Hwf. rewrite map_app in Hwf. simpl in Hwf.
      apply NoDup_remove_2 in Hwf. intros Hin. apply Hwf. apply in_or_app. left. assumption.
    + apply Hcan. left. reflexivity.
    + assumption.
Qed.

Lemma init_size_valid m :
  valid m -> hoppings m <> [] -> init_size (hoppings m) None = Ok (size m).
Proof.
  intros Hv Hne. pose proof (valid_shapes Hv) as Hs.
  destruct (hoppings m) as [|[G h] rest]; [congruence|]. simpl in *.
  inversion Hs as [|? ? [Hh _] _]; subst. unfold Mat.nrows. rewrite Hh. reflexivity.
Qed.

Lemma init_positions_valid m :
  valid m -> init_positions (size m) (Some (pos m)) (hoppings m) = Ok (pos m, hoppings m).
Proof.
  intros Hv. unfold init_positions. rewrite (valid_pos_length Hv), Nat.eqb_refl.
  unfold _map_to_uc.
  rewrite (proj2 (fast_path_home (pos m)) (valid_pos_home Hv)). reflexivity.
Qed.

(** The constructor, called with [contains_cc=False] on the data of a valid
    model that stores at least one key, returns that model. *)
Lemma Model_init_reconstructs m tol :
  valid m -> hoppings m <> [] ->
  Model_init (hoppings m) None (occ m) (Some (pos m)) (uc m) false tol = Ok m.
Proof.
  intros Hv Hne.
  rewrite (@Model_init_unfold (hoppings m) None (occ m) (Some (pos m)) (uc m) false tol
             (size m) (pos m) (hoppings m)
             (init_size_valid Hv Hne) (init_positions_valid Hv)).
  unfold _map_hoppings_positive_G.
  rewrite (@fold_canonical_table (size m) (hoppings m) []
             (valid_keys Hv) (valid_canonical Hv) (valid_shapes Hv)).
  simpl. rewrite (proj2 (check_shape_ok (size m) (hoppings m)) (valid_shapes Hv)).
  simpl. destruct m; reflexivity.
Qed.

(** ** [change_uc] (C9) *)

Lemma trunc_IZR z : trunc (IZR z) = z.
Proof.
  unfold trunc. destruct (Rlt_dec (IZR z) 0).
  - apply Zceil_eq. lra.
  - apply ZfloorZ.
Qed.

Lemma det3_identity : det3 identity3 = 1%R.
Proof. unfold det3, identity3. ring. Qed.

Lemma solve3_identity v : solve3 identity3 v = v.
Proof.
  destruct v as [[x y] z]. unfold solve3. rewrite det3_identity.
  unfold det3, identity3. f_equal; [f_equal|]; field.
Qed.

Lemma mat3_mul_identity u : mat3_mul u identity3 = u.
Proof.
  destruct u as [[[[a b] c] [[d e] f]] [[g h] i]].
  unfold mat3_mul, identity3, dot3. simpl.
  repeat apply f_equal2; ring.
Qed.

Lemma trunc3_solve3_identity G : trunc3 (solve3 identity3 (vec3_of_G G)) = G.
Proof.
  rewrite solve3_identity. destruct G as [[a b] c]. unfold trunc3, vec3_of_G.
  rewrite !trunc_IZR. reflexivity.
Qed.

(** Setting the keys of a well-formed table in their order rebuilds it. *)
Lemma rebuild_table (f : LatticeVector -> LatticeVector) (g : matrix -> matrix) l2 :
  (forall G, f G = G) -> (forall h, g h = h) ->
  forall l1 : dict matrix, Dict.wf (l1 ++ l2) ->
  fold_left (fun d Gh => Dict.set d (f (fst Gh)) (g (snd Gh))) l2 l1 = l1 ++ l2.
Proof.
  intros Hf Hg. induction l2 as [|[G h] l2 IH]; intros l1 Hwf; simpl.
  - rewrite app_nil_r. reflexivity.
  - rewrite Hf, Hg, DictFacts.set_append.
    + rewrite IH; rewrite <- app_assoc; [reflexivity | assumption].
    + unfold Dict.wf, Dict.keys in Hwf. rewrite map_app in Hwf. simpl in Hwf.
      apply NoDup_remove_2 in Hwf. intros Hin. apply Hwf. apply in_or_app. left. assumption.
Qed.

Lemma change_uc_identity_outcome m ip :
  Dict.wf (hoppings m) ->
  snd (change_uc m identity3 ip)
  = Model_init (hoppings m) None (occ m) (Some (pos m)) (uc m) false default_cc_tolerance.
Proof.
  intros Hwf. unfold change_uc. cbn [snd].
  destruct (Req_dec_T (det3 identity3) 1) as [_|Hd];
    [|exfalso; apply Hd; apply det3_identity].
  assert (Hpos : map (solve3 identity3) (pos m) = pos m).
  { rewrite (map_ext _ (fun p => p) solve3_identity). apply map_id. }
  assert (Huc : match uc m with Some u => Some (mat3_mul u identity3) | None => None end
                = uc m).
  { destruct (uc m); [rewrite mat3_mul_identity|]; reflexivity. }
  rewrite Hpos, Huc.
  rewrite (@rebuild_table (fun G => trunc3 (solve3 identity3 (vec3_of_G G))) (fun h => h)
             (hoppings m) trunc3_solve3_identity (fun h => eq_refl) [] Hwf).
  reflexivity.
Qed.

(** C9, as stated, fails on a valid model whose table is empty: the
    constructor that [change_uc] calls cannot determine the size. *)
Lemma change_uc_identity_empty_table :
  Model_init [] (Some 1%nat) None None None true default_cc_tolerance
  = Ok Examples.empty_model /\
  valid Examples.empty_model /\
  snd (change_uc Examples.empty_model identity3 false)
  = Err (ValueError EmptyHoppingsNoSize).
Proof.
  split; [reflexivity|]. split; [apply empty_model_valid|].
  rewrite (@change_uc_identity_outcome Examples.empty_model false) by constructor.
  reflexivity.
Qed.

(** C9, amended.  For every valid model that stores at least one key,
    [change_uc] applied to the identity matrix returns a model equal to the
    original: same size, occ, pos, uc and hopping table; and [change_uc]
    raises the error that names the determinant whenever the determinant
    of the supplied matrix is not 1. *)
Theorem change_uc_identity m ip :
  valid m -> hoppings m <> [] ->
  snd (change_uc m identity3 ip) = Ok m /\
  (forall uc_, det3 uc_ <> 1%R ->
               snd (change_uc m uc_ ip) = Err (ValueError (DetNotOne (det3 uc_)))).
Proof.
  intros Hv Hne. split.
  - rewrite (@change_uc_identity_outcome m ip (valid_keys Hv)).
    apply Model_init_reconstructs; assumption.
  - intros uc_ Hd. unfold change_uc. simpl.
    destruct (Req_dec_T (det3 uc_) 1); [contradiction | reflexivity].
Qed.

Lemma change_uc_identity_witness :
  snd (change_uc Examples.chain identity3 false) = Ok Examples.chain.
Proof.
  refine (proj1 (@change_uc_identity Examples.chain false chain_valid _)).
  discriminate.
Defined.

(** ** [em_field] with a vector potential (C2) *)

Lemma in_enumerate {A} (l : list A) i x : In (i, x) (enumerate l) -> (i < length l)%nat.
Proof.
  unfold enumerate. intros H. apply in_combine_l in H. apply in_seq in H. lia.
Qed.

Lemma nonzero_idx_row h i0 i1 : In (i0, i1) (Mat.nonzero_idx h) -> (i0 < length h)%nat.
Proof.
  unfold Mat.nonzero_idx. intros H. apply in_flat_map in H.
  destruct H as [[i row] [Hin H]]. apply in_flat_map in H.
  destruct H as [[j z] [_ H]]. simpl in H.
  destruct (Cx.nonzero z); [|destruct H].
  destruct H as [[= <- <-]|[]]. apply in_enumerate in Hin. assumption.
Qed.

Lemma index_ok {A} (l : list A) i : (i < length l)%nat -> exists a, index l i = Ok a.
Proof.
  intros H. unfold index. destruct (nth_error l i) eqn:E; [eauto|].
  apply nth_error_None in E. lia.
Qed.

Lemma peierls_entry_ok self pv mv u A G hop_mat i0 i1 :
  (i0 < length (pos self))%nat -> mv = "relative"%string \/ mv = "absolute"%string ->
  exists hop_mat', peierls_entry self pv mv u A G hop_mat i0 i1 = Ok hop_mat'.
Proof.
  intros Hi Hmode. unfold peierls_entry. destruct (index_ok _ Hi) as [p0 ->]. simpl.
  destruct Hmode as [-> | ->]; simpl; eauto.
Qed.

Lemma peierls_matrix_ok body idx :
  (forall i0 i1 m, In (i0, i1) idx -> exists m', body m i0 i1 = Ok m') ->
  forall hop_mat, snd (peierls_matrix body idx hop_mat) = Ok tt.
Proof.
  induction idx as [|[i0 i1] idx IH]; intros Hbody hop_mat; simpl; [reflexivity|].
  destruct (Hbody i0 i1 hop_mat (or_introl eq_refl)) as [m' ->].
  apply IH. intros a b m Hin. apply Hbody. right; assumption.
Qed.

Lemma peierls_table_ok self pv mv u A hop :
  Forall (fun h => length h = length (pos self)) (Dict.values hop) ->
  mv = "relative"%string \/ mv = "absolute"%string ->
  snd (peierls_table self pv mv u A hop) = Ok tt.
Proof.
  intros Hrows Hmode. induction hop as [|[G hop_mat] rest IH]; simpl; [reflexivity|].
  inversion Hrows as [|? ? Hh Hrest]; subst. simpl in Hh.
  pose proof (@peierls_matrix_ok (peierls_entry self pv mv u A G) (Mat.nonzero_idx hop_mat))
    as Hm.
  specialize (Hm (fun i0 i1 m Hin =>
    @peierls_entry_ok self pv mv u A G m i0 i1
      (eq_ind _ (fun n => (i0 < n)%nat) (nonzero_idx_row _ _ _ Hin) _ Hh) Hmode) hop_mat).
  destruct (peierls_matrix _ _ hop_mat) as [hop_mat' r]. simpl in Hm. subst r.
  specialize (IH Hrest). destruct (peierls_table self pv mv u A rest) as [rest' r'].
  simpl in *. assumption.
Qed.

(** With a vector potential and no scalar potential, [em_field] returns the
    source model: the phases went to the matrices of [self], after the deep
    copy was taken, and they are all 1. *)
Lemma em_field_vec_pot_returns_source m u ps pv ms mv A :
  valid m -> hoppings m <> [] -> uc m = Some u ->
  mv = "relative"%string \/ mv = "absolute"%string ->
  snd (em_field m ps pv ms mv None (Some A)) = Ok m.
Proof.
  intros Hv Hne Hu Hmode. unfold em_field. rewrite Hu.
  pose proof (peierls_table_same m pv mv u A (hoppings m)) as Hsame.
  assert (Hok : snd (peierls_table m pv mv u A (hoppings m)) = Ok tt).
  { apply peierls_table_ok; [|assumption].
    pose proof (valid_shapes Hv) as Hs. rewrite (valid_pos_length Hv).
    eapply Forall_impl; [|exact Hs]. intros h [Hh _]. assumption. }
  destruct (peierls_table m pv mv u A (hoppings m)) as [h' r]. simpl in Hsame, Hok. subst.
  rewrite with_hoppings_same. cbn [snd]. apply Model_init_reconstructs; assumption.
Qed.

Lemma Zfloor_half : Zfloor (1 / 2) = 0%Z.
Proof. apply Zfloor_eq. simpl. lra. Qed.

Lemma two_site_valid : valid Examples.two_site.
Proof.
  constructor; simpl.
  - repeat constructor. simpl. tauto.
  - intros G [<-|[]]. right. simpl. lia.
  - repeat constructor.
  - reflexivity.
  - repeat constructor.
    + apply origin_in_home_cell.
    + unfold in_home_cell, floor3. rewrite Zfloor_half, Zfloor_0. reflexivity.
Qed.

Lemma PI_gt_3 : (3 < PI)%R.
Proof. pose proof PI2_3_2. lra. Qed.

(** The phase prescribed for the hopping of [two_site]. *)
Lemma two_site_prescribed_phase :
  prescribed_phase Examples.two_site identity3 Examples.linear_pot 1 "relative"
                (1, 0, 0)%Z 0 1
  = Cx.cexp (0, - (3 / 4))%R.
Proof.
  unfold prescribed_phase, peierls_phase, Examples.linear_pot. simpl.
  unfold mod1. rewrite Zfloor_half, Zfloor_0. simpl.
  f_equal. apply CxFacts.eq_intro; simpl; field.
Qed.

Lemma phase_three_quarters_not_one : Cx.mul Cx.one (Cx.cexp (0, - (3 / 4))%R) <> Cx.one.
Proof.
  unfold Cx.mul, Cx.cexp, Cx.one. simpl. intros H.
  injection H as _ H. rewrite exp_0, sin_neg in H.
  assert (0 < sin (3 / 4))%R by (apply sin_gt_0; pose proof PI_gt_3; lra).
  lra.
Qed.

(** C2.  [em_field] with a vector potential does not multiply the stored
    amplitudes by the Peierls phase: on every valid model with a unit cell
    and at least one stored key it returns the source model itself.  On
    [two_site] with [A(r) = r] the amplitude at [(G, 0, 1)] stays 1, while
    the prescribed phase is [exp(-3i/4)], which is not 1. *)
Theorem em_field_applies_no_peierls_phase :
  (forall m u ps pv ms mv A,
      valid m -> hoppings m <> [] -> uc m = Some u ->
      mv = "relative"%string \/ mv = "absolute"%string ->
      snd (em_field m ps pv ms mv None (Some A)) = Ok m) /\
  (let m := Examples.two_site in
   let t := Mat.get (Dict.get_default (hoppings m) (1, 0, 0)%Z []) 0 1 in
   t = Cx.one /\
   Cx.mul t (prescribed_phase m identity3 Examples.linear_pot 1 "relative" (1, 0, 0)%Z 0 1)
   <> t).
Proof.
  split.
  - intros. eapply em_field_vec_pot_returns_source; eassumption.
  - simpl. split; [reflexivity|].
    change (Mat.get _ 0 1) with Cx.one. rewrite two_site_prescribed_phase.
    apply phase_three_quarters_not_one.
Qed.

Lemma em_field_applies_no_peierls_phase_witness :
  snd (em_field Examples.two_site 1 1 "relative" "relative" None
                (Some Examples.linear_pot))
  = Ok Examples.two_site.
Proof.
  refine (proj1 em_field_applies_no_peierls_phase Examples.two_site identity3 1%R 1%R
                "relative"%string "relative"%string Examples.linear_pot
                two_site_valid _ eq_refl (or_introl eq_refl)).
  discriminate.
Defined.

(** ** The round trip through the expanded table (C7) *)

Lemma sum_abs2_all_zero m :
  Forall (Forall (fun z => z = Cx.zero)) m -> Mat.sum_abs2 m = 0%R.
Proof.
  unfold Mat.sum_abs2. induction 1 as [|row m Hrow _ IH]; simpl; [reflexivity|].
  rewrite IH. clear IH. induction Hrow as [|z row Hz _ IHr]; simpl; [reflexivity|].
  rewrite IHr, Hz, CxFacts.abs2_zero. ring.
Qed.

Lemma norm_sub_diag n a : Mat.rect n n a -> Mat.norm (Mat.pointwise Cx.sub a a) = 0%R.
Proof.
  intros Ha. unfold Mat.norm. rewrite sum_abs2_all_zero; [apply sqrt_0|].
  unfold Mat.pointwise, Mat.mk. apply Forall_forall. intros row Hrow.
  apply in_map_iff in Hrow. destruct Hrow as [i [<- _]].
  apply Forall_forall. intros z Hz. apply in_map_iff in Hz. destruct Hz as [j [<- _]].
  apply CxFacts.sub_diag.
Qed.

(** A matrix and the conjugate transpose of its partner that coincide are
    within every non-negative tolerance. *)
Lemma within_partner n hop tol G h partner :
  Dict.get hop (neg_G G) = Some partner -> Mat.rect n n h -> Mat.rect n n partner ->
  dagger partner = h -> (0 <= tol)%R -> within hop tol G h.
Proof.
  intros Hget Hh Hp Heq Htol. exists (Mat.pointwise Cx.sub h h). split.
  - exists partner. split; [assumption|]. fold (dagger partner). rewrite Heq.
    apply (MatFacts.sub_rect Hh Hh).
  - rewrite (norm_sub_diag Hh). lra.
Qed.

Lemma rect_dagger_ n h : Mat.rect n n h -> Mat.rect n n (dagger h).
Proof. apply MatFacts.rect_dagger. Qed.

Lemma rect_symmetric_part n h :
  Mat.rect n n h -> Mat.rect n n (Mat.pointwise Cx.add h (dagger h)).
Proof. intros H. apply MatFacts.rect_pointwise. assumption. Qed.

Lemma in_expand G h hop :
  In (G, h) (expand hop) <->
  exists G0 h0, In (G0, h0) hop /\
    ((G0 = origin /\ G = G0 /\ h = Mat.pointwise Cx.add h0 (dagger h0)) \/
     (G0 <> origin /\ ((G = G0 /\ h = h0) \/ (G = neg_G G0 /\ h = dagger h0)))).
Proof.
  unfold expand. rewrite in_flat_map. split.
  - intros [[G0 h0] [Hin H]]. exists G0, h0. split; [assumption|].
    unfold expand_entry in H. destruct (Dict.key_eqb G0 origin) eqn:E.
    + apply DictFacts.key_eqb_eq in E. destruct H as [[= <- <-]|[]]. left. auto.
    + apply DictFacts.key_eqb_neq in E. right. split; [assumption|].
      destruct H as [[= <- <-]|[[= <- <-]|[]]]; auto.
  - intros [G0 [h0 [Hin H]]]. exists (G0, h0). split; [assumption|].
    unfold expand_entry. destruct H as [[-> [-> ->]]|[Hne H]].
    + rewrite DictFacts.key_eqb_refl. left; reflexivity.
    + apply DictFacts.key_eqb_neq in Hne. rewrite Hne.
      destruct H as [[-> ->]|[-> ->]]; simpl; auto.
Qed.

Lemma neg_G_inj G G' : neg_G G = neg_G G' -> G = G'.
Proof. intros H. rewrite <- (neg_G_involutive G), H. apply neg_G_involutive. Qed.

Lemma neg_G_not_canonical G :
  G <> origin -> G = origin \/ leading_positive G ->
  ~ (neg_G G = origin \/ leading_positive (neg_G G)).
Proof.
  intros Hne [H0|Hp] [Hn0|Hnp]; try contradiction.
  - apply Hne. rewrite <- (neg_G_involutive G), Hn0. reflexivity.
  - apply (@leading_positive_neg G); assumption.
Qed.

(** The expanded table of a well-formed canonical table is well formed. *)
Lemma expand_wf hop : Dict.wf hop -> keys_canonical hop -> Dict.wf (expand hop).
Proof.
  unfold Dict.wf. induction hop as [|[G h] hop IH]; intros Hwf Hcan; [constructor|].
  simpl in Hwf. inversion Hwf as [|? ? Hfresh Hwf']; subst.
  assert (Hcan' : keys_canonical hop) by (intros G' HG'; apply Hcan; right; assumption).
  specialize (IH Hwf' Hcan').
  assert (HG : G = origin \/ leading_positive G) by (apply Hcan; left; reflexivity).
  assert (Hin : forall X, In X (Dict.keys (expand hop)) ->
                exists G0, In G0 (Dict.keys hop) /\ (X = G0 \/ (G0 <> origin /\ X = neg_G G0))).
  { intros X HX. apply in_keys_exists in HX. destruct HX as [hx HX].
    apply in_expand in HX. destruct HX as [G0 [h0 [H0 H]]].
    exists G0. split; [apply in_keys_exists; eauto|].
    destruct H as [[_ [-> _]]|[Hne [[-> _]|[-> _]]]]; auto. }
  assert (HnotG : ~ In G (Dict.keys (expand hop))).
  { intros HX. apply Hin in HX. destruct HX as [G0 [H0 [->|[Hne ->]]]]; [contradiction|].
    apply (neg_G_not_canonical Hne (Hcan' G0 H0)). assumption. }
  change (expand ((G, h) :: hop)) with (expand_entry (G, h) ++ expand hop).
  unfold expand_entry. destruct (Dict.key_eqb G origin) eqn:E; simpl.
  - constructor; assumption.
  - apply DictFacts.key_eqb_neq in E. constructor; [|constructor; [|assumption]].
    + simpl. intros [Heq|HX]; [|contradiction].
      apply E. apply neg_G_origin. assumption.
    + intros HX. apply Hin in HX. destruct HX as [G0 [H0 [Heq|[Hne Heq]]]].
      * apply (neg_G_not_canonical E HG). rewrite Heq. apply Hcan'. assumption.
      * apply neg_G_inj in Heq. subst. contradiction.
Qed.

Lemma values_in {V} (P : V -> Prop) (d : dict V) G h :
  Forall P (Dict.values d) -> In (G, h) d -> P h.
Proof.
  unfold Dict.values. rewrite Forall_forall. intros H Hin. apply H.
  change h with (snd (G, h)). apply in_map. assumption.
Qed.

Lemma neg_G_of_origin : neg_G origin = origin.
Proof. reflexivity. Qed.

(** Every pair of the expanded table is Hermitian, exactly. *)
Lemma expand_within n hop tol :
  Dict.wf hop -> keys_canonical hop -> Forall (Mat.rect n n) (Dict.values hop) ->
  (0 <= tol)%R ->
  forall G h, In (G, h) (expand hop) -> within (expand hop) tol G h.
Proof.
  intros Hwf Hcan Hrect Htol G h Hin.
  pose proof (expand_wf Hwf Hcan) as HwfE.
  apply in_expand in Hin. destruct Hin as [G0 [h0 [H0 H]]].
  pose proof (values_in _ _ _ Hrect H0) as Hh0.
  destruct H as [[-> [-> ->]]|[Hne [[-> ->]|[-> ->]]]].
  - apply (@within_partner n _ _ _ _ (Mat.pointwise Cx.add h0 (dagger h0))).
    + rewrite neg_G_of_origin. apply DictFacts.in_get; [assumption|].
      apply in_expand. exists origin, h0. split; [assumption|]. left. auto.
    + apply rect_symmetric_part. assumption.
    + apply rect_symmetric_part. assumption.
    + apply (plus_dagger_hermitian Hh0).
    + assumption.
  - apply (@within_partner n _ _ _ _ (dagger h0)).
    + apply DictFacts.in_get; [assumption|].
      apply in_expand. exists G0, h0. split; [assumption|]. right. auto.
    + assumption.
    + apply rect_dagger_. assumption.
    + apply (MatFacts.dagger_involutive Hh0).
    + assumption.
  - apply (@within_partner n _ _ _ _ h0).
    + rewrite neg_G_involutive. apply DictFacts.in_get; [assumption|].
      apply in_expand. exists G0, h0. split; [assumption|]. right. auto.
    + apply rect_dagger_. assumption.
    + assumption.
    + reflexivity.
    + assumption.
Qed.

Lemma keys_app {V} (a b : dict V) : Dict.keys (a ++ b) = Dict.keys a ++ Dict.keys b.
Proof. apply map_app. Qed.

(** The reduction of the expanded table keeps the stored keys, in their
    order, and halves the un-halved block at (0,0,0). *)
Lemma reduce_expand hop : forall acc,
  NoDup (Dict.keys acc ++ Dict.keys hop) -> keys_canonical hop ->
  fold_left reduce_step (expand hop) acc = acc ++ symmetrized hop.
Proof.
  induction hop as [|[G h] hop IH]; intros acc Hnd Hcan.
  - simpl. rewrite app_nil_r. reflexivity.
  - assert (Hfresh : ~ In G (Dict.keys acc)).
    { simpl in Hnd. apply NoDup_remove_2 in Hnd. intros Hin. apply Hnd.
      apply in_or_app. left. assumption. }
    assert (Hcan' : keys_canonical hop) by (intros G' HG'; apply Hcan; right; assumption).
    assert (HG : G = origin \/ leading_positive G) by (apply Hcan; left; reflexivity).
    assert (Hnext : forall x, NoDup (Dict.keys (acc ++ [(G, x)]) ++ Dict.keys hop)).
    { intros x. rewrite keys_app, <- app_assoc. exact Hnd. }
    change (expand ((G, h) :: hop)) with (expand_entry (G, h) ++ expand hop).
    rewrite fold_left_app.
    change (symmetrized ((G, h) :: hop)) with (symmetrize_entry (G, h) :: symmetrized hop).
    unfold expand_entry, symmetrize_entry.
    destruct (Dict.key_eqb G origin) eqn:E.
    + simpl. rewrite E. rewrite DictFacts.set_append by assumption.
      rewrite IH by (auto using Hnext). rewrite <- app_assoc. reflexivity.
    + simpl. rewrite E.
      destruct HG as [->|Hpos]; [rewrite DictFacts.key_eqb_refl in E; discriminate|].
      rewrite (proj2 (first_nonzero_positive_spec G) Hpos).
      assert (En : Dict.key_eqb (neg_G G) origin = false).
      { apply DictFacts.key_eqb_neq. intros Hn. apply DictFacts.key_eqb_neq in E.
        apply E. rewrite <- (neg_G_involutive G), Hn. reflexivity. }
      assert (Ep : first_nonzero_positive (neg_G G) = false).
      { destruct (first_nonzero_positive (neg_G G)) eqn:Ep; [|reflexivity].
        apply first_nonzero_positive_spec in Ep.
        exfalso. apply (@leading_positive_neg G); assumption. }
      rewrite En, Ep. rewrite DictFacts.set_append by assumption.
      rewrite IH by (auto using Hnext). rewrite <- app_assoc. reflexivity.
Qed.

Lemma symmetrized_rect n hop :
  Forall (Mat.rect n n) (Dict.values hop) ->
  Forall (Mat.rect n n) (Dict.values (symmetrized hop)).
Proof.
  unfold Dict.values, symmetrized. rewrite map_map, !Forall_map.
  apply Forall_impl. intros [G h] Hh. unfold symmetrize_entry. simpl in Hh.
  destruct (Dict.key_eqb G origin); simpl; [|assumption].
  apply MatFacts.rect_map. apply rect_symmetric_part. assumption.
Qed.

(** Half of the double of a Hermitian block is the block. *)
Lemma half_double_hermitian n h :
  Mat.rect n n h -> hermitian h ->
  Mat.scale (1/2) (Mat.pointwise Cx.add h (dagger h)) = h.
Proof.
  intros Hh Hherm. rewrite Hherm.
  apply (@MatFacts.ext n n); [apply MatFacts.rect_map, MatFacts.rect_pointwise | |];
    try assumption.
  intros i j Hi Hj. unfold Mat.scale.
  rewrite (MatFacts.get_map _ (MatFacts.rect_pointwise Cx.add h Hh) Hi Hj).
  rewrite (MatFacts.get_pointwise _ _ Hh Hi Hj). apply CxFacts.scale_half_double.
Qed.

Lemma symmetrized_hermitian n hop :
  Dict.wf hop -> Forall (Mat.rect n n) (Dict.values hop) ->
  (forall h0, Dict.get hop origin = Some h0 -> hermitian h0) ->
  symmetrized hop = hop.
Proof.
  intros Hwf Hrect Hherm.
  assert (H : forall G h, In (G, h) hop -> symmetrize_entry (G, h) = (G, h)).
  { intros G h Hin. unfold symmetrize_entry.
    destruct (Dict.key_eqb G origin) eqn:E; [|reflexivity].
    apply DictFacts.key_eqb_eq in E. subst G. f_equal.
    apply (@half_double_hermitian n); [apply (values_in _ _ _ Hrect Hin)|].
    apply Hherm. apply DictFacts.in_get; assumption. }
  unfold symmetrized. clear Hwf Hrect Hherm.
  induction hop as [|[G h] hop IH]; cbn [map]; [reflexivity|].
  rewrite (H G h) by (left; reflexivity). f_equal. apply IH.
  intros G' h' Hin. apply H. right. assumption.
Qed.

(** What the round trip returns. *)
Lemma roundtrip_outcome m tol :
  valid m -> (0 <= tol)%R ->
  roundtrip m tol = Ok (with_hoppings m (symmetrized (hoppings m))).
Proof.
  intros Hv Htol. unfold roundtrip.
  assert (Hpos : init_positions (size m) (Some (pos m)) (expand (hoppings m))
                 = Ok (pos m, expand (hoppings m))).
  { unfold init_positions. rewrite (valid_pos_length Hv), Nat.eqb_refl. unfold _map_to_uc.
    rewrite (proj2 (fast_path_home (pos m)) (valid_pos_home Hv)). reflexivity. }
  rewrite (@Model_init_unfold (expand (hoppings m)) (Some (size m)) (occ m) (Some (pos m))
             (uc m) true tol (size m) (pos m) (expand (hoppings m)) eq_refl Hpos).
  unfold _reduce_hoppings.
  rewrite (@check_loop_within (expand (hoppings m)) tol (expand (hoppings m))
             (expand_within (valid_keys Hv) (valid_canonical Hv) (valid_shapes Hv) Htol)).
  cbn [bind].
  rewrite (@reduce_expand (hoppings m) [] (valid_keys Hv) (valid_canonical Hv)).
  cbn [app bind].
  rewrite (proj2 (check_shape_ok (size m) (symmetrized (hoppings m)))
                 (@symmetrized_rect (size m) (hoppings m) (valid_shapes Hv))).
  reflexivity.
Qed.

Lemma imaginary_on_site_valid : valid Examples.imaginary_on_site.
Proof.
  constructor; simpl.
  - repeat constructor. simpl. tauto.
  - intros G [<-|[]]. left. reflexivity.
  - repeat constructor.
  - reflexivity.
  - repeat constructor. apply origin_in_home_cell.
Qed.

(** C7, as stated, fails on a model whose stored block at (0,0,0) is not
    Hermitian: the round trip returns the Hermitian average of that block. *)
Lemma roundtrip_changes_on_site_block :
  Model_init [((0, 0, 0)%Z, Examples.m1 (0, 1)%R)] None None None None false
             default_cc_tolerance = Ok Examples.imaginary_on_site /\
  valid Examples.imaginary_on_site /\
  exists m', roundtrip Examples.imaginary_on_site default_cc_tolerance = Ok m' /\
             hoppings m' <> hoppings Examples.imaginary_on_site.
Proof.
  split; [reflexivity|]. split; [apply imaginary_on_site_valid|].
  eexists. split.
  - apply roundtrip_outcome; [apply imaginary_on_site_valid|].
    apply default_cc_tolerance_small.
  - simpl. intros H. injection H as H. lra.
Qed.

(** C7, amended.  For every valid model, constructing a model from the
    fully expanded table with [contains_cc=True] yields the same size, occ,
    pos and uc, the same keys in the same order and the same matrices,
    except that the block at (0,0,0) becomes its Hermitian average
    [(h + h^dagger)/2]; so the canonical table is identical to the
    original whenever the stored block at (0,0,0) is Hermitian or absent. *)
Theorem roundtrip_canonical_table m tol :
  valid m -> (0 <= tol)%R ->
  roundtrip m tol = Ok (with_hoppings m (symmetrized (hoppings m))) /\
  ((forall h0, Dict.get (hoppings m) origin = Some h0 -> hermitian h0) ->
   roundtrip m tol = Ok m).
Proof.
  intros Hv Htol. split; [apply roundtrip_outcome; assumption|].
  intros Hherm. rewrite (roundtrip_outcome Hv Htol).
  rewrite (symmetrized_hermitian (valid_keys Hv) (valid_shapes Hv) Hherm).
  rewrite with_hoppings_same. reflexivity.
Qed.

Lemma on_site_chain_valid : valid Examples.on_site_chain.
Proof.
  constructor; simpl.
  - repeat constructor; simpl; [intros [H|[]]; discriminate | tauto].
  - intros G [<-|[<-|[]]]; [left; reflexivity | right; simpl; lia].
  - repeat constructor.
  - reflexivity.
  - repeat constructor. apply origin_in_home_cell.
Qed.

Lemma roundtrip_canonical_table_witness :
  roundtrip Examples.on_site_chain default_cc_tolerance = Ok Examples.on_site_chain.
Proof.
  refine (proj2 (@roundtrip_canonical_table Examples.on_site_chain default_cc_tolerance
                   on_site_chain_valid (proj1 default_cc_tolerance_small)) _).
  intros h0 [= <-]. unfold hermitian.
  change (dagger (Examples.m1 Cx.one)) with (Examples.m1 (Cx.conj Cx.one)).
  apply (f_equal Examples.m1). apply CxFacts.eq_intro; simpl; ring.
Defined.

(** ** [add] (C6) *)

Lemma coords_match_spec v1 v2 :
  coords_match (vec3_list v1) (vec3_list v2) = false <-> coords_differ v1 v2.
Proof.
  destruct v1 as [[x1 y1] z1], v2 as [[x2 y2] z2]. unfold coords_match, coords_differ.
  simpl.
  destruct (Rgt_dec (Rabs (x1 - x2)) add_tolerance);
    destruct (Rgt_dec (Rabs (y1 - y2)) add_tolerance);
    destruct (Rgt_dec (Rabs (z1 - z2)) add_tolerance); simpl;
    split; intros H; try reflexivity; try discriminate; tauto.
Qed.

Lemma vectors_match_spec l1 l2 : vectors_match l1 l2 = false <-> vectors_differ l1 l2.
Proof.
  unfold vectors_match, vectors_differ. revert l2.
  induction l1 as [|v1 l1 IH]; intros l2.
  - simpl. split; [discriminate|]. intros [i [a [b [H _]]]]. destruct i; discriminate.
  - destruct l2 as [|v2 l2].
    + simpl. split; [discriminate|]. intros [i [a [b [_ [H _]]]]]. destruct i; discriminate.
    + cbn [combine forallb fst snd]. rewrite andb_false_iff, coords_match_spec, IH. split.
      * intros [H|[i [a [b [Ha [Hb H]]]]]].
        -- exists 0%nat, v1, v2. auto.
        -- exists (S i), a, b. auto.
      * intros [[|i] [a [b [Ha [Hb H]]]]].
        -- left. simpl in Ha, Hb. congruence.
        -- right. exists i, a, b. auto.
Qed.

Lemma uc_match_spec uc1 uc2 : uc_match uc1 uc2 = false <-> uc_differ uc1 uc2.
Proof.
  unfold uc_match, uc_differ. destruct uc1, uc2; try apply vectors_match_spec;
    split; intros; try discriminate; try contradiction; auto.
Qed.

Lemma vectors_match_refl l : vectors_match l l = true.
Proof.
  destruct (vectors_match l l) eqn:E; [reflexivity|].
  apply vectors_match_spec in E. destruct E as [i [a [b [Ha [Hb H]]]]].
  assert (a = b) by congruence. subst b. destruct a as [[x y] z]. unfold coords_differ in H.
  unfold add_tolerance in H.
  replace (x - x)%R with 0%R in H by ring. replace (y - y)%R with 0%R in H by ring.
  replace (z - z)%R with 0%R in H by ring. rewrite Rabs_R0 in H. lra.
Qed.

Lemma option_Z_eqb_spec a b : option_Z_eqb a b = true <-> a = b.
Proof.
  destruct a, b; simpl; try rewrite Z.eqb_eq; split; intros H; congruence.
Qed.

(** The four checks of [add], in their order. *)
Lemma add_checks self model :
  (occ self <> occ model ->
   snd (add self (IsModel model)) = Err (ValueError (OccMismatch (occ self) (occ model)))) /\
  (occ self = occ model -> size self <> size model ->
   snd (add self (IsModel model)) = Err TypeError) /\
  (occ self = occ model -> size self = size model -> uc_differ (uc self) (uc model) ->
   snd (add self (IsModel model)) = Err (ValueError (UcMismatch (uc self) (uc model)))) /\
  (occ self = occ model -> size self = size model -> ~ uc_differ (uc self) (uc model) ->
   vectors_differ (pos self) (pos model) ->
   snd (add self (IsModel model)) = Err (ValueError (PosMismatch (pos self) (pos model)))).
Proof.
  unfold add, add_outcome. cbn [snd].
  destruct (option_Z_eqb (occ self) (occ model)) eqn:Eocc.
  2: { split; [reflexivity|]. apply not_true_iff_false in Eocc.
       rewrite option_Z_eqb_spec in Eocc. repeat split; intros; contradiction. }
  apply option_Z_eqb_spec in Eocc. split; [intros; contradiction|]. cbn [negb].
  destruct (Nat.eqb_spec (size self) (size model)) as [Esz|Esz].
  2: { split; [reflexivity|]. repeat split; intros; contradiction. }
  split; [intros; contradiction|]. cbn [negb].
  destruct (uc_match (uc self) (uc model)) eqn:Euc.
  2: { split; [reflexivity|]. apply uc_match_spec in Euc. intros; contradiction. }
  split.
  { intros _ _ H. apply uc_match_spec in H. congruence. }
  cbn [negb]. intros _ _ _ H. apply vectors_match_spec in H. rewrite H. reflexivity.
Qed.

(** *** The sum of two tables *)

Lemma table_sum_subset a b :
  (forall G, In G (Dict.keys b) -> In G (Dict.keys a)) ->
  table_sum a b = map (merge_entry b) a.
Proof.
  intros Hsub. unfold table_sum.
  replace (filter _ b) with (@nil (LatticeVector * matrix)); [apply app_nil_r|].
  symmetry. induction b as [|[G h] b IH]; [reflexivity|]. simpl.
  destruct (Dict.get a G) eqn:E.
  - apply IH. intros G' HG'. apply Hsub. right. assumption.
  - exfalso. apply DictFacts.get_none in E. apply E. apply Hsub. left. reflexivity.
Qed.

Lemma keys_merge a b : Dict.keys (map (merge_entry b) a) = Dict.keys a.
Proof. unfold Dict.keys. rewrite map_map. reflexivity. Qed.

Lemma merge_nil a : map (merge_entry []) a = a.
Proof.
  induction a as [|[G h] a IH]; simpl; [reflexivity|]. rewrite IH. reflexivity.
Qed.

Lemma get_merge a b G :
  Dict.get (map (merge_entry b) a) G =
  match Dict.get a G with
  | Some h => Some (snd (merge_entry b (G, h)))
  | None => None
  end.
Proof.
  induction a as [|[K hk] a IH]; simpl; [reflexivity|].
  destruct (Dict.key_eqb G K) eqn:E; [|assumption].
  apply DictFacts.key_eqb_eq in E. subst. reflexivity.
Qed.

Lemma merge_ext a b b' :
  (forall K, In K (Dict.keys a) -> Dict.get b K = Dict.get b' K) ->
  map (merge_entry b) a = map (merge_entry b') a.
Proof.
  intros H. apply map_ext_in. intros [K hk] Hin. unfold merge_entry. simpl.
  rewrite H; [reflexivity|]. apply in_keys_exists. eauto.
Qed.

Lemma get_app_single (l : dict matrix) G h K :
  Dict.get l G = None ->
  Dict.get (l ++ [(G, h)]) K = if Dict.key_eqb K G then Some h else Dict.get l K.
Proof.
  intros Hnone. induction l as [|[K' h'] l IH]; simpl.
  - reflexivity.
  - simpl in Hnone. destruct (Dict.key_eqb G K') eqn:EG; [discriminate|].
    destruct (Dict.key_eqb K K') eqn:EK.
    + destruct (Dict.key_eqb K G) eqn:E; [|reflexivity].
      apply DictFacts.key_eqb_eq in E. apply DictFacts.key_eqb_eq in EK. subst.
      rewrite DictFacts.key_eqb_refl in EG. discriminate.
    + apply IH. assumption.
Qed.

Lemma set_merge a l1 G h h' :
  Dict.wf a -> Dict.get l1 G = None -> Dict.get a G = Some h ->
  Dict.set (map (merge_entry l1) a) G (Mat.pointwise Cx.add h h')
  = map (merge_entry (l1 ++ [(G, h')])) a.
Proof.
  intros Hwf Hnone. induction a as [|[K hk] a IH]; intros Hget; [discriminate|].
  unfold Dict.wf in Hwf. simpl in Hwf. inversion Hwf as [|? ? Hfresh Hwf']; subst.
  simpl in Hget. cbn [map].
  change (merge_entry l1 (K, hk)) with (K, snd (merge_entry l1 (K, hk))).
  cbn [Dict.set].
  assert (Hhead : merge_entry (l1 ++ [(G, h')]) (K, hk)
                  = (K, match (if Dict.key_eqb K G then Some h' else Dict.get l1 K) with
                        | Some x => Mat.pointwise Cx.add hk x
                        | None => hk
                        end)).
  { unfold merge_entry. cbn [fst snd]. rewrite (@get_app_single l1 G h' K Hnone).
    reflexivity. }
  rewrite Hhead, (DictFacts.key_eqb_sym K G).
  destruct (Dict.key_eqb G K) eqn:E.
  - apply DictFacts.key_eqb_eq in E. subst K. injection Hget as ->.
    f_equal. apply merge_ext. intros K HK.
    rewrite (@get_app_single l1 G h' K Hnone).
    destruct (Dict.key_eqb K G) eqn:EK; [|reflexivity].
    apply DictFacts.key_eqb_eq in EK. subst. contradiction.
  - f_equal. apply IH; assumption.
Qed.

(** The loop of [add], when the left table stores every key of the right. *)
Lemma add_loop n a l2 : forall l1,
  Dict.wf a -> shaped n a -> Dict.wf (l1 ++ l2) -> shaped n l2 ->
  (forall G, In G (Dict.keys l2) -> In G (Dict.keys a)) ->
  foldM add_into l2 (map (merge_entry l1) a) = Ok (map (merge_entry (l1 ++ l2)) a).
Proof.
  induction l2 as [|[G h'] l2 IH]; intros l1 Hwfa Ha Hwf Hl2 Hsub; cbn [foldM].
  - rewrite app_nil_r. reflexivity.
  - assert (Hnone : Dict.get l1 G = None).
    { apply DictFacts.get_none. unfold Dict.wf in Hwf. rewrite keys_app in Hwf.
      simpl in Hwf. apply NoDup_remove_2 in Hwf. intros Hin. apply Hwf.
      apply in_or_app. left. assumption. }
    destruct (Dict.get a G) as [h|] eqn:Hget.
    2: { exfalso. apply DictFacts.get_none in Hget. apply Hget. apply Hsub.
         left. reflexivity. }
    inversion Hl2 as [|? ? Hh' Hrest]; subst. simpl in Hh'.
    pose proof (@values_in _ _ a G h Ha (@DictFacts.get_some_in _ a G h Hget)) as Hh.
    unfold add_into. cbn [fst snd]. unfold Dict.lookup.
    rewrite get_merge, Hget. unfold merge_entry at 1. cbn [fst snd]. rewrite Hnone.
    cbn [bind]. rewrite (MatFacts.add_rect Hh Hh'). cbn [bind].
    rewrite (@set_merge a l1 G h h' Hwfa Hnone Hget).
    rewrite IH; try assumption.
    + rewrite <- app_assoc. reflexivity.
    + rewrite <- app_assoc. assumption.
    + intros K HK. apply Hsub. right. assumption.
Qed.

Lemma shaped_merge n a b :
  shaped n a -> shaped n b -> shaped n (map (merge_entry b) a).
Proof.
  intros Ha Hb. unfold shaped, Dict.values in *. rewrite map_map, Forall_map.
  rewrite Forall_map in Ha. eapply Forall_impl; [|exact Ha].
  intros [G h] Hh. unfold merge_entry. cbn [fst snd] in *.
  destruct (Dict.get b G) eqn:E; [|assumption].
  apply MatFacts.rect_pointwise. assumption.
Qed.

(** When the four checks pass and the left operand stores every key of the
    right one, [add] returns the left model with the summed table. *)
Lemma add_returns_sum self model :
  valid self -> valid model -> hoppings self <> [] ->
  occ self = occ model -> size self = size model ->
  ~ uc_differ (uc self) (uc model) -> ~ vectors_differ (pos self) (pos model) ->
  (forall G, In G (Dict.keys (hoppings model)) -> In G (Dict.keys (hoppings self))) ->
  snd (add self (IsModel model))
  = Ok (with_hoppings self (table_sum (hoppings self) (hoppings model))).
Proof.
  intros Hv Hvm Hne Hocc Hsize Huc Hpos Hsub.
  rewrite (@table_sum_subset (hoppings self) (hoppings model) Hsub).
  unfold add, add_outcome. cbn [snd].
  rewrite (proj2 (option_Z_eqb_spec _ _) Hocc), Hsize, Nat.eqb_refl. cbn [negb].
  destruct (uc_match (uc self) (uc model)) eqn:Eu;
    [|apply uc_match_spec in Eu; contradiction].
  destruct (vectors_match (pos self) (pos model)) eqn:Ep;
    [|apply vectors_match_spec in Ep; contradiction].
  cbn [negb].
  pose proof (@add_loop (size self) (hoppings self) (hoppings model) []
                (valid_keys Hv) (valid_shapes Hv) (valid_keys Hvm)) as Hloop.
  rewrite merge_nil in Hloop. rewrite Hloop; clear Hloop.
  - cbn [bind app].
    set (m' := with_hoppings self (map (merge_entry (hoppings model)) (hoppings self))).
    apply (@Model_init_reconstructs m' default_cc_tolerance).
    + constructor; unfold m'; simpl.
      * unfold Dict.wf. rewrite keys_merge. apply (valid_keys Hv).
      * unfold keys_canonical. rewrite keys_merge. apply (valid_canonical Hv).
      * apply shaped_merge; [apply (valid_shapes Hv)|].
        rewrite Hsize. apply (valid_shapes Hvm).
      * apply (valid_pos_length Hv).
      * apply (valid_pos_home Hv).
    + unfold m'. simpl. destruct (hoppings self); [congruence | discriminate].
  - rewrite Hsize. apply (valid_shapes Hvm).
  - assumption.
Qed.

(** The loop of [add] raises [KeyError] at the first key of the right table
    that the left table does not store. *)
Lemma add_loop_missing n a l2 : forall l1,
  Dict.wf a -> shaped n a -> Dict.wf (l1 ++ l2) -> shaped n l2 ->
  (exists G, In G (Dict.keys l2) /\ ~ In G (Dict.keys a)) ->
  exists G, In G (Dict.keys l2) /\ ~ In G (Dict.keys a) /\
            foldM add_into l2 (map (merge_entry l1) a) = Err (KeyError G).
Proof.
  induction l2 as [|[G h'] l2 IH]; intros l1 Hwfa Ha Hwf Hl2 [G0 [HG0 Hno]];
    [destruct HG0|]. cbn [foldM].
  inversion Hl2 as [|? ? Hh' Hrest]; subst. simpl in Hh'.
  destruct (Dict.get a G) as [h|] eqn:Hget.
  - assert (Hnone : Dict.get l1 G = None).
    { apply DictFacts.get_none. unfold Dict.wf in Hwf. rewrite keys_app in Hwf.
      simpl in Hwf. apply NoDup_remove_2 in Hwf. intros Hin. apply Hwf.
      apply in_or_app. left. assumption. }
    pose proof (@values_in _ _ a G h Ha (@DictFacts.get_some_in _ a G h Hget)) as Hh.
    unfold add_into. cbn [fst snd]. unfold Dict.lookup.
    rewrite get_merge, Hget. unfold merge_entry at 1. cbn [fst snd]. rewrite Hnone.
    cbn [bind]. rewrite (MatFacts.add_rect Hh Hh'). cbn [bind].
    rewrite (@set_merge a l1 G h h' Hwfa Hnone Hget).
    destruct (IH (l1 ++ [(G, h')])) as [G1 [H1 [H2 H3]]]; try assumption.
    + rewrite <- app_assoc. assumption.
    + exists G0. split; [|assumption]. simpl in HG0. destruct HG0 as [<-|HG0]; [|assumption].
      exfalso. apply Hno. apply DictFacts.get_in_keys. congruence.
    + exists G1. split; [right; assumption|]. split; assumption.
  - exists G. split; [left; reflexivity|]. split; [apply DictFacts.get_none; assumption|].
    unfold add_into. cbn [fst snd]. unfold Dict.lookup. rewrite get_merge, Hget.
    reflexivity.
Qed.

Lemma add_raises_key_error self model :
  valid self -> valid model ->
  occ self = occ model -> size self = size model ->
  ~ uc_differ (uc self) (uc model) -> ~ vectors_differ (pos self) (pos model) ->
  (exists G, In G (Dict.keys (hoppings model)) /\ ~ In G (Dict.keys (hoppings self))) ->
  exists G, In G (Dict.keys (hoppings model)) /\ ~ In G (Dict.keys (hoppings self)) /\
            snd (add self (IsModel model)) = Err (KeyError G).
Proof.
  intros Hv Hvm Hocc Hsize Huc Hpos Hmiss.
  unfold add, add_outcome. cbn [snd].
  rewrite (proj2 (option_Z_eqb_spec _ _) Hocc), Hsize, Nat.eqb_refl. cbn [negb].
  destruct (uc_match (uc self) (uc model)) eqn:Eu;
    [|apply uc_match_spec in Eu; contradiction].
  destruct (vectors_match (pos self) (pos model)) eqn:Ep;
    [|apply vectors_match_spec in Ep; contradiction].
  cbn [negb].
  destruct (@add_loop_missing (size self) (hoppings self) (hoppings model) []
              (valid_keys Hv) (valid_shapes Hv) (valid_keys Hvm))
    as [G [H1 [H2 H3]]].
  - rewrite Hsize. apply (valid_shapes Hvm).
  - assumption.
  - rewrite merge_nil in H3. rewrite H3. exists G. auto.
Qed.

(** C6.  [add] reports an occupation, unit-cell or position mismatch with
    a [ValueError] that carries both operands' values.  It does not do so
    for a size mismatch: building the message calls [len] on an integer and
    raises [TypeError].  With all four checks passed it returns the sum of
    the tables when the left operand stores every key of the right one (and
    at least one key), and raises [KeyError] at the first key of the right
    operand that the left one does not store. *)
Theorem add_checks_and_failures :
  (forall self model,
      (occ self <> occ model ->
       snd (add self (IsModel model))
       = Err (ValueError (OccMismatch (occ self) (occ model)))) /\
      (occ self = occ model -> size self <> size model ->
       snd (add self (IsModel model)) = Err TypeError) /\
      (occ self = occ model -> size self = size model -> uc_differ (uc self) (uc model) ->
       snd (add self (IsModel model))
       = Err (ValueError (UcMismatch (uc self) (uc model)))) /\
      (occ self = occ model -> size self = size model -> ~ uc_differ (uc self) (uc model) ->
       vectors_differ (pos self) (pos model) ->
       snd (add self (IsModel model))
       = Err (ValueError (PosMismatch (pos self) (pos model))))) /\
  (forall self model,
      valid self -> valid model ->
      occ self = occ model -> size self = size model ->
      ~ uc_differ (uc self) (uc model) -> ~ vectors_differ (pos self) (pos model) ->
      ((forall G, In G (Dict.keys (hoppings model)) -> In G (Dict.keys (hoppings self))) ->
       hoppings self <> [] ->
       snd (add self (IsModel model))
       = Ok (with_hoppings self (table_sum (hoppings self) (hoppings model)))) /\
      ((exists G, In G (Dict.keys (hoppings model)) /\ ~ In G (Dict.keys (hoppings self))) ->
       exists G, In G (Dict.keys (hoppings model)) /\ ~ In G (Dict.keys (hoppings self)) /\
                 snd (add self (IsModel model)) = Err (KeyError G))) /\
  snd (add Examples.chain (IsModel Examples.two_site)) = Err TypeError /\
  snd (add Examples.chain (IsModel Examples.on_site_chain)) = Err (KeyError origin).
Proof.
  split; [apply add_checks|]. split.
  { intros self model Hv Hvm Hocc Hsize Huc Hpos. split.
    - intros Hsub Hne. apply add_returns_sum; assumption.
    - intros Hmiss. apply add_raises_key_error; assumption. }
  split; [reflexivity|].
  assert (E : vectors_match (pos Examples.chain) (pos Examples.on_site_chain) = true)
    by apply vectors_match_refl.
  unfold add, add_outcome. cbn [snd]. rewrite E. reflexivity.
Qed.

Lemma add_checks_and_failures_witness :
  snd (add Examples.chain (IsModel Examples.two_site)) = Err TypeError.
Proof.
  refine (proj1 (proj2 (proj1 add_checks_and_failures Examples.chain Examples.two_site))
                eq_refl _).
  discriminate.
Defined.

(** ** [supercell] (C3) *)

Lemma length_enumerate {A} (l : list A) : length (enumerate l) = length l.
Proof. unfold enumerate. rewrite length_combine, length_seq. apply Nat.min_id. Qed.

Lemma in_enumerate_val {A} (l : list A) i x : In (i, x) (enumerate l) -> In x l.
Proof. unfold enumerate. apply in_combine_r. Qed.

Lemma map_enumerate_length {A B} (g : nat * A -> B) (l : list A) :
  length (map g (enumerate l)) = length l.
Proof. rewrite length_map. apply length_enumerate. Qed.

(** An entry update keeps the shape. *)
Lemma rect_upd r c m i j f : Mat.rect r c m -> Mat.rect r c (Mat.upd m i j f).
Proof.
  intros [H1 H2]. unfold Mat.upd. split.
  - rewrite map_enumerate_length. assumption.
  - apply Forall_forall. intros row Hrow. apply in_map_iff in Hrow.
    destruct Hrow as [[a row0] [<- Hin]]. simpl.
    apply in_enumerate_val in Hin. rewrite Forall_forall in H2.
    destruct (a =? i)%nat; [rewrite map_enumerate_length|]; apply H2; assumption.
Qed.

(** The loop over all entries of a table keeps an invariant that its body
    keeps, and does not raise when the body does not. *)
Lemma for_entries_inv {S} (P : S -> Prop)
    (body : S -> LatticeVector -> nat -> nat -> C -> result S) hop :
  (forall s G h i0 row i1 t,
      In (G, h) hop -> In (i0, row) (enumerate h) -> In (i1, t) (enumerate row) ->
      P s -> exists s', body s G i0 i1 t = Ok s' /\ P s') ->
  forall s, P s -> exists s', for_entries body hop s = Ok s' /\ P s'.
Proof.
  intros Hbody. unfold for_entries. apply foldM_inv.
  intros s [G h] HGh Hs. apply foldM_inv; [|assumption].
  intros s1 [i0 row] Hrow Hs1. apply foldM_inv; [|assumption].
  intros s2 [i1 t] Ht Hs2. simpl. eapply Hbody; eassumption.
Qed.

(** What the last turn of a loop establishes holds at the end. *)
Lemma foldM_last {A S} (Q : S -> Prop) (body : S -> A -> result S) l :
  l <> [] -> (forall s a s', body s a = Ok s' -> Q s') ->
  forall s s', foldM body l s = Ok s' -> Q s'.
Proof.
  intros Hne HQ. induction l as [|a l IH]; [congruence|]. intros s s' H. simpl in H.
  apply bind_ok in H. destruct H as [s1 [H1 H2]].
  destruct l as [|b l].
  - simpl in H2. injection H2 as <-. eapply HQ; eassumption.
  - eapply IH; [discriminate | eassumption].
Qed.

Lemma in_range n x : In x (range n) <-> (0 <= x < n)%Z.
Proof.
  unfold range. rewrite in_map_iff. split.
  - intros [k [<- Hk]]. apply in_seq in Hk. lia.
  - intros H. exists (Z.to_nat x). split; [lia|]. apply in_seq. lia.
Qed.

Lemma length_range n : length (range n) = Z.to_nat n.
Proof. unfold range. rewrite length_map, length_seq. reflexivity. Qed.

Lemma in_cells nx ny nz i j k :
  In (i, j, k) (cells (nx, ny, nz)) <-> (0 <= i < nx /\ 0 <= j < ny /\ 0 <= k < nz)%Z.
Proof.
  unfold cells. rewrite in_flat_map. split.
  - intros [i' [Hi H]]. apply in_flat_map in H. destruct H as [j' [Hj H]].
    apply in_map_iff in H. destruct H as [k' [[= <- <- <-] Hk]].
    rewrite in_range in Hi, Hj, Hk. auto.
  - intros [Hi [Hj Hk]]. exists i. split; [apply in_range; assumption|].
    apply in_flat_map. exists j. split; [apply in_range; assumption|].
    apply in_map. apply in_range. assumption.
Qed.

Lemma length_flat_map_const {A B} (f : A -> list B) l c :
  (forall x, In x l -> length (f x) = c) -> length (flat_map f l) = (length l * c)%nat.
Proof.
  induction l as [|x l IH]; intros H; simpl; [reflexivity|].
  rewrite length_app, IH, H; [reflexivity | left; reflexivity |].
  intros y Hy. apply H. right. assumption.
Qed.

Lemma length_cells nx ny nz :
  length (cells (nx, ny, nz)) = (Z.to_nat nx * (Z.to_nat ny * Z.to_nat nz))%nat.
Proof.
  unfold cells. rewrite length_flat_map_const with (c := (Z.to_nat ny * Z.to_nat nz)%nat).
  - rewrite length_range. reflexivity.
  - intros i _. rewrite length_flat_map_const with (c := Z.to_nat nz).
    + rewrite length_range. reflexivity.
    + intros j _. rewrite length_map. apply length_range.
Qed.

(** The flattened index of an orbital of a cell inside the supercell. *)
Lemma flat_index_bound nx ny nz s i j k i0 :
  (0 <= i < nx)%Z -> (0 <= j < ny)%Z -> (0 <= k < nz)%Z -> (0 <= i0 < s)%Z ->
  (0 <= (((i * ny) + j) * nz + k) * s + i0 < s * nx * ny * nz)%Z.
Proof.
  intros Hi Hj Hk H0.
  assert (H1 : (0 <= i * ny + j <= nx * ny - 1)%Z) by nia.
  assert (H2 : (0 <= (i * ny + j) * nz + k <= nx * ny * nz - 1)%Z) by nia.
  nia.
Qed.

Lemma shaped_nil n : shaped n [].
Proof. constructor. Qed.

Lemma shaped_get_default n d G :
  shaped n d -> Mat.rect n n (Dict.get_default d G (Mat.zeros n n)).
Proof.
  intros Hd. unfold Dict.get_default. destruct (Dict.get d G) as [m|] eqn:E.
  - apply DictFacts.get_some_in in E. eapply values_in; eassumption.
  - apply MatFacts.rect_zeros.
Qed.

Lemma shaped_set n d G m : shaped n d -> Mat.rect n n m -> shaped n (Dict.set d G m).
Proof. intros Hd Hm. apply DictFacts.values_set; assumption. Qed.

Lemma pos_to_idx_ok p0 p1 p2 d0 d1 d2 :
  (p0 < d0)%Z -> (p1 < d1)%Z -> (p2 < d2)%Z ->
  _pos_to_idx (p0, p1, p2) (d0, d1, d2) = Ok (((p0 * d1) + p1) * d2 + p2)%Z.
Proof.
  intros H0 H1 H2. unfold _pos_to_idx.
  rewrite (proj2 (Z.leb_gt d0 p0) H0), (proj2 (Z.leb_gt d1 p1) H1),
    (proj2 (Z.leb_gt d2 p2) H2). reflexivity.
Qed.

Lemma np_index_ok n i : (0 <= i < Z.of_nat n)%Z -> np_index n i = Ok (Z.to_nat i).
Proof.
  intros H. unfold np_index.
  rewrite (proj2 (Z.leb_le 0 i)) by lia. rewrite (proj2 (Z.ltb_lt i (Z.of_nat n))) by lia.
  reflexivity.
Qed.

Section SupercellFacts.

Variable self : Model.
Variables nx ny nz : Z.
Variable periodic : list bool.
Hypothesis Hnx : (1 <= nx)%Z.
Hypothesis Hny : (1 <= ny)%Z.
Hypothesis Hnz : (1 <= nz)%Z.

Let dim : LatticeVector := (nx, ny, nz).
Let N : nat := new_size self dim.

Lemma new_size_Z : Z.of_nat N = (Z.of_nat (size self) * nx * ny * nz)%Z.
Proof. unfold N, new_size, dim. rewrite Z2Nat.id; [reflexivity | nia]. Qed.

Lemma new_size_nat : N = (Z.to_nat nx * (Z.to_nat ny * Z.to_nat nz) * size self)%nat.
Proof.
  apply Nat2Z.inj. rewrite new_size_Z.
  rewrite !Nat2Z.inj_mul, !Z2Nat.id by lia. ring.
Qed.

Lemma full_idx_ok i j k i0 :
  (0 <= i < nx)%Z -> (0 <= j < ny)%Z -> (0 <= k < nz)%Z -> (i0 < size self)%nat ->
  exists idx, full_idx self dim (i, j, k) i0 = Ok idx /\ (0 <= idx < Z.of_nat N)%Z.
Proof.
  intros Hi Hj Hk H0. unfold full_idx, dim.
  rewrite pos_to_idx_ok by lia. simpl. eexists. split; [reflexivity|].
  rewrite new_size_Z. apply flat_index_bound; lia.
Qed.

Lemma supercell_entry_ok cell nh G i0 i1 t :
  In cell (cells dim) -> (i0 < size self)%nat -> (i1 < size self)%nat -> shaped N nh ->
  exists nh', supercell_entry self dim periodic cell nh G i0 i1 t = Ok nh' /\ shaped N nh'.
Proof.
  destruct cell as [[i j] k]. intros Hcell H0 H1 Hnh.
  apply in_cells in Hcell. destruct Hcell as [Hi [Hj Hk]].
  unfold supercell_entry.
  destruct (full_idx_ok Hi Hj Hk H0) as [new_i0 [-> Hb0]]. cbn [bind].
  destruct (existsb _ _); [eauto|].
  destruct G as [[g0 g1] g2]. unfold add_G, mod3, dim.
  destruct (@full_idx_ok ((i + g0) mod nx) ((j + g1) mod ny) ((k + g2) mod nz) i1)
    as [new_i1 [E1 Hb1]]; try (apply Z.mod_pos_bound; lia); [assumption|].
  fold dim. rewrite E1. cbn [bind]. unfold np_add_at. fold N.
  rewrite (np_index_ok _ Hb0), (np_index_ok _ Hb1). cbn [bind].
  eexists. split; [reflexivity|].
  apply shaped_set; [assumption|]. apply rect_upd. apply shaped_get_default. assumption.
Qed.

Lemma valid_entry_bounds G h i0 row i1 t :
  valid self -> In (G, h) (hoppings self) -> In (i0, row) (enumerate h) ->
  In (i1, t) (enumerate row) -> (i0 < size self)%nat /\ (i1 < size self)%nat.
Proof.
  intros Hv HG Hrow Ht. pose proof (values_in _ _ _ (valid_shapes Hv) HG) as [Hl Hr].
  split.
  - apply in_enumerate in Hrow. lia.
  - apply in_enumerate in Ht. apply in_enumerate_val in Hrow.
    rewrite Forall_forall in Hr. rewrite <- (Hr row Hrow). assumption.
Qed.

Lemma supercell_hoppings_ok :
  valid self -> exists nh, supercell_hoppings self dim periodic = Ok nh /\ shaped N nh.
Proof.
  intros Hv. unfold supercell_hoppings.
  apply (foldM_inv (shaped N)); [|apply shaped_nil].
  intros nh cell Hcell Hnh. apply (for_entries_inv (shaped N)); [|assumption].
  intros s G h i0 row i1 t HG Hrow Ht Hs.
  destruct (@valid_entry_bounds G h i0 row i1 t Hv HG Hrow Ht) as [H0 H1].
  apply supercell_entry_ok; assumption.
Qed.

Lemma add_passivation_ok m idx v :
  length v = size self ->
  exists m', add_passivation self dim m idx v = Ok m' /\ Mat.rect N N m'.
Proof.
  intros Hv. unfold add_passivation. rewrite Hv, Nat.eqb_refl.
  eexists. split; [reflexivity|]. apply MatFacts.rect_mk.
Qed.

Lemma edge_detect_ok i j k :
  (i < nx)%Z -> (j < ny)%Z -> (k < nz)%Z ->
  exists e, _edge_detect_pos (i, j, k) dim = Ok e.
Proof.
  intros Hi Hj Hk. unfold _edge_detect_pos, dim.
  rewrite (proj2 (Z.leb_gt nx i) Hi), (proj2 (Z.leb_gt ny j) Hj), (proj2 (Z.leb_gt nz k) Hk).
  eexists. reflexivity.
Qed.

Lemma passivation_step_ok f nh cell :
  (forall x y z, length (f x y z) = size self) -> In cell (cells dim) -> shaped N nh ->
  exists nh', passivation_step self dim f nh cell = Ok nh' /\
              shaped N nh' /\ In origin (Dict.keys nh').
Proof.
  intros Hf Hcell Hnh. destruct cell as [[i j] k].
  apply in_cells in Hcell. destruct Hcell as [Hi [Hj Hk]].
  unfold passivation_step. fold dim.
  destruct (@edge_detect_ok i j k) as [[[ex ey] ez] ->]; try lia.
  unfold dim at 1. cbn [bind]. fold N.
  destruct (@add_passivation_ok
              (Dict.get_default nh origin (Mat.zeros N N))
              (Z.to_nat ((i * ny * nz + j * nz + k) * Z.of_nat (size self)))
              (f ex ey ez) (Hf ex ey ez)) as [m' [-> Hm']].
  cbn [bind]. eexists. split; [reflexivity|]. split.
  - apply shaped_set; assumption.
  - apply DictFacts.in_keys_set. left. reflexivity.
Qed.

End SupercellFacts.

(** ** When the constructor succeeds *)

Lemma entry_bounds n hop G h i0 row i1 (t : C) :
  shaped n hop -> In (G, h) hop -> In (i0, row) (enumerate h) ->
  In (i1, t) (enumerate row) -> (i0 < n)%nat /\ (i1 < n)%nat.
Proof.
  intros Hs HG Hrow Ht. pose proof (values_in _ _ _ Hs HG) as [Hl Hr]. split.
  - apply in_enumerate in Hrow. lia.
  - apply in_enumerate in Ht. apply in_enumerate_val in Hrow.
    rewrite Forall_forall in Hr. rewrite <- (Hr row Hrow). assumption.
Qed.

Lemma map_to_uc_entry_ok n offsets nh G i0 i1 t :
  length offsets = n -> (i0 < n)%nat -> (i1 < n)%nat -> shaped n nh ->
  exists nh', map_to_uc_entry n offsets nh G i0 i1 t = Ok nh' /\ shaped n nh'.
Proof.
  intros Hlen H0 H1 Hnh. unfold map_to_uc_entry.
  destruct (Cx.nonzero t); [|eauto].
  destruct (@index_ok _ offsets i1) as [o1 ->]; [lia|].
  destruct (@index_ok _ offsets i0) as [o0 ->]; [lia|]. cbn [bind].
  unfold add_at. rewrite (proj2 (Nat.ltb_lt i0 n) H0), (proj2 (Nat.ltb_lt i1 n) H1).
  cbn [andb bind]. eexists. split; [reflexivity|].
  apply shaped_set; [assumption|]. apply rect_upd. apply shaped_get_default. assumption.
Qed.

Lemma map_to_uc_ok n pos hop :
  length pos = n -> shaped n hop ->
  exists pos' hop', _map_to_uc n pos hop = Ok (pos', hop') /\ shaped n hop'.
Proof.
  intros Hlen Hhop. unfold _map_to_uc. destruct (forallb _ _); [eauto|].
  destruct (@for_entries_inv _ (shaped n) (map_to_uc_entry n (map floor3 pos)) hop)
    with (s := @nil (LatticeVector * matrix)) as [nh [-> Hnh]].
  - intros s G h i0 row i1 t HG Hrow Ht Hs.
    destruct (@entry_bounds n hop G h i0 row i1 t Hhop HG Hrow Ht) as [H0 H1].
    apply map_to_uc_entry_ok; try assumption. rewrite length_map. assumption.
  - apply shaped_nil.
  - cbn [bind]. eauto.
Qed.

Lemma fold_step_ok n nh Gh :
  shaped n nh -> Mat.rect n n (snd Gh) ->
  exists nh', fold_step n nh Gh = Ok nh' /\ shaped n nh'.
Proof.
  intros Hnh Hh. destruct Gh as [G h]. simpl in Hh. unfold fold_step.
  destruct (Dict.key_eqb G origin).
  - eexists. split; [reflexivity|]. apply shaped_set; assumption.
  - destruct (first_nonzero_positive G).
    + rewrite (MatFacts.add_rect (shaped_get_default G Hnh) Hh). cbn [bind].
      eexists. split; [reflexivity|]. apply shaped_set; [assumption|].
      apply MatFacts.rect_pointwise. apply shaped_get_default. assumption.
    + rewrite (MatFacts.add_rect (shaped_get_default (neg_G G) Hnh)
                 (MatFacts.rect_dagger Hh)). cbn [bind].
      eexists. split; [reflexivity|]. apply shaped_set; [assumption|].
      apply MatFacts.rect_pointwise. apply shaped_get_default. assumption.
Qed.

Lemma map_hoppings_positive_G_ok n hop :
  shaped n hop -> exists hop', _map_hoppings_positive_G n hop = Ok hop' /\ shaped n hop'.
Proof.
  intros Hhop. unfold _map_hoppings_positive_G.
  apply (foldM_inv (shaped n)); [|apply shaped_nil].
  intros s Gh HGh Hs. apply fold_step_ok; [assumption|].
  destruct Gh as [G h]. apply (values_in _ _ _ Hhop HGh).
Qed.

(** A non-empty table of [n x n] matrices with [n] positions is accepted
    by the constructor called with [contains_cc=False], and the model has
    [n] orbitals. *)
Lemma Model_init_succeeds n hop oc pos u tol :
  hop <> [] -> shaped n hop -> length pos = n ->
  exists m, Model_init hop None oc (Some pos) u false tol = Ok m /\
            size m = n /\ occ m = oc /\ uc m = u.
Proof.
  intros Hne Hhop Hlen.
  assert (Hsz : init_size hop None = Ok n).
  { destruct hop as [|[G h] rest]; [congruence|]. simpl.
    inversion Hhop as [|? ? [Hh _] _]. unfold Mat.nrows. rewrite Hh. reflexivity. }
  destruct (map_to_uc_ok pos Hlen Hhop) as [pos' [hop1 [Hmap Hhop1]]].
  assert (Hpos : init_positions n (Some pos) hop = Ok (pos', hop1)).
  { unfold init_positions. rewrite Hlen, Nat.eqb_refl. assumption. }
  rewrite (@Model_init_unfold hop None oc (Some pos) u false tol n pos' hop1 Hsz Hpos).
  destruct (map_hoppings_positive_G_ok Hhop1) as [hop2 [-> Hhop2]]. cbn [bind].
  rewrite (proj2 (check_shape_ok n hop2) Hhop2). cbn [bind].
  eexists. split; [reflexivity|]. auto.
Qed.

Lemma in_keys_nonempty {V} (d : dict V) G : In G (Dict.keys d) -> d <> [].
Proof. destruct d; [intros [] | discriminate]. Qed.

(** C3.  For a valid model and dimensions [nx, ny, nz >= 1], [supercell]
    returns a model whose occupation number is [(nx + ny + nz) * occ], or
    unset when [occ] is unset, and whose number of orbitals is
    [size * nx * ny * nz]. *)
Theorem supercell_occ_and_size self nx ny nz periodic passivation :
  valid self -> (1 <= nx)%Z -> (1 <= ny)%Z -> (1 <= nz)%Z ->
  passivation_fits self passivation ->
  exists m, snd (supercell self (nx, ny, nz) periodic passivation) = Ok m /\
            occ m = match occ self with
                    | Some o => Some ((nx + ny + nz) * o)%Z
                    | None => None
                    end /\
            Z.of_nat (size m) = (Z.of_nat (size self) * nx * ny * nz)%Z.
Proof.
  intros Hv Hnx Hny Hnz Hpas. unfold supercell, supercell_outcome. cbn [snd].
  destruct (@supercell_hoppings_ok self nx ny nz periodic Hnx Hny Hnz Hv)
    as [nh1 [-> Hnh1]]. cbn [bind].
  set (f := match passivation with
            | Some g => g
            | None => fun _ _ _ => repeat 0%R (size self)
            end).
  assert (Hf : forall x y z, length (f x y z) = size self).
  { unfold f. destruct passivation as [g|]; [exact Hpas|].
    intros. apply repeat_length. }
  destruct (@foldM_inv _ _ (shaped (new_size self (nx, ny, nz)))
              (passivation_step self (nx, ny, nz) f) (cells (nx, ny, nz)))
    with (s := nh1) as [nh2 [Hloop Hnh2]]; [|assumption|].
  { intros s cell Hcell Hs.
    destruct (@passivation_step_ok self nx ny nz f s cell Hf Hcell Hs)
      as [s' [E [Hs' _]]]. eauto. }
  assert (Horigin : In origin (Dict.keys nh2)).
  { refine (@foldM_last _ _ (fun s => In origin (Dict.keys s))
              (passivation_step self (nx, ny, nz) f) (cells (nx, ny, nz)) _ _ nh1 nh2 Hloop).
    - assert (Hc : In (0, 0, 0)%Z (cells (nx, ny, nz))) by (apply in_cells; lia).
      intros E. rewrite E in Hc. destruct Hc.
    - intros s cell s' E. unfold passivation_step in E.
      destruct cell as [[i j] k].
      apply bind_ok in E. destruct E as [[[ex ey] ez] [_ E]].
      apply bind_ok in E. destruct E as [m' [_ [= <-]]].
      apply DictFacts.in_keys_set. left. reflexivity. }
  rewrite Hloop. cbn [bind].
  match goal with
  | |- exists m, Model_init nh2 None ?oc (Some ?ps) ?u false ?tol = Ok m /\ _ =>
      destruct (@Model_init_succeeds (new_size self (nx, ny, nz)) nh2 oc ps u tol)
        as [m [Hm [Hsize [Hocc _]]]]
  end.
  - apply (@in_keys_nonempty _ nh2 origin Horigin).
  - assumption.
  - rewrite length_flat_map_const with (c := size self).
    + rewrite length_cells, (@new_size_nat self nx ny nz Hnx Hny Hnz). reflexivity.
    + intros cell _. rewrite !length_map. apply (valid_pos_length Hv).
  - exists m. split; [assumption|]. split; [assumption|].
    rewrite Hsize. apply (@new_size_Z self nx ny nz Hnx Hny Hnz).
Qed.

Lemma half_filled_valid : valid Examples.half_filled.
Proof.
  destruct two_site_valid as [H1 H2 H3 H4 H5]. constructor; assumption.
Qed.

Lemma supercell_occ_and_size_witness :
  exists m, snd (supercell Examples.half_filled (2, 3, 1)%Z default_periodic None) = Ok m /\
            occ m = Some 6%Z /\ Z.of_nat (size m) = 12%Z.
Proof.
  refine (@supercell_occ_and_size Examples.half_filled 2 3 1 default_periodic None
            half_filled_valid _ _ _ I); lia.
Defined.

(** ** The single-orbital chain: [hamilton([k, 0, 0])] is [2 cos(2 pi k)] *)

Lemma bloch_phase_x k :
  bloch_phase (1, 0, 0)%Z (k, 0, 0)%R = (cos (2 * PI * k), sin (2 * PI * k))%R.
Proof.
  unfold bloch_phase, Cx.cexp, Cx.scale, vec3_of_G, dot3. cbn [fst snd].
  replace ((1 * k + 0 * 0 + 0 * 0) * (PI * 0))%R with 0%R by ring.
  replace ((1 * k + 0 * 0 + 0 * 0) * (PI * 2))%R with (2 * PI * k)%R by ring.
  rewrite exp_0. f_equal; ring.
Qed.

Lemma chain_dispersion k :
  hamilton Examples.chain (k, 0, 0)%R = Ok (Examples.m1 (2 * cos (2 * PI * k), 0)%R).
Proof.
  unfold hamilton, hamilton_terms, Examples.chain. cbn [hoppings map fst snd].
  rewrite bloch_phase_x. cbn. unfold Examples.m1. do 3 f_equal.
  apply CxFacts.eq_intro; cbn; ring.
Qed.

(** * Further properties of the code *)

(** ** Entry updates *)

Lemma nth_map_enumerate {A B} (g : nat -> A -> B) (l : list A) k (d : A) (d' : B) :
  (k < length l)%nat ->
  nth k (map (fun ix => g (fst ix) (snd ix)) (enumerate l)) d' = g k (nth k l d).
Proof.
  intros Hk. unfold enumerate.
  rewrite nth_indep with (d' := g (fst (0%nat, d)) (snd (0%nat, d)))
    by (rewrite length_map, length_combine, length_seq, Nat.min_id; exact Hk).
  rewrite (map_nth (fun ix => g (fst ix) (snd ix))).
  rewrite combine_nth by apply length_seq.
  rewrite seq_nth by exact Hk. reflexivity.
Qed.

Lemma get_upd r c m i j f a b :
  Mat.rect r c m -> (a < r)%nat -> (b < c)%nat ->
  Mat.get (Mat.upd m i j f) a b
  = if ((a =? i) && (b =? j))%nat then f (Mat.get m a b) else Mat.get m a b.
Proof.
  intros Hm Ha Hb. unfold Mat.get, Mat.upd.
  rewrite (@nth_map_enumerate _ _
             (fun x row => if (x =? i)%nat
                           then map (fun jz => if (fst jz =? j)%nat then f (snd jz)
                                               else snd jz) (enumerate row)
                           else row) m a [] [])
    by (destruct Hm as [Hl _]; lia).
  destruct (a =? i)%nat; [|reflexivity]. cbn [andb].
  rewrite (@nth_map_enumerate _ _ (fun y z => if (y =? j)%nat then f z else z)
             (nth a m []) b Cx.zero Cx.zero)
    by (rewrite (MatFacts.rect_row Hm Ha); exact Hb).
  reflexivity.
Qed.

(** Setting fresh keys in their order appends them. *)
Lemma rebuild_map (g : matrix -> matrix) l2 : forall l1 : dict matrix,
  NoDup (Dict.keys l1 ++ Dict.keys l2) ->
  fold_left (fun d Gh => Dict.set d (fst Gh) (g (snd Gh))) l2 l1 = l1 ++ map_table g l2.
Proof.
  induction l2 as [|[G h] l2 IH]; intros l1 Hnd; simpl.
  - rewrite app_nil_r. reflexivity.
  - rewrite DictFacts.set_append.
    + rewrite IH; [rewrite <- app_assoc; reflexivity|].
      rewrite keys_app, <- app_assoc. exact Hnd.
    + simpl in Hnd. apply NoDup_remove_2 in Hnd. intros Hin. apply Hnd.
      apply in_or_app. left. assumption.
Qed.

Lemma keys_map_table g h : Dict.keys (map_table g h) = Dict.keys h.
Proof. unfold Dict.keys, map_table. rewrite map_map. reflexivity. Qed.

Lemma shaped_map_table n n' g h :
  (forall x, Mat.rect n n x -> Mat.rect n' n' (g x)) ->
  shaped n h -> shaped n' (map_table g h).
Proof.
  intros Hg Hh. unfold shaped, Dict.values, map_table in *. rewrite map_map, Forall_map.
  rewrite Forall_map in Hh. eapply Forall_impl; [|exact Hh].
  intros [G x] Hx. apply Hg. assumption.
Qed.

Lemma map_table_nonempty g h : h <> [] -> map_table g h <> [].
Proof. destruct h; [congruence | discriminate]. Qed.

(** A valid model stays valid when every matrix is replaced by one of the
    same shape. *)
Lemma valid_map_table m g :
  valid m -> (forall x, Mat.rect (size m) (size m) x -> Mat.rect (size m) (size m) (g x)) ->
  valid (with_hoppings m (map_table g (hoppings m))).
Proof.
  intros Hv Hg. constructor; simpl.
  - unfold Dict.wf. rewrite keys_map_table. apply (valid_keys Hv).
  - unfold keys_canonical. rewrite keys_map_table. apply (valid_canonical Hv).
  - apply (@shaped_map_table (size m) (size m) g (hoppings m) Hg (valid_shapes Hv)).
  - apply (valid_pos_length Hv).
  - apply (valid_pos_home Hv).
Qed.

(** ** Multiplication by a constant *)

Lemma mul_outcome m x :
  valid m -> hoppings m <> [] ->
  snd (mul m x) = Ok (with_hoppings m (map_table (Mat.scale x) (hoppings m))).
Proof.
  intros Hv Hne. unfold mul. cbn [snd].
  rewrite (@rebuild_map (Mat.scale x) (hoppings m) [] (valid_keys Hv)). cbn [app].
  apply (@Model_init_reconstructs
           (with_hoppings m (map_table (Mat.scale x) (hoppings m))) default_cc_tolerance).
  - apply valid_map_table; [assumption|]. intros h Hh. apply MatFacts.rect_map. assumption.
  - apply map_table_nonempty. assumption.
Qed.

Lemma map_table_compose f g h : map_table g (map_table f h) = map_table (fun x => g (f x)) h.
Proof. unfold map_table. rewrite map_map. reflexivity. Qed.

Lemma map_table_ext n f g h :
  shaped n h -> (forall x, Mat.rect n n x -> f x = g x) -> map_table f h = map_table g h.
Proof.
  intros Hh Hfg. unfold map_table. apply map_ext_in. intros [G x] Hin. simpl.
  rewrite Hfg; [reflexivity|]. apply (@values_in _ _ h G x Hh Hin).
Qed.

Lemma map_table_id h : map_table (fun x => x) h = h.
Proof.
  unfold map_table. induction h as [|[G x] h IH]; simpl; [reflexivity|].
  rewrite IH. reflexivity.
Qed.

Lemma get_map_table g h G : Dict.get (map_table g h) G = option_map g (Dict.get h G).
Proof.
  induction h as [|[K x] h IH]; simpl; [reflexivity|].
  destruct (Dict.key_eqb G K); [reflexivity | assumption].
Qed.

Lemma with_hoppings_twice m h h' : with_hoppings (with_hoppings m h) h' = with_hoppings m h'.
Proof. reflexivity. Qed.

Lemma scale_one h : Mat.scale 1 h = h.
Proof.
  unfold Mat.scale. apply MatFacts.map_id_ext. intros z.
  apply CxFacts.eq_intro; simpl; ring.
Qed.

Lemma scale_scale x y h : Mat.scale y (Mat.scale x h) = Mat.scale (x * y) h.
Proof.
  unfold Mat.scale. rewrite map_map. apply map_ext. intros row. rewrite map_map.
  apply map_ext. intros z. apply CxFacts.eq_intro; simpl; ring.
Qed.

Lemma scale_zero n h : Mat.rect n n h -> Mat.scale 0 h = Mat.zeros n n.
Proof.
  intros Hh. apply (@MatFacts.ext n n); [apply MatFacts.rect_map; assumption
                                        | apply MatFacts.rect_zeros |].
  intros i j Hi Hj. unfold Mat.scale. rewrite (MatFacts.get_map _ Hh Hi Hj).
  unfold Mat.zeros. rewrite MatFacts.get_mk by assumption.
  apply CxFacts.eq_intro; simpl; ring.
Qed.

Lemma add_scale_minus_one n h :
  Mat.rect n n h -> Mat.pointwise Cx.add h (Mat.scale (-1) h) = Mat.zeros n n.
Proof.
  intros Hh. apply (@MatFacts.ext n n); [apply MatFacts.rect_pointwise; assumption
                                        | apply MatFacts.rect_zeros |].
  intros i j Hi Hj. rewrite (MatFacts.get_pointwise _ _ Hh Hi Hj). unfold Mat.scale.
  rewrite (MatFacts.get_map _ Hh Hi Hj). unfold Mat.zeros.
  rewrite MatFacts.get_mk by assumption. apply CxFacts.eq_intro; simpl; ring.
Qed.

Lemma vectors_differ_irrefl l : ~ vectors_differ l l.
Proof.
  intros H. apply vectors_match_spec in H. rewrite vectors_match_refl in H. discriminate.
Qed.

Lemma uc_differ_irrefl u : ~ uc_differ u u.
Proof.
  destruct u as [u|]; simpl; [apply vectors_differ_irrefl | tauto].
Qed.

(** X1.  On a valid model that stores at least one key, multiplication by
    [x] returns the model in which every hopping matrix is multiplied by
    [x], entry by entry: the keys and their order, pos, occ, uc and size
    are those of the source, and the source is unchanged. *)
Theorem mul_scales_every_matrix m x :
  valid m -> hoppings m <> [] ->
  mul m x = (m, Ok (with_hoppings m (map_table (Mat.scale x) (hoppings m)))) /\
  rmul m x = mul m x.
Proof.
  intros Hv Hne. split; [|reflexivity].
  rewrite (surjective_pairing (mul m x)). f_equal. apply mul_outcome; assumption.
Qed.

Lemma mul_scales_every_matrix_witness :
  snd (mul Examples.two_site 3) =
  Ok (with_hoppings Examples.two_site
        (map_table (Mat.scale 3) (hoppings Examples.two_site))).
Proof.
  refine (f_equal snd (proj1 (@mul_scales_every_matrix Examples.two_site 3%R
                                two_site_valid _))).
  discriminate.
Defined.

(** X2.  The laws of scaling on a valid model that stores at least one
    key: [m * 1] is [m]; scaling by [x] and then by [y] is scaling by
    [x * y]; negating twice gives [m] back; and dividing [m * x] by a
    non-zero [x] gives [m] back. *)
Theorem scaling_laws m :
  valid m -> hoppings m <> [] ->
  snd (mul m 1) = Ok m /\
  (forall x y, exists m1, snd (mul m x) = Ok m1 /\ snd (mul m1 y) = snd (mul m (x * y)%R)) /\
  (exists m1, snd (neg m) = Ok m1 /\ snd (neg m1) = Ok m) /\
  (forall x, x <> 0%R -> exists m1, snd (mul m x) = Ok m1 /\ snd (div m1 x) = Ok m).
Proof.
  intros Hv Hne.
  assert (Hone : snd (mul m 1) = Ok m).
  { rewrite (mul_outcome 1 Hv Hne).
    rewrite (@map_table_ext (size m) (Mat.scale 1) (fun x => x) (hoppings m)
               (valid_shapes Hv) (fun x _ => scale_one x)).
    rewrite map_table_id, with_hoppings_same. reflexivity. }
  assert (Hcomp : forall x y, exists m1,
             snd (mul m x) = Ok m1 /\ snd (mul m1 y) = snd (mul m (x * y)%R)).
  { intros x y. eexists. split; [apply mul_outcome; assumption|].
    rewrite (@mul_outcome (with_hoppings m (map_table (Mat.scale x) (hoppings m))) y).
    - rewrite (mul_outcome (x * y) Hv Hne). cbn [hoppings with_hoppings].
      rewrite with_hoppings_twice, map_table_compose.
      rewrite (@map_table_ext (size m) (fun h => Mat.scale y (Mat.scale x h))
                 (Mat.scale (x * y)) (hoppings m) (valid_shapes Hv)
                 (fun h _ => scale_scale x y h)).
      reflexivity.
    - apply valid_map_table; [assumption|]. intros h Hh. apply MatFacts.rect_map. assumption.
    - apply map_table_nonempty. assumption. }
  split; [exact Hone|]. split; [exact Hcomp|]. split.
  - destruct (Hcomp (-1)%R (-1)%R) as [m1 [H1 H2]]. exists m1. split; [exact H1|].
    unfold neg, rmul. rewrite H2. replace (-1 * -1)%R with 1%R by ring. exact Hone.
  - intros x Hx. destruct (Hcomp x (1 / x)%R) as [m1 [H1 H2]]. exists m1.
    split; [exact H1|]. unfold div. destruct (Req_dec_T x 0); [contradiction|].
    rewrite H2. replace (x * (1 / x))%R with 1%R by (field; assumption). exact Hone.
Qed.

Lemma scaling_laws_witness :
  exists m1, snd (neg Examples.two_site) = Ok m1 /\ snd (neg m1) = Ok Examples.two_site.
Proof.
  refine (proj1 (proj2 (proj2 (@scaling_laws Examples.two_site two_site_valid _)))).
  discriminate.
Defined.

Lemma table_sum_negated m :
  valid m ->
  table_sum (hoppings m) (map_table (Mat.scale (-1)) (hoppings m))
  = map_table (fun _ => Mat.zeros (size m) (size m)) (hoppings m).
Proof.
  intros Hv. rewrite table_sum_subset by (intros G; rewrite keys_map_table; auto).
  unfold map_table. apply map_ext_in. intros [G x] Hin. unfold merge_entry. cbn [fst snd].
  change (map (fun Gh => (fst Gh, Mat.scale (-1) (snd Gh))) (hoppings m))
    with (map_table (Mat.scale (-1)) (hoppings m)).
  rewrite get_map_table, (DictFacts.in_get _ _ (valid_keys Hv) Hin). cbn [option_map].
  f_equal. apply add_scale_minus_one. apply (@values_in _ _ _ G x (valid_shapes Hv) Hin).
Qed.

(** X3.  On a valid model that stores at least one key, [m * 0] and
    [m - m] both return the model with the keys, pos, occ, uc and size of
    [m] in which every hopping matrix is the zero matrix. *)
Theorem zero_table m :
  valid m -> hoppings m <> [] ->
  let zero := with_hoppings m (map_table (fun _ => Mat.zeros (size m) (size m)) (hoppings m)) in
  snd (mul m 0) = Ok zero /\ snd (sub m m) = Ok zero.
Proof.
  intros Hv Hne zero. split.
  - rewrite (mul_outcome 0 Hv Hne). unfold zero.
    rewrite (@map_table_ext (size m) (Mat.scale 0) (fun _ => Mat.zeros (size m) (size m))
               (hoppings m) (valid_shapes Hv) (fun x Hx => scale_zero Hx)).
    reflexivity.
  - set (m1 := with_hoppings m (map_table (Mat.scale (-1)) (hoppings m))).
    assert (Hv1 : valid m1).
    { apply valid_map_table; [assumption|]. intros h Hh. apply MatFacts.rect_map.
      assumption. }
    assert (E : neg m = (m, Ok m1)).
    { unfold neg, rmul. rewrite (surjective_pairing (mul m (-1))). f_equal.
      apply mul_outcome; assumption. }
    unfold sub. rewrite E.
    pose proof (@add_returns_sum m m1 Hv Hv1 Hne eq_refl eq_refl
                  (@uc_differ_irrefl (uc m)) (@vectors_differ_irrefl (pos m))) as Hadd.
    rewrite (surjective_pairing (add m (IsModel m1))).
    rewrite (surjective_pairing (fst (add m (IsModel m1)))). cbn [snd].
    rewrite Hadd.
    + unfold m1. cbn [hoppings with_hoppings]. rewrite (table_sum_negated Hv). reflexivity.
    + intros G. unfold m1. cbn [hoppings with_hoppings]. rewrite keys_map_table. auto.
Qed.

Lemma zero_table_witness :
  snd (sub Examples.two_site Examples.two_site)
  = Ok (with_hoppings Examples.two_site
          (map_table (fun _ => Mat.zeros 2 2) (hoppings Examples.two_site))).
Proof.
  refine (proj2 (@zero_table Examples.two_site two_site_valid _)).
  discriminate.
Defined.

(** ** Addition: symmetry *)

Lemma coords_differ_sym v1 v2 : coords_differ v1 v2 -> coords_differ v2 v1.
Proof.
  destruct v1 as [[x1 y1] z1], v2 as [[x2 y2] z2]. unfold coords_differ.
  rewrite (Rabs_minus_sym x2 x1), (Rabs_minus_sym y2 y1), (Rabs_minus_sym z2 z1). tauto.
Qed.

Lemma vectors_differ_sym l1 l2 : vectors_differ l1 l2 -> vectors_differ l2 l1.
Proof.
  intros [i [a [b [Ha [Hb H]]]]]. exists i, b, a. auto using coords_differ_sym.
Qed.

Lemma uc_differ_sym u1 u2 : uc_differ u1 u2 -> uc_differ u2 u1.
Proof. destruct u1, u2; simpl; auto using vectors_differ_sym. Qed.

Lemma pointwise_add_comm n a b :
  Mat.rect n n a -> Mat.rect n n b -> Mat.pointwise Cx.add a b = Mat.pointwise Cx.add b a.
Proof.
  intros Ha Hb. apply (@MatFacts.ext n n); try (apply MatFacts.rect_pointwise; assumption).
  intros i j Hi Hj.
  rewrite (MatFacts.get_pointwise _ _ Ha Hi Hj), (MatFacts.get_pointwise _ _ Hb Hi Hj).
  apply CxFacts.add_comm.
Qed.

(** X4.  Addition is not symmetric in its operands: when the four checks
    pass, the left operand stores every key of the right one and also a key
    that the right one lacks, [a + b] returns a model while [b + a] raises
    [KeyError]. *)
Theorem add_is_not_symmetric a b :
  valid a -> valid b -> occ a = occ b -> size a = size b ->
  ~ uc_differ (uc a) (uc b) -> ~ vectors_differ (pos a) (pos b) ->
  (forall G, In G (Dict.keys (hoppings b)) -> In G (Dict.keys (hoppings a))) ->
  (exists G, In G (Dict.keys (hoppings a)) /\ ~ In G (Dict.keys (hoppings b))) ->
  snd (add a (IsModel b)) = Ok (with_hoppings a (table_sum (hoppings a) (hoppings b))) /\
  exists G, In G (Dict.keys (hoppings a)) /\ ~ In G (Dict.keys (hoppings b)) /\
            snd (add b (IsModel a)) = Err (KeyError G).
Proof.
  intros Ha Hb Hocc Hsize Huc Hpos Hsub Hmore. split.
  - apply add_returns_sum; try assumption.
    destruct Hmore as [G [HG _]]. apply (@in_keys_nonempty _ _ G HG).
  - apply add_raises_key_error; try assumption; try (symmetry; assumption).
    + intros H. apply Huc. apply uc_differ_sym. assumption.
    + intros H. apply Hpos. apply vectors_differ_sym. assumption.
Qed.

Lemma add_is_not_symmetric_witness :
  exists G, In G (Dict.keys (hoppings Examples.on_site_chain)) /\
            ~ In G (Dict.keys (hoppings Examples.chain)) /\
            snd (add Examples.chain (IsModel Examples.on_site_chain)) = Err (KeyError G).
Proof.
  refine (proj2 (@add_is_not_symmetric Examples.on_site_chain Examples.chain
                   on_site_chain_valid chain_valid eq_refl eq_refl
                   (@uc_differ_irrefl None) (@vectors_differ_irrefl _) _ _)).
  - intros G [<-|[]]. simpl. tauto.
  - exists origin. split; [simpl; tauto|]. simpl. intros [H|[]]. discriminate.
Defined.

(** X5.  When the four checks pass and both operands store the same keys
    (at least one), [a + b] and [b + a] both return a model, with the same
    size and occ and, under every key, the same matrix: the sum of the two
    operands' matrices. *)
Theorem add_commutes_on_equal_keys a b :
  valid a -> valid b -> occ a = occ b -> size a = size b ->
  ~ uc_differ (uc a) (uc b) -> ~ vectors_differ (pos a) (pos b) ->
  hoppings a <> [] ->
  (forall G, In G (Dict.keys (hoppings a)) <-> In G (Dict.keys (hoppings b))) ->
  exists m1 m2,
    snd (add a (IsModel b)) = Ok m1 /\ snd (add b (IsModel a)) = Ok m2 /\
    size m1 = size m2 /\ occ m1 = occ m2 /\
    (forall G, Dict.get (hoppings m1) G = Dict.get (hoppings m2) G) /\
    (forall G ha hb, Dict.get (hoppings a) G = Some ha -> Dict.get (hoppings b) G = Some hb ->
                     Dict.get (hoppings m1) G = Some (Mat.pointwise Cx.add ha hb)).
Proof.
  intros Ha Hb Hocc Hsize Huc Hpos Hne Hkeys.
  assert (Hneb : hoppings b <> []).
  { destruct (hoppings a) as [|[G h] l] eqn:E; [congruence|].
    apply (@in_keys_nonempty _ _ G). apply Hkeys. left. reflexivity. }
  exists (with_hoppings a (table_sum (hoppings a) (hoppings b))),
         (with_hoppings b (table_sum (hoppings b) (hoppings a))).
  split; [apply add_returns_sum; try assumption; intros G; apply Hkeys|].
  split.
  { apply add_returns_sum; try assumption; try (symmetry; assumption).
    - intros H. apply Huc. apply uc_differ_sym. assumption.
    - intros H. apply Hpos. apply vectors_differ_sym. assumption.
    - intros G. apply Hkeys. }
  cbn [size occ hoppings with_hoppings]. split; [assumption|]. split; [assumption|].
  rewrite (@table_sum_subset (hoppings a) (hoppings b)) by (intros G; apply Hkeys).
  rewrite (@table_sum_subset (hoppings b) (hoppings a)) by (intros G; apply Hkeys).
  assert (Hlook : forall G ha hb,
             Dict.get (hoppings a) G = Some ha -> Dict.get (hoppings b) G = Some hb ->
             Dict.get (map (merge_entry (hoppings b)) (hoppings a)) G
             = Some (Mat.pointwise Cx.add ha hb) /\
             Dict.get (map (merge_entry (hoppings a)) (hoppings b)) G
             = Some (Mat.pointwise Cx.add ha hb)).
  { intros G ha hb Ea Eb. rewrite !get_merge, Ea, Eb. unfold merge_entry. cbn [fst snd].
    rewrite Ea, Eb. split; [reflexivity|]. f_equal.
    apply (@pointwise_add_comm (size a)).
    - rewrite Hsize. apply (@values_in _ _ _ G hb (valid_shapes Hb)).
      apply DictFacts.get_some_in. assumption.
    - apply (@values_in _ _ _ G ha (valid_shapes Ha)).
      apply DictFacts.get_some_in. assumption. }
  split.
  - intros G. destruct (Dict.get (hoppings a) G) as [ha|] eqn:Ea.
    + destruct (Dict.get (hoppings b) G) as [hb|] eqn:Eb.
      * destruct (Hlook G ha hb Ea Eb) as [-> ->]. reflexivity.
      * exfalso. apply DictFacts.get_none in Eb. apply Eb. apply Hkeys.
        apply DictFacts.get_in_keys. congruence.
    + destruct (Dict.get (hoppings b) G) as [hb|] eqn:Eb.
      * exfalso. apply DictFacts.get_none in Ea. apply Ea. apply Hkeys.
        apply DictFacts.get_in_keys. congruence.
      * rewrite !get_merge, Ea, Eb. reflexivity.
  - intros G ha hb Ea Eb. apply (Hlook G ha hb Ea Eb).
Qed.

Lemma chain_i_valid : valid Examples.chain_i.
Proof.
  destruct chain_valid as [H1 H2 H3 H4 H5]. constructor; try assumption.
  repeat constructor.
Qed.

Lemma add_commutes_on_equal_keys_witness :
  exists m1 m2,
    snd (add Examples.chain (IsModel Examples.chain_i)) = Ok m1 /\
    snd (add Examples.chain_i (IsModel Examples.chain)) = Ok m2 /\
    forall G, Dict.get (hoppings m1) G = Dict.get (hoppings m2) G.
Proof.
  destruct (@add_commutes_on_equal_keys Examples.chain Examples.chain_i
              chain_valid chain_i_valid eq_refl eq_refl
              (@uc_differ_irrefl _) (@vectors_differ_irrefl _))
    as [m1 [m2 [H1 [H2 [_ [_ [H3 _]]]]]]].
  - discriminate.
  - intros G. simpl. tauto.
  - exists m1, m2. auto.
Defined.

(** ** Time-reversal doubling *)

Lemma trs_blocks_fresh n hop :
  Mat.rect n n hop ->
  trs_blocks n (Mat.zeros (2 * n) (2 * n)) hop = Ok (trs_block n hop).
Proof.
  intros Hh. unfold trs_blocks. rewrite (proj2 (MatFacts.has_shape_rect n n hop) Hh).
  f_equal. unfold trs_block. apply MatFacts.mk_ext. intros a b Ha Hb.
  unfold Mat.zeros. rewrite MatFacts.get_mk by assumption.
  destruct ((a <? n) && (b <? n))%nat; [apply CxFacts.add_zero_l|].
  destruct ((n <=? a) && (n <=? b))%nat; [apply CxFacts.add_zero_l | reflexivity].
Qed.

Lemma trs_loop n l2 : forall l1 : dict matrix,
  NoDup (Dict.keys l1 ++ Dict.keys l2) -> shaped n l2 ->
  foldM (trs_step n) l2 l1 = Ok (l1 ++ map_table (trs_block n) l2).
Proof.
  induction l2 as [|[G h] l2 IH]; intros l1 Hnd Hl2; cbn [foldM].
  - simpl. rewrite app_nil_r. reflexivity.
  - inversion Hl2 as [|? ? Hh Hrest]; subst. simpl in Hh.
    assert (Hfresh : ~ In G (Dict.keys l1)).
    { simpl in Hnd. apply NoDup_remove_2 in Hnd. intros Hin. apply Hnd.
      apply in_or_app. left. assumption. }
    unfold trs_step at 1. unfold Dict.get_default.
    rewrite (proj2 (DictFacts.get_none l1 G) Hfresh), (trs_blocks_fresh Hh). cbn [bind].
    rewrite DictFacts.set_append by assumption. rewrite IH.
    + rewrite <- app_assoc. reflexivity.
    + rewrite keys_app, <- app_assoc. exact Hnd.
    + assumption.
Qed.

(** X6.  On a valid model that stores at least one key, [trs] returns the
    model with twice the orbitals and twice the occupation number, the
    positions listed twice, the same unit cell and the same keys; under
    each key the matrix is block diagonal, the stored matrix followed by
    its complex conjugate (not transposed). *)
Theorem trs_doubles m :
  valid m -> hoppings m <> [] ->
  snd (trs m)
  = Ok (mkModel (2 * size m)
                (match occ m with Some o => Some (o * 2)%Z | None => None end)
                (pos m ++ pos m) (uc m)
                (map_table (trs_block (size m)) (hoppings m))).
Proof.
  intros Hv Hne. unfold trs. cbn [snd].
  rewrite (@trs_loop (size m) (hoppings m) [] (valid_keys Hv) (valid_shapes Hv)).
  cbn [bind app].
  set (m' := mkModel (2 * size m)
                     (match occ m with Some o => Some (o * 2)%Z | None => None end)
                     (pos m ++ pos m) (uc m)
                     (map_table (trs_block (size m)) (hoppings m))).
  apply (@Model_init_reconstructs m' default_cc_tolerance).
  - constructor; unfold m'; cbn [hoppings size pos].
    + unfold Dict.wf. rewrite keys_map_table. apply (valid_keys Hv).
    + unfold keys_canonical. rewrite keys_map_table. apply (valid_canonical Hv).
    + apply (@shaped_map_table (size m) (2 * size m) (trs_block (size m)) (hoppings m));
        [|apply (valid_shapes Hv)].
      intros x _. apply MatFacts.rect_mk.
    + rewrite length_app, (valid_pos_length Hv). lia.
    + apply Forall_app. split; apply (valid_pos_home Hv).
  - apply map_table_nonempty. assumption.
Qed.

Lemma trs_doubles_witness :
  exists m', snd (trs Examples.half_filled) = Ok m' /\ size m' = 4%nat /\ occ m' = Some 2%Z.
Proof.
  eexists. split.
  - refine (@trs_doubles Examples.half_filled half_filled_valid _). discriminate.
  - split; reflexivity.
Defined.

(** ** The flattened index of a unit cell *)

Lemma nth_flat_map_const {A B} (f : A -> list B) (l : list A) c a b (da : A) (db : B) :
  (forall x, length (f x) = c) -> (a < length l)%nat -> (b < c)%nat ->
  nth (a * c + b) (flat_map f l) db = nth b (f (nth a l da)) db.
Proof.
  intros Hf. revert a. induction l as [|x l IH]; intros a Ha Hb; simpl in Ha; [lia|].
  simpl. destruct a as [|a].
  - simpl. rewrite app_nth1 by (rewrite Hf; exact Hb). reflexivity.
  - rewrite app_nth2 by (rewrite Hf; simpl; lia). rewrite Hf.
    replace (S a * c + b - c)%nat with (a * c + b)%nat by (simpl; lia).
    apply IH; [lia | assumption].
Qed.

Lemma nth_range n k : (k < Z.to_nat n)%nat -> nth k (range n) 0%Z = Z.of_nat k.
Proof.
  intros Hk. unfold range. change 0%Z with (Z.of_nat 0). rewrite map_nth.
  rewrite seq_nth by exact Hk. reflexivity.
Qed.

(** The cell at place [(i * ny + j) * nz + k] of the three nested loops is
    [(i, j, k)]. *)
Lemma nth_cells nx ny nz i j k :
  (0 <= i < nx)%Z -> (0 <= j < ny)%Z -> (0 <= k < nz)%Z ->
  nth (Z.to_nat ((i * ny + j) * nz + k)) (cells (nx, ny, nz)) origin = (i, j, k).
Proof.
  intros Hi Hj Hk. unfold cells.
  replace (Z.to_nat ((i * ny + j) * nz + k))
    with (Z.to_nat i * (Z.to_nat ny * Z.to_nat nz) + (Z.to_nat j * Z.to_nat nz + Z.to_nat k))%nat
    by nia.
  rewrite (@nth_flat_map_const _ _ _ (range nx) (Z.to_nat ny * Z.to_nat nz)%nat
             (Z.to_nat i) _ 0%Z origin).
  - rewrite nth_range by lia.
    rewrite (@nth_flat_map_const _ _ _ (range ny) (Z.to_nat nz) (Z.to_nat j) _ 0%Z origin).
    + rewrite nth_range by lia.
      rewrite nth_indep with (d' := (Z.of_nat (Z.to_nat i), Z.of_nat (Z.to_nat j), 0%Z))
        by (rewrite length_map, length_range; lia).
      rewrite (map_nth (fun k0 => (Z.of_nat (Z.to_nat i), Z.of_nat (Z.to_nat j), k0))).
      rewrite nth_range by lia. rewrite !Z2Nat.id by lia. reflexivity.
    + intros y. rewrite length_map. apply length_range.
    + rewrite length_range. lia.
    + lia.
  - intros x. rewrite length_flat_map_const with (c := Z.to_nat nz).
    + rewrite length_range. reflexivity.
    + intros y _. rewrite length_map. apply length_range.
  - rewrite length_range. lia.
  - nia.
Qed.



(** ** The geometry of a supercell *)

Lemma home_coordinate x : Zfloor x = 0%Z <-> (0 <= x < 1)%R.
Proof.
  split.
  - intros H. pose proof (Zfloor_bound x) as Hb. rewrite H in Hb. simpl in Hb. lra.
  - intros H. apply Zfloor_eq. simpl. lra.
Qed.

Lemma in_home_cell_bounds x y z :
  in_home_cell (x, y, z) <-> (0 <= x < 1 /\ 0 <= y < 1 /\ 0 <= z < 1)%R.
Proof.
  unfold in_home_cell, floor3, origin. split.
  - intros [= Hx Hy Hz]. rewrite <- !home_coordinate. auto.
  - intros [Hx [Hy Hz]]. apply home_coordinate in Hx, Hy, Hz. congruence.
Qed.

Lemma reduced_coordinate i n x :
  (0 <= i < n)%Z -> (0 <= x < 1)%R -> (0 <= IZR i / IZR n + x / IZR n < 1)%R.
Proof.
  intros Hi Hx.
  assert (Hn : (0 < IZR n)%R) by (apply IZR_lt; lia).
  assert (Hi0 : (0 <= IZR i)%R) by (apply IZR_le; lia).
  assert (Hi1 : (IZR i <= IZR n - 1)%R) by (rewrite <- minus_IZR; apply IZR_le; lia).
  replace (IZR i / IZR n + x / IZR n)%R with ((IZR i + x) / IZR n)%R by (field; lra).
  split.
  - apply Rmult_le_reg_r with (r := IZR n); [assumption|].
    unfold Rdiv. rewrite Rmult_assoc, Rinv_l by lra. lra.
  - apply Rmult_lt_reg_r with (r := IZR n); [assumption|].
    unfold Rdiv. rewrite Rmult_assoc, Rinv_l by lra. lra.
Qed.

(** The constructor keeps positions that lie in the home cell. *)
Lemma Model_init_home n hop oc ps u tol :
  hop <> [] -> shaped n hop -> length ps = n -> Forall in_home_cell ps ->
  exists m, Model_init hop None oc (Some ps) u false tol = Ok m /\
            size m = n /\ occ m = oc /\ uc m = u /\ pos m = ps.
Proof.
  intros Hne Hhop Hlen Hhome.
  destruct (@Model_init_succeeds n hop oc ps u tol Hne Hhop Hlen) as [m [Hm [Hs [Ho Hu]]]].
  exists m. repeat (split; [assumption|]).
  pose proof Hm as Hm2. apply Model_init_ok in Hm2. destruct Hm2 as [hop1 [_ [Hp _]]].
  unfold init_positions in Hp. rewrite Hs, Hlen, Nat.eqb_refl in Hp.
  unfold _map_to_uc in Hp. rewrite (proj2 (fast_path_home ps) Hhome) in Hp.
  congruence.
Qed.

(** Both loops of [supercell] run through. *)
Lemma supercell_loops_ok self nx ny nz periodic passivation :
  valid self -> (1 <= nx)%Z -> (1 <= ny)%Z -> (1 <= nz)%Z ->
  passivation_fits self passivation ->
  exists nh1 nh2,
    supercell_hoppings self (nx, ny, nz) periodic = Ok nh1 /\
    foldM (passivation_step self (nx, ny, nz)
             match passivation with
             | None => fun _ _ _ => repeat 0%R (size self)
             | Some f => f
             end) (cells (nx, ny, nz)) nh1 = Ok nh2 /\
    shaped (new_size self (nx, ny, nz)) nh2 /\ nh2 <> [].
Proof.
  intros Hv Hnx Hny Hnz Hpas.
  destruct (@supercell_hoppings_ok self nx ny nz periodic Hnx Hny Hnz Hv)
    as [nh1 [E1 Hnh1]].
  set (f := match passivation with
            | None => fun _ _ _ => repeat 0%R (size self)
            | Some g => g
            end).
  assert (Hf : forall x y z, length (f x y z) = size self).
  { unfold f. destruct passivation as [g|]; [exact Hpas|].
    intros. apply repeat_length. }
  destruct (@foldM_inv _ _ (shaped (new_size self (nx, ny, nz)))
              (passivation_step self (nx, ny, nz) f) (cells (nx, ny, nz)))
    with (s := nh1) as [nh2 [Hloop Hnh2]]; [|assumption|].
  { intros s cell Hcell Hs.
    destruct (@passivation_step_ok self nx ny nz f s cell Hf Hcell Hs)
      as [s' [E [Hs' _]]]. eauto. }
  exists nh1, nh2. repeat (split; [assumption|]).
  apply (@in_keys_nonempty _ nh2 origin).
  refine (@foldM_last _ _ (fun s => In origin (Dict.keys s))
            (passivation_step self (nx, ny, nz) f) (cells (nx, ny, nz)) _ _ nh1 nh2 Hloop).
  - assert (Hc : In (0, 0, 0)%Z (cells (nx, ny, nz))) by (apply in_cells; lia).
    intros E. rewrite E in Hc. destruct Hc.
  - intros s cell s' E. unfold passivation_step in E.
    destruct cell as [[i j] k].
    apply bind_ok in E. destruct E as [[[ex ey] ez] [_ E]].
    apply bind_ok in E. destruct E as [m' [_ [= <-]]].
    apply DictFacts.in_keys_set. left. reflexivity.
Qed.

(** X8.  For a valid model and dimensions [nx, ny, nz >= 1], the model
    [supercell] returns has the unit cell [uc] with column [j] multiplied by
    [dim[j]], and the orbital that [full_idx] numbers [idx], orbital [a] of
    the unit cell [(i, j, k)], sits at [((i, j, k) + pos[a]) / dim]: the
    constructor does not move the new positions. *)
Theorem supercell_geometry self nx ny nz periodic passivation :
  valid self -> (1 <= nx)%Z -> (1 <= ny)%Z -> (1 <= nz)%Z ->
  passivation_fits self passivation ->
  exists m, snd (supercell self (nx, ny, nz) periodic passivation) = Ok m /\
            uc m = match uc self with
                   | Some u => Some (scale_columns u (nx, ny, nz))
                   | None => None
                   end /\
            forall cell a idx,
              In cell (cells (nx, ny, nz)) -> (a < size self)%nat ->
              full_idx self (nx, ny, nz) cell a = Ok idx ->
              nth (Z.to_nat idx) (pos m) (0, 0, 0)%R =
              add3 (div3 (vec3_of_G cell) (nx, ny, nz))
                   (div3 (nth a (pos self) (0, 0, 0)%R) (nx, ny, nz)).
Proof.
  intros Hv Hnx Hny Hnz Hpas. unfold supercell, supercell_outcome. cbn [snd].
  destruct (@supercell_loops_ok self nx ny nz periodic passivation Hv Hnx Hny Hnz Hpas)
    as [nh1 [nh2 [E1 [E2 [Hnh2 Hne]]]]].
  rewrite E1. cbn [bind]. rewrite E2. cbn [bind].
  set (new_pos := flat_map
         (fun cell => map (fun p => add3 (div3 (vec3_of_G cell) (nx, ny, nz)) p)
                          (map (fun p => div3 p (nx, ny, nz)) (pos self)))
         (cells (nx, ny, nz))).
  assert (Hlen : length new_pos = new_size self (nx, ny, nz)).
  { unfold new_pos. rewrite length_flat_map_const with (c := size self).
    - rewrite length_cells, (@new_size_nat self nx ny nz Hnx Hny Hnz). reflexivity.
    - intros cell _. rewrite !length_map. apply (valid_pos_length Hv). }
  assert (Hhome : Forall in_home_cell new_pos).
  { apply Forall_forall. intros q Hq. unfold new_pos in Hq.
    apply in_flat_map in Hq. destruct Hq as [[[i j] k] [Hc Hq]].
    apply in_map_iff in Hq. destruct Hq as [r [<- Hr]].
    apply in_map_iff in Hr. destruct Hr as [[[x y] z] [<- Hp]].
    apply in_cells in Hc. destruct Hc as [Hi [Hj Hk]].
    pose proof (proj1 (Forall_forall _ _) (valid_pos_home Hv) _ Hp) as Hh.
    apply in_home_cell_bounds in Hh. destruct Hh as [Hx [Hy Hz]].
    cbn [div3 vec3_of_G add3]. apply in_home_cell_bounds.
    repeat split; apply reduced_coordinate; assumption. }
  match goal with
  | |- exists m, Model_init nh2 None ?oc (Some _) ?u false ?tol = Ok m /\ _ =>
      destruct (@Model_init_home (new_size self (nx, ny, nz)) nh2 oc new_pos u tol
                  Hne Hnh2 Hlen Hhome) as [m [Hm [_ [_ [Hu Hp]]]]]
  end.
  exists m. split; [exact Hm|]. split; [exact Hu|].
  intros [[i j] k] a idx Hc Ha Hidx. rewrite Hp.
  apply in_cells in Hc. destruct Hc as [Hi [Hj Hk]].
  unfold full_idx in Hidx. rewrite pos_to_idx_ok in Hidx by lia.
  cbn [bind] in Hidx. injection Hidx as <-.
  pose proof (@flat_index_bound nx ny nz 1 i j k 0 Hi Hj Hk) as Hb.
  replace (Z.to_nat (((i * ny + j) * nz + k) * Z.of_nat (size self) + Z.of_nat a))
    with (Z.to_nat ((i * ny + j) * nz + k) * size self + a)%nat by nia.
  unfold new_pos.
  rewrite (@nth_flat_map_const _ _ _ (cells (nx, ny, nz)) (size self)
             (Z.to_nat ((i * ny + j) * nz + k)) a origin (0, 0, 0)%R).
  - rewrite nth_cells by assumption.
    rewrite nth_indep with (d' := add3 (div3 (vec3_of_G (i, j, k)) (nx, ny, nz))
                                       (div3 (0, 0, 0)%R (nx, ny, nz)))
      by (rewrite !length_map, (valid_pos_length Hv); exact Ha).
    rewrite (map_nth (fun p => add3 (div3 (vec3_of_G (i, j, k)) (nx, ny, nz)) p)).
    rewrite (map_nth (fun p => div3 p (nx, ny, nz))). reflexivity.
  - intros cell. rewrite !length_map. apply (valid_pos_length Hv).
  - rewrite length_cells. nia.
  - exact Ha.
Qed.

Lemma supercell_geometry_witness :
  exists m, snd (supercell Examples.two_site (2, 3, 1)%Z default_periodic None) = Ok m /\
            uc m = Some (scale_columns identity3 (2, 3, 1)%Z) /\
            forall cell a idx,
              In cell (cells (2, 3, 1)%Z) -> (a < 2)%nat ->
              full_idx Examples.two_site (2, 3, 1)%Z cell a = Ok idx ->
              nth (Z.to_nat idx) (pos m) (0, 0, 0)%R =
              add3 (div3 (vec3_of_G cell) (2, 3, 1)%Z)
                   (div3 (nth a (pos Examples.two_site) (0, 0, 0)%R) (2, 3, 1)%Z).
Proof.
  refine (@supercell_geometry Examples.two_site 2 3 1 default_periodic None
            two_site_valid _ _ _ I); lia.
Defined.

(** ** [hamilton] is periodic in [k] *)

Lemma cos_sin_period_Z x (n : Z) :
  cos (x + 2 * IZR n * PI) = cos x /\ sin (x + 2 * IZR n * PI) = sin x.
Proof.
  destruct (Z_le_gt_dec 0 n) as [Hn | Hn].
  - rewrite <- (Z2Nat.id n Hn), <- INR_IZR_INZ.
    split; [apply cos_period | apply sin_period].
  - replace x with ((x + 2 * IZR n * PI) + 2 * INR (Z.to_nat (- n)) * PI)%R at 2 4.
    + split; symmetry; [apply cos_period | apply sin_period].
    + rewrite INR_IZR_INZ, Z2Nat.id by lia. rewrite opp_IZR. ring.
Qed.

Lemma bloch_phase_periodic G k n :
  bloch_phase G (add3 k (vec3_of_G n)) = bloch_phase G k.
Proof.
  destruct G as [[g0 g1] g2], k as [[k0 k1] k2], n as [[n0 n1] n2].
  unfold bloch_phase, Cx.cexp, Cx.scale, dot3, add3, vec3_of_G. cbn [fst snd].
  destruct (cos_sin_period_Z ((IZR g0 * k0 + IZR g1 * k1 + IZR g2 * k2) * (PI * 2))
              (g0 * n0 + g1 * n1 + g2 * n2)) as [Hc Hs].
  rewrite !plus_IZR, !mult_IZR in Hc, Hs.
  replace ((IZR g0 * (k0 + IZR n0) + IZR g1 * (k1 + IZR n1) + IZR g2 * (k2 + IZR n2))
           * (PI * 2))%R
    with ((IZR g0 * k0 + IZR g1 * k1 + IZR g2 * k2) * (PI * 2)
          + 2 * (IZR g0 * IZR n0 + IZR g1 * IZR n1 + IZR g2 * IZR n2) * PI)%R by ring.
  replace ((IZR g0 * (k0 + IZR n0) + IZR g1 * (k1 + IZR n1) + IZR g2 * (k2 + IZR n2))
           * (PI * 0))%R
    with ((IZR g0 * k0 + IZR g1 * k1 + IZR g2 * k2) * (PI * 0))%R by ring.
  rewrite Hc, Hs. reflexivity.
Qed.

(** X9.  [hamilton] has the period of the reciprocal lattice: shifting [k]
    by a vector of integers changes neither the matrix it returns nor the
    error it raises. *)
Theorem hamilton_periodic m k (n : LatticeVector) :
  hamilton m (add3 k (vec3_of_G n)) = hamilton m k.
Proof.
  unfold hamilton, hamilton_terms.
  rewrite (map_ext (fun Gh => Mat.cscale (snd Gh) (bloch_phase (fst Gh) (add3 k (vec3_of_G n))))
                   (fun Gh => Mat.cscale (snd Gh) (bloch_phase (fst Gh) k))).
  - reflexivity.
  - intros [G h]. cbn [fst snd]. rewrite bloch_phase_periodic. reflexivity.
Qed.

(** ** What the constructor guarantees *)



(** ** The reduction of a table that contains the conjugate terms *)

Lemma reduce_loop l2 : forall l1,
  Dict.wf (l1 ++ l2) -> fold_left reduce_step l2 l1 = l1 ++ reduced l2.
Proof.
  induction l2 as [|[K h] l2 IH]; intros l1 Hwf; cbn [fold_left].
  - unfold reduced. simpl. rewrite app_nil_r. reflexivity.
  - assert (Hfresh : ~ In K (Dict.keys l1)).
    { unfold Dict.wf, Dict.keys in Hwf. rewrite map_app in Hwf. simpl in Hwf.
      apply NoDup_remove_2 in Hwf. intros Hin. apply Hwf. apply in_or_app. left. assumption. }
    assert (Hwf' : forall x, Dict.wf ((l1 ++ [(K, x)]) ++ l2)).
    { intros x. unfold Dict.wf, Dict.keys in *. rewrite <- app_assoc.
      rewrite !map_app in *. exact Hwf. }
    assert (Hwf'' : Dict.wf (l1 ++ l2)).
    { unfold Dict.wf, Dict.keys in *. rewrite map_app in *. simpl in Hwf.
      apply NoDup_remove_1 in Hwf. exact Hwf. }
    unfold reduce_step, reduced, is_canonical. cbn [filter fst snd].
    destruct (Dict.key_eqb K origin) eqn:E0; cbn [orb].
    + rewrite DictFacts.set_append by assumption. rewrite (IH _ (Hwf' _)).
      rewrite <- app_assoc. cbn [map fst snd app]. rewrite E0. reflexivity.
    + destruct (first_nonzero_positive K) eqn:E1.
      * rewrite DictFacts.set_append by assumption. rewrite (IH _ (Hwf' _)).
        rewrite <- app_assoc. cbn [map fst snd app]. rewrite E0. reflexivity.
      * apply IH. exact Hwf''.
Qed.

Lemma reduced_cons K h hop :
  reduced ((K, h) :: hop) =
  if is_canonical K
  then (K, if Dict.key_eqb K origin then Mat.scale (1/2) h else h) :: reduced hop
  else reduced hop.
Proof. unfold reduced. cbn [filter fst]. destruct (is_canonical K); reflexivity. Qed.

Lemma get_reduced hop G :
  Dict.get (reduced hop) G =
  if Dict.key_eqb G origin then option_map (Mat.scale (1/2)) (Dict.get hop G)
  else if first_nonzero_positive G then Dict.get hop G else None.
Proof.
  induction hop as [|[K h] hop IH].
  - simpl. destruct (Dict.key_eqb G origin), (first_nonzero_positive G); reflexivity.
  - rewrite reduced_cons. cbn [Dict.get].
    destruct (Dict.key_eqb G K) eqn:EK.
    + apply DictFacts.key_eqb_eq in EK. subst K. unfold is_canonical.
      destruct (Dict.key_eqb G origin) eqn:E0; cbn [orb].
      * cbn [Dict.get]. rewrite DictFacts.key_eqb_refl. reflexivity.
      * destruct (first_nonzero_positive G) eqn:E1.
        -- cbn [Dict.get]. rewrite DictFacts.key_eqb_refl. reflexivity.
        -- exact IH.
    + destruct (is_canonical K).
      * cbn [Dict.get]. rewrite EK. exact IH.
      * exact IH.
Qed.

(** X11.  When the Hermiticity check passes, [_reduce_hoppings] returns
    the entries of the canonical keys in the order of the given table, the
    matrix of [(0, 0, 0)] halved and the others as given.  So a lookup gives
    half the given matrix at [(0, 0, 0)], the given matrix at a key whose
    first non-zero coordinate is positive, and nothing at any other key: the
    matrices of the negated keys are compared and then dropped. *)
Theorem reduce_hoppings_keeps_canonical_half hop tol res :
  Dict.wf hop -> _reduce_hoppings hop tol = Ok res ->
  res = reduced hop /\
  forall G, Dict.get res G =
            if Dict.key_eqb G origin then option_map (Mat.scale (1/2)) (Dict.get hop G)
            else if first_nonzero_positive G then Dict.get hop G else None.
Proof.
  intros Hwf H. unfold _reduce_hoppings in H.
  apply bind_ok in H. destruct H as [[] [_ [= <-]]].
  rewrite (@reduce_loop hop [] Hwf). cbn [app].
  split; [reflexivity | apply get_reduced].
Qed.

Lemma reduce_hoppings_keeps_canonical_half_witness :
  exists res,
    _reduce_hoppings Examples.hermitian_chain default_cc_tolerance = Ok res /\
    res = reduced Examples.hermitian_chain /\
    forall G, Dict.get res G =
              if Dict.key_eqb G origin
              then option_map (Mat.scale (1/2)) (Dict.get Examples.hermitian_chain G)
              else if first_nonzero_positive G then Dict.get Examples.hermitian_chain G
                   else None.
Proof.
  assert (Hwf : Dict.wf Examples.hermitian_chain).
  { unfold Dict.wf, Examples.hermitian_chain. simpl.
    repeat constructor; simpl; intuition discriminate. }
  assert (Hok : exists res,
             _reduce_hoppings Examples.hermitian_chain default_cc_tolerance = Ok res).
  { unfold _reduce_hoppings.
    rewrite (@check_loop_within Examples.hermitian_chain default_cc_tolerance
               Examples.hermitian_chain); [cbn [bind]; eauto|].
    intros G h Hin. unfold Examples.hermitian_chain in Hin. simpl in Hin.
    pose proof default_cc_tolerance_small as Htol.
    destruct Hin as [[= <- <-]|[[= <- <-]|[[= <- <-]|[]]]].
    - apply (@within_m1 Examples.hermitian_chain origin Cx.one Cx.one);
        [reflexivity | apply CxFacts.eq_intro; simpl; lra | lra].
    - apply (@within_m1 Examples.hermitian_chain (1, 0, 0)%Z (0, 1)%R (0, -1)%R);
        [reflexivity | apply CxFacts.eq_intro; simpl; lra | lra].
    - apply (@within_m1 Examples.hermitian_chain (-1, 0, 0)%Z (0, -1)%R (0, 1)%R);
        [reflexivity | apply CxFacts.eq_intro; simpl; lra | lra]. }
  destruct Hok as [res Hres]. exists res. split; [exact Hres|].
  exact (@reduce_hoppings_keeps_canonical_half Examples.hermitian_chain
           default_cc_tolerance res Hwf Hres).
Defined.

(** ** The merge of a table that does not contain the conjugate terms *)

Lemma get_zeros n i j : (i < n)%nat -> (j < n)%nat -> Mat.get (Mat.zeros n n) i j = Cx.zero.
Proof. intros Hi Hj. unfold Mat.zeros. rewrite MatFacts.get_mk by assumption. reflexivity. Qed.

Lemma dagger_zeros n : dagger (Mat.zeros n n) = Mat.zeros n n.
Proof.
  apply (@MatFacts.ext n n).
  - apply MatFacts.rect_dagger, MatFacts.rect_zeros.
  - apply MatFacts.rect_zeros.
  - intros i j Hi Hj. unfold dagger.
    rewrite (MatFacts.get_dagger (MatFacts.rect_zeros n n) Hi Hj).
    rewrite !get_zeros by assumption. apply CxFacts.conj_zero.
Qed.

Lemma pointwise_add_zeros_r n a :
  Mat.rect n n a -> Mat.pointwise Cx.add a (Mat.zeros n n) = a.
Proof.
  intros Ha. rewrite (@pointwise_add_comm n a (Mat.zeros n n) Ha (MatFacts.rect_zeros n n)).
  apply MatFacts.pointwise_add_zeros_l. assumption.
Qed.

Lemma shaped_get n (d : dict matrix) G h : shaped n d -> Dict.get d G = Some h -> Mat.rect n n h.
Proof.
  intros Hd Hg. apply DictFacts.get_some_in in Hg.
  unfold shaped, Dict.values in Hd. rewrite Forall_forall in Hd.
  apply Hd. change h with (snd (G, h)). apply in_map. assumption.
Qed.

Lemma neg_G_not_origin G : G <> origin -> neg_G G <> origin.
Proof.
  intros H E. apply H. rewrite <- (neg_G_involutive G), E. reflexivity.
Qed.

Lemma neg_G_not_self G : G <> origin -> neg_G G <> G.
Proof. intros H E. apply H. apply neg_G_origin. assumption. Qed.

Lemma merged_lookup_nil n G : merged_lookup n [] G = None.
Proof.
  unfold merged_lookup. simpl.
  destruct (Dict.key_eqb G origin), (first_nonzero_positive G); reflexivity.
Qed.

(** One turn of the loop of [_map_hoppings_positive_G], on a key that the
    turns before have not seen. *)
Lemma merge_step n l1 nh K h :
  Dict.get l1 K = None -> shaped n l1 -> Mat.rect n n h -> shaped n nh ->
  (forall G, Dict.get nh G = merged_lookup n l1 G) ->
  exists nh', fold_step n nh (K, h) = Ok nh' /\ shaped n nh' /\
              forall G, Dict.get nh' G = merged_lookup n (l1 ++ [(K, h)]) G.
Proof.
  intros HK Hl1 Hh Hnh Hinv. unfold fold_step.
  assert (Happ : forall X, Dict.get (l1 ++ [(K, h)]) X
                           = if Dict.key_eqb X K then Some h else Dict.get l1 X).
  { intros X. apply (@get_app_single l1 K h X HK). }
  destruct (Dict.key_eqb K origin) eqn:E0.
  - (* the key (0, 0, 0) *)
    apply DictFacts.key_eqb_eq in E0. subst K.
    eexists. split; [reflexivity|]. split; [apply shaped_set; assumption|].
    intros G. unfold merged_lookup. rewrite !Happ.
    destruct (Dict.key_eqb G origin) eqn:EG.
    + apply DictFacts.key_eqb_eq in EG. subst G. apply DictFacts.get_set_same.
    + apply DictFacts.key_eqb_neq in EG.
      rewrite DictFacts.get_set_other by assumption. rewrite Hinv. unfold merged_lookup.
      rewrite (proj2 (DictFacts.key_eqb_neq G origin) EG).
      rewrite (proj2 (DictFacts.key_eqb_neq (neg_G G) origin) (neg_G_not_origin EG)).
      reflexivity.
  - apply DictFacts.key_eqb_neq in E0.
    destruct (first_nonzero_positive K) eqn:E1.
    + (* a key with a positive first non-zero coordinate *)
      rewrite (MatFacts.add_rect (shaped_get_default K Hnh) Hh). cbn [bind].
      eexists. split; [reflexivity|]. split.
      { apply shaped_set; [assumption|]. apply MatFacts.rect_pointwise.
        apply shaped_get_default. assumption. }
      intros G. destruct (Dict.key_eqb G K) eqn:EG.
      * apply DictFacts.key_eqb_eq in EG. subst G. rewrite DictFacts.get_set_same.
        unfold merged_lookup. rewrite !Happ.
        rewrite (proj2 (DictFacts.key_eqb_neq K origin) E0), E1, DictFacts.key_eqb_refl.
        rewrite (proj2 (DictFacts.key_eqb_neq (neg_G K) K) (neg_G_not_self E0)).
        unfold Dict.get_default. rewrite Hinv. unfold merged_lookup.
        rewrite (proj2 (DictFacts.key_eqb_neq K origin) E0), E1, HK.
        destruct (Dict.get l1 (neg_G K)) as [b|] eqn:Eb; cbn [part]; f_equal.
        -- pose proof (shaped_get _ Hl1 Eb) as Hb. unfold dagger.
           rewrite (MatFacts.pointwise_add_zeros_l (MatFacts.rect_dagger Hb)).
           apply (@pointwise_add_comm n); [apply MatFacts.rect_dagger|]; assumption.
        -- rewrite dagger_zeros, (MatFacts.pointwise_add_zeros_l Hh).
           rewrite (pointwise_add_zeros_r Hh). reflexivity.
      * apply DictFacts.key_eqb_neq in EG.
        rewrite DictFacts.get_set_other by assumption. rewrite Hinv.
        unfold merged_lookup. rewrite !Happ.
        rewrite (proj2 (DictFacts.key_eqb_neq G K) EG).
        destruct (Dict.key_eqb G origin) eqn:EG0; [reflexivity|].
        destruct (first_nonzero_positive G) eqn:EG1; [|reflexivity].
        assert (Hn : neg_G G <> K).
        { intros <-. apply first_nonzero_positive_spec in EG1, E1.
          exact (leading_positive_neg _ EG1 E1). }
        rewrite (proj2 (DictFacts.key_eqb_neq (neg_G G) K) Hn). reflexivity.
    + (* a key with a negative first non-zero coordinate *)
      assert (E1' : first_nonzero_positive (neg_G K) = true).
      { apply first_nonzero_positive_spec. apply not_leading_positive_neg; [assumption|].
        rewrite <- first_nonzero_positive_spec. congruence. }
      rewrite (MatFacts.add_rect (shaped_get_default (neg_G K) Hnh)
                 (MatFacts.rect_dagger Hh)). cbn [bind].
      eexists. split; [reflexivity|]. split.
      { apply shaped_set; [assumption|]. apply MatFacts.rect_pointwise.
        apply shaped_get_default. assumption. }
      intros G. destruct (Dict.key_eqb G (neg_G K)) eqn:EG.
      * apply DictFacts.key_eqb_eq in EG. subst G. rewrite DictFacts.get_set_same.
        unfold merged_lookup. rewrite !Happ.
        rewrite neg_G_involutive, DictFacts.key_eqb_refl.
        rewrite (proj2 (DictFacts.key_eqb_neq (neg_G K) origin) (neg_G_not_origin E0)), E1'.
        rewrite (proj2 (DictFacts.key_eqb_neq (neg_G K) K) (neg_G_not_self E0)).
        unfold Dict.get_default. rewrite Hinv. unfold merged_lookup.
        rewrite (proj2 (DictFacts.key_eqb_neq (neg_G K) origin) (neg_G_not_origin E0)), E1'.
        rewrite neg_G_involutive, HK.
        destruct (Dict.get l1 (neg_G K)) as [a|] eqn:Ea; cbn [part]; [|reflexivity].
        f_equal. pose proof (shaped_get _ Hl1 Ea) as Ha.
        rewrite dagger_zeros, (pointwise_add_zeros_r Ha). reflexivity.
      * apply DictFacts.key_eqb_neq in EG.
        rewrite DictFacts.get_set_other by assumption. rewrite Hinv.
        unfold merged_lookup. rewrite !Happ.
        destruct (Dict.key_eqb G origin) eqn:EG0.
        -- apply DictFacts.key_eqb_eq in EG0. subst G.
           rewrite (proj2 (DictFacts.key_eqb_neq origin K)) by congruence. reflexivity.
        -- destruct (first_nonzero_positive G) eqn:EG1; [|reflexivity].
           assert (Hn1 : G <> K) by (intros ->; congruence).
           assert (Hn2 : neg_G G <> K).
           { intros <-. apply EG. rewrite neg_G_involutive. reflexivity. }
           rewrite (proj2 (DictFacts.key_eqb_neq G K) Hn1).
           rewrite (proj2 (DictFacts.key_eqb_neq (neg_G G) K) Hn2). reflexivity.
Qed.

Lemma merge_loop n l2 : forall l1 nh,
  Dict.wf (l1 ++ l2) -> shaped n (l1 ++ l2) -> shaped n nh ->
  (forall G, Dict.get nh G = merged_lookup n l1 G) ->
  exists nh', foldM (fold_step n) l2 nh = Ok nh' /\
              forall G, Dict.get nh' G = merged_lookup n (l1 ++ l2) G.
Proof.
  induction l2 as [|[K h] l2 IH]; intros l1 nh Hwf Hsh Hnh Hinv; cbn [foldM].
  - rewrite app_nil_r. eauto.
  - assert (HK : Dict.get l1 K = None).
    { apply DictFacts.get_none. unfold Dict.wf, Dict.keys in Hwf.
      rewrite map_app in Hwf. simpl in Hwf. apply NoDup_remove_2 in Hwf.
      intros Hin. apply Hwf. apply in_or_app. left. assumption. }
    unfold shaped, Dict.values in Hsh. rewrite map_app in Hsh.
    apply Forall_app in Hsh. destruct Hsh as [Hl1 Hl2]. simpl in Hl2.
    inversion Hl2 as [|? ? Hh Hrest]; subst.
    destruct (@merge_step n l1 nh K h HK Hl1 Hh Hnh Hinv) as [nh1 [-> [Hnh1 Hinv1]]].
    cbn [bind].
    destruct (IH (l1 ++ [(K, h)]) nh1) as [nh' [E Hinv']].
    + rewrite <- app_assoc. exact Hwf.
    + unfold shaped, Dict.values. rewrite <- app_assoc, map_app.
      apply Forall_app. split; [exact Hl1 | exact Hl2].
    + exact Hnh1.
    + exact Hinv1.
    + exists nh'. split; [exact E|]. intros G. rewrite Hinv'.
      rewrite <- app_assoc. reflexivity.
Qed.

(** X12.  On a table of [n x n] matrices, [_map_hoppings_positive_G]
    returns a table in which a key [G] with a positive first non-zero
    coordinate holds [h(G) + h(-G)^dagger], a missing one of the two counted
    as zero, and is absent when neither [G] nor [-G] was given; the key
    [(0, 0, 0)] holds the given matrix unchanged, and no other key is
    stored. *)
Theorem map_hoppings_positive_G_merges n hop :
  Dict.wf hop -> shaped n hop ->
  exists res, _map_hoppings_positive_G n hop = Ok res /\
              forall G, Dict.get res G = merged_lookup n hop G.
Proof.
  intros Hwf Hsh. unfold _map_hoppings_positive_G.
  apply (@merge_loop n hop [] []); try assumption.
  - apply shaped_nil.
  - intros G. rewrite merged_lookup_nil. reflexivity.
Qed.

Lemma map_hoppings_positive_G_merges_witness :
  exists res, _map_hoppings_positive_G 1 Examples.hermitian_chain = Ok res /\
              forall G, Dict.get res G = merged_lookup 1 Examples.hermitian_chain G.
Proof.
  apply (@map_hoppings_positive_G_merges 1 Examples.hermitian_chain).
  - unfold Dict.wf, Examples.hermitian_chain. simpl.
    repeat constructor; simpl; intuition discriminate.
  - unfold shaped, Examples.hermitian_chain, Examples.m1. simpl.
    repeat constructor.
Defined.

(** ** A model without any stored matrix *)





(** ** [em_field] with a scalar potential *)

Lemma set_set {V} (d : dict V) k v v' : Dict.set (Dict.set d k v) k v' = Dict.set d k v'.
Proof.
  induction d as [|[k0 v0] d IH]; simpl.
  - rewrite DictFacts.key_eqb_refl. reflexivity.
  - destruct (Dict.key_eqb k k0) eqn:E; simpl; rewrite E; [reflexivity|].
    rewrite IH. reflexivity.
Qed.

Lemma set_get_same {V} (d : dict V) k v : Dict.get d k = Some v -> Dict.set d k v = d.
Proof.
  induction d as [|[k0 v0] d IH]; simpl; [discriminate|].
  destruct (Dict.key_eqb k k0) eqn:E.
  - intros [= ->]. reflexivity.
  - intros H. rewrite IH by assumption. reflexivity.
Qed.

Lemma nrows_mk r c f : Mat.nrows (Mat.mk r c f) = r.
Proof. unfold Mat.nrows, Mat.mk. rewrite length_map, length_seq. reflexivity. Qed.

Lemma valid_set_origin m h :
  valid m -> Mat.rect (size m) (size m) h ->
  valid (with_hoppings m (Dict.set (hoppings m) origin h)).
Proof.
  intros Hv Hh. constructor; cbn [with_hoppings hoppings size pos].
  - apply DictFacts.wf_set. exact (valid_keys Hv).
  - apply keys_canonical_set; [exact (valid_canonical Hv) | left; reflexivity].
  - apply shaped_set; [exact (valid_shapes Hv) | exact Hh].
  - exact (valid_pos_length Hv).
  - exact (valid_pos_home Hv).
Qed.

Section ScalarPotential.

Variable m : Model.
Variables ps pv : R.
Variables ms mv : string.
Variable phi : vec3 -> R.
(** the position that [scalar_pot] is called on, in the mode [ms] *)
Variable g : vec3 -> R.
Variable h0 : matrix.

Hypothesis Hv : valid m.
Hypothesis Hstep : forall nh i p,
  scalar_step m ps ms phi nh (i, p) =
  (m0 <- Dict.lookup nh origin ;;
   _ <- (if (i <? Mat.nrows m0)%nat && (i <? Mat.ncols m0)%nat then Ok tt
         else Err IndexError) ;;
   Ok (Dict.set nh origin
         (Mat.upd m0 i i (fun z => Cx.add z (Cx.of_R (1/2 * ps * g p)%R))))).
Hypothesis Hh0 : Dict.get (hoppings m) origin = Some h0.

(** The on-site block after the first [k] turns of the loop. *)
Let partial (k : nat) : matrix :=
  Mat.mk (size m) (size m) (fun a b =>
    if ((a =? b) && (a <? k))%nat
    then Cx.add (Mat.get h0 a b) (Cx.of_R (1/2 * ps * g (nth a (pos m) (0, 0, 0)%R))%R)
    else Mat.get h0 a b).

Lemma scalar_loop rest : forall done,
  pos m = done ++ rest ->
  foldM (scalar_step m ps ms phi) (combine (seq (length done) (length rest)) rest)
        (Dict.set (hoppings m) origin (partial (length done)))
  = Ok (Dict.set (hoppings m) origin (partial (length (pos m)))).
Proof.
  induction rest as [|p rest IH]; intros done Hpos.
  - rewrite Hpos, app_nil_r. reflexivity.
  - cbn [length seq combine foldM]. rewrite Hstep.
    unfold Dict.lookup. rewrite DictFacts.get_set_same. cbn [bind].
    assert (Hk : (length done < size m)%nat).
    { rewrite <- (valid_pos_length Hv), Hpos, length_app. simpl. lia. }
    assert (Hnc : Mat.ncols (partial (length done)) = size m).
    { apply (@MatFacts.rect_ncols (size m) (size m)); [apply MatFacts.rect_mk | lia]. }
    unfold partial at 1 2. rewrite nrows_mk. fold (partial (length done)). rewrite Hnc.
    rewrite (proj2 (Nat.ltb_lt _ _) Hk). cbn [andb bind].
    rewrite set_set.
    assert (Hupd : Mat.upd (partial (length done)) (length done) (length done)
                     (fun z => Cx.add z (Cx.of_R (1/2 * ps * g p)%R))
                   = partial (length (done ++ [p]))).
    { apply (@MatFacts.ext (size m) (size m)).
      - apply rect_upd. apply MatFacts.rect_mk.
      - apply MatFacts.rect_mk.
      - intros a b Ha Hb.
        rewrite (@get_upd (size m) (size m) (partial (length done)) _ _ _ a b
                   (MatFacts.rect_mk _ _ _) Ha Hb).
        unfold partial. rewrite !MatFacts.get_mk by assumption.
        rewrite length_app. cbn [length].
        destruct (Nat.eqb_spec a (length done)) as [->|Hne].
        + destruct (Nat.eqb_spec b (length done)) as [->|Hne'].
          * cbn [andb]. rewrite Nat.eqb_refl, Nat.ltb_irrefl. cbn [andb].
            rewrite (proj2 (Nat.ltb_lt (length done) (length done + 1)%nat)) by lia.
            rewrite Hpos, app_nth2, Nat.sub_diag by lia. reflexivity.
          * cbn [andb]. rewrite (proj2 (Nat.eqb_neq (length done) b)) by congruence.
            reflexivity.
        + cbn [andb]. destruct (a =? b)%nat; [|reflexivity]. cbn [andb].
          destruct (Nat.ltb_spec a (length done)).
          * rewrite (proj2 (Nat.ltb_lt a (length done + 1)%nat)) by lia. reflexivity.
          * rewrite (proj2 (Nat.ltb_ge a (length done + 1)%nat)) by lia. reflexivity. }
    rewrite Hupd.
    replace (S (length done)) with (length (done ++ [p])) by (rewrite length_app; simpl; lia).
    apply IH. rewrite <- app_assoc. exact Hpos.
Qed.

Lemma scalar_potential_outcome :
  em_field m ps pv ms mv (Some phi) None
  = (m, Ok (with_hoppings m (Dict.set (hoppings m) origin (on_site_shift m ps g h0)))).
Proof.
  pose proof (shaped_get _ (valid_shapes Hv) Hh0) as Hrect.
  assert (H0 : partial 0 = h0).
  { apply (@MatFacts.ext (size m) (size m)); [apply MatFacts.rect_mk | exact Hrect |].
    intros a b Ha Hb. unfold partial. rewrite MatFacts.get_mk by assumption.
    rewrite Bool.andb_false_r. reflexivity. }
  assert (Hn : partial (length (pos m)) = on_site_shift m ps g h0).
  { unfold partial, on_site_shift. apply MatFacts.mk_ext. intros a b Ha Hb.
    rewrite (valid_pos_length Hv), (proj2 (Nat.ltb_lt a (size m)) Ha), Bool.andb_true_r.
    reflexivity. }
  pose proof (@scalar_loop (pos m) [] eq_refl) as Hloop.
  cbn [length] in Hloop. rewrite H0, (set_get_same _ _ Hh0), Hn in Hloop.
  unfold em_field. unfold enumerate. rewrite Hloop.
  f_equal.
  apply (@Model_init_reconstructs
           (with_hoppings m (Dict.set (hoppings m) origin (on_site_shift m ps g h0)))
           default_cc_tolerance).
  - apply valid_set_origin; [exact Hv | apply MatFacts.rect_mk].
  - cbn [with_hoppings hoppings]. apply (@in_keys_nonempty _ _ origin).
    apply DictFacts.in_keys_set. left. reflexivity.
Qed.

End ScalarPotential.

(** X14.  With a scalar potential and no vector potential, [em_field]
    leaves the model as it is and returns it with [1/2 * prefactor_scalar *
    scalar_pot(r_a)] added to the diagonal entry of every orbital [a] in the
    matrix of [(0, 0, 0)], and every other matrix unchanged; [r_a] is
    [pos[a]] in the mode ["relative"] and [np.dot(uc, pos[a])] in the mode
    ["absolute"].  When the model stores no matrix at [(0, 0, 0)] and has an
    orbital, the call raises [KeyError]. *)
Theorem em_field_scalar_potential m ps pv mv phi :
  valid m ->
  (forall h0, Dict.get (hoppings m) origin = Some h0 ->
     em_field m ps pv "relative" mv (Some phi) None
     = (m, Ok (with_hoppings m
                 (Dict.set (hoppings m) origin (on_site_shift m ps phi h0)))) /\
     forall u, uc m = Some u ->
       em_field m ps pv "absolute" mv (Some phi) None
       = (m, Ok (with_hoppings m
                   (Dict.set (hoppings m) origin
                      (on_site_shift m ps (fun p => phi (mat3_vec u p)) h0))))) /\
  (Dict.get (hoppings m) origin = None -> pos m <> [] ->
   forall ms, ms = "relative"%string \/ ms = "absolute"%string ->
     em_field m ps pv ms mv (Some phi) None = (m, Err (KeyError origin))).
Proof.
  intros Hv. split.
  - intros h0 Hh0. split.
    + apply (@scalar_potential_outcome m ps pv "relative" mv phi phi h0 Hv);
        [|exact Hh0].
      intros nh i p. reflexivity.
    + intros u Hu.
      apply (@scalar_potential_outcome m ps pv "absolute" mv phi
               (fun p => phi (mat3_vec u p)) h0 Hv); [|exact Hh0].
      intros nh i p. unfold scalar_step. rewrite Hu. reflexivity.
  - intros Hnone Hpos ms Hms. unfold em_field, enumerate.
    destruct (pos m) as [|p rest]; [congruence|].
    cbn [length seq combine foldM].
    assert (Hfirst : scalar_step m ps ms phi (hoppings m) (0%nat, p) = Err (KeyError origin)).
    { unfold scalar_step, Dict.lookup. rewrite Hnone.
      destruct Hms as [-> | ->]; reflexivity. }
    rewrite Hfirst. reflexivity.
Qed.

Lemma em_field_scalar_potential_witness :
  em_field Examples.on_site_chain 1 default_prefactor_vec "relative" "relative"
           (Some (fun _ => 2%R)) None
  = (Examples.on_site_chain,
     Ok (with_hoppings Examples.on_site_chain
           (Dict.set (hoppings Examples.on_site_chain) origin
              (on_site_shift Examples.on_site_chain 1 (fun _ => 2%R)
                             (Examples.m1 Cx.one))))).
Proof.
  exact (proj1 (proj1 (@em_field_scalar_potential Examples.on_site_chain 1
                         default_prefactor_vec "relative" (fun _ => 2%R)
                         on_site_chain_valid)
                      (Examples.m1 Cx.one) eq_refl)).
Defined.

(** ** [_map_to_uc]: positions outside the home cell *)

Lemma cx_add_assoc a b c : Cx.add (Cx.add a b) c = Cx.add a (Cx.add b c).
Proof. apply CxFacts.eq_intro; simpl; ring. Qed.

Lemma entry_set d K m X a b :
  entry (Dict.set d K m) X a b = if Dict.key_eqb X K then Mat.get m a b else entry d X a b.
Proof.
  unfold entry. destruct (Dict.key_eqb X K) eqn:E.
  - apply DictFacts.key_eqb_eq in E. subst. rewrite DictFacts.get_set_same. reflexivity.
  - apply DictFacts.key_eqb_neq in E.
    rewrite DictFacts.get_set_other by assumption. reflexivity.
Qed.

Lemma get_default_entry n d K a b :
  (a < n)%nat -> (b < n)%nat ->
  Mat.get (Dict.get_default d K (Mat.zeros n n)) a b = entry d K a b.
Proof.
  intros Ha Hb. unfold Dict.get_default, entry.
  destruct (Dict.get d K); [reflexivity | apply get_zeros; assumption].
Qed.

Lemma index_nth {A} (l : list A) i d : (i < length l)%nat -> index l i = Ok (nth i l d).
Proof. intros H. unfold index. rewrite (nth_error_nth' l d H). reflexivity. Qed.

Lemma moved_key_eqb X G ob oa :
  Dict.key_eqb X (sub_G (add_G G ob) oa) = Dict.key_eqb (add_G (sub_G X ob) oa) G.
Proof.
  destruct X as [[x0 x1] x2], G as [[g0 g1] g2], ob as [[b0 b1] b2], oa as [[a0 a1] a2].
  unfold Dict.key_eqb, sub_G, add_G.
  replace (x0 - b0 + a0 =? g0)%Z with (x0 =? g0 + b0 - a0)%Z
    by (apply Bool.eq_iff_eq_true; rewrite !Z.eqb_eq; lia).
  replace (x1 - b1 + a1 =? g1)%Z with (x1 =? g1 + b1 - a1)%Z
    by (apply Bool.eq_iff_eq_true; rewrite !Z.eqb_eq; lia).
  replace (x2 - b2 + a2 =? g2)%Z with (x2 =? g2 + b2 - a2)%Z
    by (apply Bool.eq_iff_eq_true; rewrite !Z.eqb_eq; lia).
  reflexivity.
Qed.

Section MapToUcFacts.

Variable n : nat.
Variable offsets : list LatticeVector.
Hypothesis Hoff : length offsets = n.

Let o (i : nat) : LatticeVector := nth i offsets origin.
Let moved (G : LatticeVector) (a b : nat) : LatticeVector := sub_G (add_G G (o b)) (o a).

(** One entry: [new_hoppings[G_new][i0][i1] += t]. *)
Lemma map_to_uc_entry_adds nh G i0 i1 t :
  (i0 < n)%nat -> (i1 < n)%nat -> shaped n nh ->
  exists nh', map_to_uc_entry n offsets nh G i0 i1 t = Ok nh' /\ shaped n nh' /\
    forall X a b, (a < n)%nat -> (b < n)%nat ->
      entry nh' X a b
      = Cx.add (entry nh X a b)
               (if Dict.key_eqb X (moved G i0 i1) && ((a =? i0) && (b =? i1))%nat
                then t else Cx.zero).
Proof.
  intros H0 H1 Hnh. unfold map_to_uc_entry.
  destruct (Cx.nonzero t) eqn:Et.
  - rewrite (@index_nth _ offsets i1 origin) by lia.
    rewrite (@index_nth _ offsets i0 origin) by lia.
    cbn [bind]. unfold add_at.
    rewrite (proj2 (Nat.ltb_lt i0 n) H0), (proj2 (Nat.ltb_lt i1 n) H1).
    cbn [andb bind]. eexists. split; [reflexivity|]. split.
    { apply shaped_set; [assumption|]. apply rect_upd. apply shaped_get_default. assumption. }
    intros X a b Ha Hb. fold (o i1). fold (o i0). fold (moved G i0 i1).
    rewrite entry_set. destruct (Dict.key_eqb X (moved G i0 i1)) eqn:EX; cbn [andb].
    + apply DictFacts.key_eqb_eq in EX. subst X.
      rewrite (@get_upd n n _ i0 i1 _ a b (shaped_get_default (moved G i0 i1) Hnh) Ha Hb).
      rewrite (@get_default_entry n nh (moved G i0 i1) a b Ha Hb).
      destruct ((a =? i0) && (b =? i1))%nat; [reflexivity|].
      rewrite CxFacts.add_zero_r. reflexivity.
    + rewrite CxFacts.add_zero_r. reflexivity.
  - exists nh. split; [reflexivity|]. split; [assumption|]. intros X a b _ _.
    apply CxFacts.nonzero_false in Et. subst t.
    destruct (Dict.key_eqb X (moved G i0 i1) && ((a =? i0) && (b =? i1))%nat);
      rewrite CxFacts.add_zero_r; reflexivity.
Qed.

(** The loop over one row, from the column [length done] on. *)
Lemma map_to_uc_row G i0 row :
  (i0 < n)%nat -> length row = n ->
  forall rest done nh, row = done ++ rest -> shaped n nh ->
  exists nh',
    foldM (fun s jt => map_to_uc_entry n offsets s G i0 (fst jt) (snd jt))
          (combine (seq (length done) (length rest)) rest) nh = Ok nh' /\
    shaped n nh' /\
    forall X a b, (a < n)%nat -> (b < n)%nat ->
      entry nh' X a b
      = Cx.add (entry nh X a b)
               (if Dict.key_eqb X (moved G a b) && ((a =? i0) && (length done <=? b))%nat
                then nth b row Cx.zero else Cx.zero).
Proof.
  intros H0 Hrow. induction rest as [|t rest IH]; intros done nh Hsplit Hnh.
  - exists nh. split; [reflexivity|]. split; [assumption|]. intros X a b Ha Hb.
    assert (Hd : length done = n) by (rewrite <- Hrow, Hsplit, app_nil_r; reflexivity).
    rewrite Hd, (proj2 (Nat.leb_gt n b) Hb), !Bool.andb_false_r.
    rewrite CxFacts.add_zero_r. reflexivity.
  - assert (Hk : (length done < n)%nat).
    { rewrite <- Hrow, Hsplit, length_app. simpl. lia. }
    cbn [length seq combine foldM fst snd].
    destruct (@map_to_uc_entry_adds nh G i0 (length done) t H0 Hk Hnh)
      as [nh1 [E1 [Hs1 He1]]].
    rewrite E1. cbn [bind].
    destruct (IH (done ++ [t]) nh1) as [nh' [E' [Hs' He']]].
    { rewrite <- app_assoc. exact Hsplit. }
    { exact Hs1. }
    rewrite length_app in E', He'. cbn [length] in E', He'. rewrite Nat.add_1_r in E', He'.
    exists nh'. split; [exact E'|]. split; [exact Hs'|].
    intros X a b Ha Hb. rewrite (He' X a b Ha Hb), (He1 X a b Ha Hb), cx_add_assoc.
    f_equal.
    assert (Ht : nth (length done) row Cx.zero = t).
    { rewrite Hsplit, app_nth2, Nat.sub_diag by lia. reflexivity. }
    destruct (Nat.eqb_spec a i0) as [->|Ha0]; cbn [andb].
    + destruct (Nat.eqb_spec b (length done)) as [->|Hbk].
      * rewrite Nat.leb_refl, (proj2 (Nat.leb_gt (S (length done)) (length done)))
          by lia.
        rewrite Ht, !Bool.andb_false_r, !Bool.andb_true_r.
        destruct (Dict.key_eqb X (moved G i0 (length done)));
          rewrite CxFacts.add_zero_r; reflexivity.
      * rewrite !Bool.andb_false_r, CxFacts.add_zero_l.
        replace (S (length done) <=? b)%nat with (length done <=? b)%nat; [reflexivity|].
        apply Bool.eq_iff_eq_true. rewrite !Nat.leb_le. lia.
    + rewrite !Bool.andb_false_r. apply CxFacts.add_zero_l.
Qed.

(** The loop over the rows of one matrix, from the row [length done] on. *)
Lemma map_to_uc_matrix G h :
  Mat.rect n n h ->
  forall rest done nh, h = done ++ rest -> shaped n nh ->
  exists nh',
    foldM (fun s ir =>
             foldM (fun s jt => map_to_uc_entry n offsets s G (fst ir) (fst jt) (snd jt))
                   (enumerate (snd ir)) s)
          (combine (seq (length done) (length rest)) rest) nh = Ok nh' /\
    shaped n nh' /\
    forall X a b, (a < n)%nat -> (b < n)%nat ->
      entry nh' X a b
      = Cx.add (entry nh X a b)
               (if Dict.key_eqb X (moved G a b) && (length done <=? a)%nat
                then Mat.get h a b else Cx.zero).
Proof.
  intros [Hlen Hrows]. induction rest as [|r rest IH]; intros done nh Hsplit Hnh.
  - exists nh. split; [reflexivity|]. split; [assumption|]. intros X a b Ha Hb.
    assert (Hd : length done = n) by (rewrite <- Hlen, Hsplit, app_nil_r; reflexivity).
    rewrite Hd, (proj2 (Nat.leb_gt n a) Ha), !Bool.andb_false_r.
    rewrite CxFacts.add_zero_r. reflexivity.
  - assert (Hk : (length done < n)%nat).
    { rewrite <- Hlen, Hsplit, length_app. simpl. lia. }
    assert (Hr : length r = n).
    { rewrite Forall_forall in Hrows. apply Hrows. rewrite Hsplit.
      apply in_or_app. right. left. reflexivity. }
    cbn [length seq combine foldM fst snd].
    destruct (@map_to_uc_row G (length done) r Hk Hr r [] nh eq_refl Hnh)
      as [nh1 [E1 [Hs1 He1]]].
    cbn [length] in E1, He1. unfold enumerate. rewrite E1. cbn [bind].
    destruct (IH (done ++ [r]) nh1) as [nh' [E' [Hs' He']]].
    { rewrite <- app_assoc. exact Hsplit. }
    { exact Hs1. }
    rewrite length_app in E', He'. cbn [length] in E', He'. rewrite Nat.add_1_r in E', He'.
    exists nh'. split; [exact E'|]. split; [exact Hs'|].
    intros X a b Ha Hb. rewrite (He' X a b Ha Hb), (He1 X a b Ha Hb), cx_add_assoc.
    f_equal.
    assert (Hrow : nth (length done) h [] = r).
    { rewrite Hsplit, app_nth2, Nat.sub_diag by lia. reflexivity. }
    destruct (Nat.eqb_spec a (length done)) as [->|Hak].
    + rewrite Nat.leb_refl, (proj2 (Nat.leb_gt (S (length done)) (length done))) by lia.
      cbn [Nat.leb]. rewrite !Bool.andb_false_r, !Bool.andb_true_r.
      unfold Mat.get. rewrite Hrow.
      destruct (Dict.key_eqb X (moved G (length done) b));
        rewrite CxFacts.add_zero_r; reflexivity.
    + cbn [andb]. rewrite !Bool.andb_false_r, CxFacts.add_zero_l.
      replace (S (length done) <=? a)%nat with (length done <=? a)%nat; [reflexivity|].
      apply Bool.eq_iff_eq_true. rewrite !Nat.leb_le. lia.
Qed.

(** The loop over the table. *)
Lemma map_to_uc_table l2 : forall nh,
  Dict.wf l2 -> shaped n l2 -> shaped n nh ->
  exists nh', for_entries (map_to_uc_entry n offsets) l2 nh = Ok nh' /\ shaped n nh' /\
    forall X a b, (a < n)%nat -> (b < n)%nat ->
      entry nh' X a b
      = Cx.add (entry nh X a b) (entry l2 (add_G (sub_G X (o b)) (o a)) a b).
Proof.
  unfold for_entries. induction l2 as [|[G h] l2 IH]; intros nh Hwf Hl2 Hnh.
  - exists nh. split; [reflexivity|]. split; [assumption|]. intros X a b _ _.
    unfold entry at 3. cbn [Dict.get]. rewrite CxFacts.add_zero_r. reflexivity.
  - unfold shaped, Dict.values in Hl2. cbn [map snd] in Hl2.
    apply Forall_cons_iff in Hl2. destruct Hl2 as [Hh Hrest].
    unfold Dict.wf, Dict.keys in Hwf. cbn [map fst] in Hwf.
    apply NoDup_cons_iff in Hwf. destruct Hwf as [Hfresh Hwf'].
    cbn [foldM fst snd].
    destruct (@map_to_uc_matrix G h Hh h [] nh eq_refl Hnh) as [nh1 [E1 [Hs1 He1]]].
    cbn [length] in E1, He1.
    change (enumerate h) with (combine (seq 0 (length h)) h). rewrite E1. cbn [bind].
    destruct (IH nh1 Hwf' Hrest Hs1) as [nh' [E' [Hs' He']]].
    exists nh'. split; [exact E'|]. split; [exact Hs'|].
    intros X a b Ha Hb. rewrite (He' X a b Ha Hb), (He1 X a b Ha Hb), cx_add_assoc.
    f_equal. cbn [Nat.leb]. rewrite Bool.andb_true_r.
    unfold moved. rewrite moved_key_eqb.
    unfold entry at 2. cbn [Dict.get].
    destruct (Dict.key_eqb (add_G (sub_G X (o b)) (o a)) G) eqn:E.
    + apply DictFacts.key_eqb_eq in E. rewrite E. unfold entry.
      rewrite (proj2 (DictFacts.get_none l2 G) Hfresh). apply CxFacts.add_zero_r.
    + apply CxFacts.add_zero_l.
Qed.

End MapToUcFacts.

Lemma mod1_3_home p : in_home_cell p -> mod1_3 p = p.
Proof.
  destruct p as [[x y] z]. unfold in_home_cell, floor3, origin, mod1_3, mod1.
  intros [= -> -> ->]. apply f_equal2; [apply f_equal2|]; simpl; ring.
Qed.

Lemma add_sub_origin G : add_G (sub_G G origin) origin = G.
Proof.
  destruct G as [[a b] c]. unfold add_G, sub_G, origin.
  apply f_equal2; [apply f_equal2|]; lia.
Qed.

Lemma uc_offset_floor pos i :
  (i < length pos)%nat -> uc_offset pos i = floor3 (nth i pos (0, 0, 0)%R).
Proof.
  intros Hi. unfold uc_offset.
  rewrite nth_indep with (d' := floor3 (0, 0, 0)%R) by (rewrite length_map; exact Hi).
  apply map_nth.
Qed.

(** X15.  [_map_to_uc] returns every position reduced modulo 1, and a
    table in which the entry [(a, b)] at the key [G] is the given entry
    [(a, b)] at the key [G - floor(pos[b]) + floor(pos[a])] (0 where the
    given table has no such key).  So the displacement [G + pos[b] - pos[a]]
    of every hopping term is the same before and after. *)
Theorem map_to_uc_keeps_displacements n pos hop :
  length pos = n -> Dict.wf hop -> shaped n hop ->
  exists pos' hop',
    _map_to_uc n pos hop = Ok (pos', hop') /\
    pos' = map mod1_3 pos /\
    (forall G a b, (a < n)%nat -> (b < n)%nat ->
       entry hop' G a b = entry hop (source_key pos G a b) a b) /\
    (forall G a b, (a < n)%nat -> (b < n)%nat ->
       add3 (vec3_of_G G) (sub3 (nth b pos' (0, 0, 0)%R) (nth a pos' (0, 0, 0)%R))
       = add3 (vec3_of_G (source_key pos G a b))
              (sub3 (nth b pos (0, 0, 0)%R) (nth a pos (0, 0, 0)%R))).
Proof.
  intros Hlen Hwf Hsh.
  assert (Hdisp : forall G a b, (a < n)%nat -> (b < n)%nat ->
            add3 (vec3_of_G G)
                 (sub3 (nth b (map mod1_3 pos) (0, 0, 0)%R)
                       (nth a (map mod1_3 pos) (0, 0, 0)%R))
            = add3 (vec3_of_G (source_key pos G a b))
                   (sub3 (nth b pos (0, 0, 0)%R) (nth a pos (0, 0, 0)%R))).
  { intros G a b Ha Hb. unfold source_key.
    rewrite !uc_offset_floor by lia.
    rewrite (nth_indep (map mod1_3 pos) (0, 0, 0)%R (mod1_3 (0, 0, 0)%R))
      by (rewrite length_map; lia).
    rewrite (nth_indep (map mod1_3 pos) (0, 0, 0)%R (mod1_3 (0, 0, 0)%R))
      by (rewrite length_map; lia).
    rewrite !map_nth.
    destruct (nth a pos (0, 0, 0)%R) as [[xa ya] za].
    destruct (nth b pos (0, 0, 0)%R) as [[xb yb] zb].
    destruct G as [[g0 g1] g2].
    unfold add3, sub3, vec3_of_G, add_G, sub_G, floor3, mod1_3, mod1.
    rewrite !plus_IZR, !minus_IZR. apply f_equal2; [apply f_equal2|]; ring. }
  unfold _map_to_uc. destruct (forallb _ _) eqn:Efast.
  - assert (Hhome : Forall in_home_cell pos) by (apply fast_path_home; exact Efast).
    assert (Hpos : pos = map mod1_3 pos).
    { rewrite <- (map_id pos) at 1. apply map_ext_in. intros p Hp. symmetry.
      apply mod1_3_home. rewrite Forall_forall in Hhome. apply Hhome. exact Hp. }
    assert (Hzero : forall i, (i < n)%nat -> uc_offset pos i = origin).
    { intros i Hi. rewrite uc_offset_floor by lia.
      rewrite Forall_forall in Hhome. apply Hhome. apply nth_In. lia. }
    exists pos, hop. split; [reflexivity|]. split; [exact Hpos|]. split.
    + intros G a b Ha Hb. unfold source_key.
      rewrite (Hzero a Ha), (Hzero b Hb), add_sub_origin. reflexivity.
    + intros G a b Ha Hb. pose proof (Hdisp G a b Ha Hb) as Hd.
      rewrite <- Hpos in Hd. exact Hd.
  - destruct (@map_to_uc_table n (map floor3 pos)
                (eq_trans (length_map floor3 pos) Hlen) hop [] Hwf Hsh (shaped_nil n))
      as [nh [E [_ He]]].
    rewrite E. cbn [bind]. exists (map mod1_3 pos), nh.
    split; [reflexivity|]. split; [reflexivity|]. split.
    + intros G a b Ha Hb. rewrite (He G a b Ha Hb).
      unfold entry at 1. cbn [Dict.get]. rewrite CxFacts.add_zero_l. reflexivity.
    + exact Hdisp.
Qed.

Lemma map_to_uc_keeps_displacements_witness :
  exists pos' hop',
    _map_to_uc 2 [(0, 0, 0)%R; (3 / 2, 0, 0)%R] (hoppings Examples.two_site)
      = Ok (pos', hop') /\
    pos' = map mod1_3 [(0, 0, 0)%R; (3 / 2, 0, 0)%R] /\
    (forall G a b, (a < 2)%nat -> (b < 2)%nat ->
       entry hop' G a b
       = entry (hoppings Examples.two_site)
               (source_key [(0, 0, 0)%R; (3 / 2, 0, 0)%R] G a b) a b) /\
    (forall G a b, (a < 2)%nat -> (b < 2)%nat ->
       add3 (vec3_of_G G) (sub3 (nth b pos' (0, 0, 0)%R) (nth a pos' (0, 0, 0)%R))
       = add3 (vec3_of_G (source_key [(0, 0, 0)%R; (3 / 2, 0, 0)%R] G a b))
              (sub3 (nth b [(0, 0, 0)%R; (3 / 2, 0, 0)%R] (0, 0, 0)%R)
                    (nth a [(0, 0, 0)%R; (3 / 2, 0, 0)%R] (0, 0, 0)%R))).
Proof.
  apply (@map_to_uc_keeps_displacements 2 [(0, 0, 0)%R; (3 / 2, 0, 0)%R]
           (hoppings Examples.two_site)).
  - reflexivity.
  - unfold Dict.wf. simpl. repeat constructor. simpl. tauto.
  - unfold shaped. simpl. repeat constructor.
Defined.

(** ** The Hamiltonian of a scaled model *)



Lemma get_cscale n h z i j :
  Mat.rect n n h -> (i < n)%nat -> (j < n)%nat ->
  Mat.get (Mat.cscale h z) i j = Cx.mul (Mat.get h i j) z.
Proof. intros Hh Hi Hj. apply (MatFacts.get_map (fun t => Cx.mul t z) Hh Hi Hj). Qed.







(** ** The Hamiltonian of a sum *)

Lemma pointwise_add_assoc n a b c :
  Mat.rect n n a -> Mat.rect n n b -> Mat.rect n n c ->
  Mat.pointwise Cx.add (Mat.pointwise Cx.add a b) c
  = Mat.pointwise Cx.add a (Mat.pointwise Cx.add b c).
Proof.
  intros Ha Hb Hc. apply (@MatFacts.ext n n).
  - apply MatFacts.rect_pointwise, MatFacts.rect_pointwise, Ha.
  - apply MatFacts.rect_pointwise, Ha.
  - intros i j Hi Hj.
    rewrite (MatFacts.get_pointwise _ _ (MatFacts.rect_pointwise Cx.add b Ha) Hi Hj).
    rewrite !(MatFacts.get_pointwise _ _ Ha Hi Hj).
    rewrite (MatFacts.get_pointwise _ _ Hb Hi Hj).
    apply cx_add_assoc.
Qed.

Lemma cscale_pointwise_add n a b z :
  Mat.rect n n a -> Mat.rect n n b ->
  Mat.cscale (Mat.pointwise Cx.add a b) z
  = Mat.pointwise Cx.add (Mat.cscale a z) (Mat.cscale b z).
Proof.
  intros Ha Hb. apply (@MatFacts.ext n n).
  - apply rect_cscale, MatFacts.rect_pointwise, Ha.
  - apply MatFacts.rect_pointwise, rect_cscale, Ha.
  - intros i j Hi Hj.
    rewrite (get_cscale z (MatFacts.rect_pointwise Cx.add b Ha) Hi Hj).
    rewrite (MatFacts.get_pointwise _ _ Ha Hi Hj).
    rewrite (MatFacts.get_pointwise _ _ (rect_cscale z Ha) Hi Hj).
    rewrite (get_cscale z Ha Hi Hj), (get_cscale z Hb Hi Hj).
    apply CxFacts.eq_intro; simpl; ring.
Qed.

Lemma dagger_pointwise_add n a b :
  Mat.rect n n a -> Mat.rect n n b ->
  dagger (Mat.pointwise Cx.add a b) = Mat.pointwise Cx.add (dagger a) (dagger b).
Proof.
  intros Ha Hb. unfold dagger. apply (@MatFacts.ext n n).
  - apply MatFacts.rect_dagger, MatFacts.rect_pointwise, Ha.
  - apply MatFacts.rect_pointwise, MatFacts.rect_dagger, Ha.
  - intros i j Hi Hj.
    rewrite (MatFacts.get_dagger (MatFacts.rect_pointwise Cx.add b Ha) Hi Hj).
    rewrite (MatFacts.get_pointwise _ _ Ha Hj Hi).
    rewrite (MatFacts.get_pointwise _ _ (MatFacts.rect_dagger Ha) Hi Hj).
    rewrite (MatFacts.get_dagger Ha Hi Hj), (MatFacts.get_dagger Hb Hi Hj).
    apply CxFacts.conj_add.
Qed.

Lemma plus_dagger_add n A B :
  Mat.rect n n A -> Mat.rect n n B ->
  Mat.pointwise Cx.add (Mat.pointwise Cx.add A B) (dagger (Mat.pointwise Cx.add A B))
  = Mat.pointwise Cx.add (Mat.pointwise Cx.add A (dagger A))
                         (Mat.pointwise Cx.add B (dagger B)).
Proof.
  intros HA HB. rewrite (dagger_pointwise_add HA HB).
  pose proof (MatFacts.rect_dagger HA) as HdA. pose proof (MatFacts.rect_dagger HB) as HdB.
  fold (dagger A) in HdA. fold (dagger B) in HdB.
  rewrite (pointwise_add_assoc HA HB (MatFacts.rect_pointwise Cx.add (dagger B) HdA)).
  rewrite <- (pointwise_add_assoc HB HdA HdB).
  rewrite (pointwise_add_comm HB HdA).
  rewrite (pointwise_add_assoc HdA HB HdB).
  rewrite <- (pointwise_add_assoc HA HdA (MatFacts.rect_pointwise Cx.add (dagger B) HB)).
  reflexivity.
Qed.

Section BlochSums.

Variable n : nat.
Variable k : vec3.

Let F (acc : matrix) (Gh : LatticeVector * matrix) : matrix :=
  Mat.pointwise Cx.add acc (Mat.cscale (snd Gh) (bloch_phase (fst Gh) k)).

Lemma bloch_fold_rect l : forall X,
  Mat.rect n n X -> Mat.rect n n (fold_left F l X).
Proof.
  induction l as [|Gh l IH]; intros X HX; cbn [fold_left]; [assumption|].
  apply IH. apply MatFacts.rect_pointwise. assumption.
Qed.

Lemma bloch_fold_shift l : forall X Y,
  Mat.rect n n X -> Mat.rect n n Y -> shaped n l ->
  fold_left F l (Mat.pointwise Cx.add X Y) = Mat.pointwise Cx.add (fold_left F l X) Y.
Proof.
  induction l as [|[G h] l IH]; intros X Y HX HY Hl; cbn [fold_left]; [reflexivity|].
  unfold shaped, Dict.values in Hl. cbn [map snd] in Hl.
  apply Forall_cons_iff in Hl. destruct Hl as [Hh Hl].
  pose proof (rect_cscale (bloch_phase G k) Hh) as Ht.
  unfold F at 2 4. cbn [fst snd].
  rewrite (pointwise_add_assoc HX HY Ht), (pointwise_add_comm HY Ht).
  rewrite <- (pointwise_add_assoc HX Ht HY).
  apply IH; [apply MatFacts.rect_pointwise | |]; assumption.
Qed.

(** Replacing the matrix [old] at a stored key by [old + h] adds the term
    of [h] to the sum. *)
Lemma bloch_fold_set T : forall acc G old h,
  Mat.rect n n acc -> shaped n T -> Dict.get T G = Some old -> Mat.rect n n h ->
  fold_left F (Dict.set T G (Mat.pointwise Cx.add old h)) acc
  = Mat.pointwise Cx.add (fold_left F T acc) (Mat.cscale h (bloch_phase G k)).
Proof.
  induction T as [|[K hk] T IH]; intros acc G old h Hacc HT Hget Hh; [discriminate|].
  unfold shaped, Dict.values in HT. cbn [map snd] in HT.
  apply Forall_cons_iff in HT. destruct HT as [Hhk HT].
  cbn [Dict.get] in Hget. cbn [Dict.set].
  destruct (Dict.key_eqb G K) eqn:E.
  - apply DictFacts.key_eqb_eq in E. subst K. injection Hget as <-.
    cbn [fold_left]. unfold F at 2 4. cbn [fst snd].
    rewrite (cscale_pointwise_add (bloch_phase G k) Hhk Hh).
    rewrite <- (pointwise_add_assoc Hacc (rect_cscale (bloch_phase G k) Hhk)
                  (rect_cscale (bloch_phase G k) Hh)).
    apply bloch_fold_shift; [apply MatFacts.rect_pointwise; assumption | | assumption].
    apply rect_cscale. assumption.
  - cbn [fold_left]. apply (IH _ G old h); try assumption.
    apply MatFacts.rect_pointwise. assumption.
Qed.

(** The loop of [add] adds the terms of the right table one by one. *)
Lemma add_loop_bloch l2 : forall T,
  shaped n T -> shaped n l2 ->
  (forall G, In G (Dict.keys l2) -> In G (Dict.keys T)) ->
  exists T', foldM add_into l2 T = Ok T' /\
             fold_left F T' (Mat.zeros n n) = fold_left F l2 (fold_left F T (Mat.zeros n n)).
Proof.
  induction l2 as [|[G h] l2 IH]; intros T HT Hl2 Hsub; cbn [foldM fold_left].
  - eauto.
  - unfold shaped, Dict.values in Hl2. cbn [map snd] in Hl2.
    apply Forall_cons_iff in Hl2. destruct Hl2 as [Hh Hl2].
    destruct (Dict.get T G) as [old|] eqn:Hget.
    2: { exfalso. apply DictFacts.get_none in Hget. apply Hget. apply Hsub.
         left. reflexivity. }
    pose proof (shaped_get _ HT Hget) as Hold.
    unfold add_into. cbn [fst snd]. unfold Dict.lookup. rewrite Hget. cbn [bind].
    rewrite (MatFacts.add_rect Hold Hh). cbn [bind].
    destruct (IH (Dict.set T G (Mat.pointwise Cx.add old h))) as [T' [E HT']].
    + apply shaped_set; [assumption | apply MatFacts.rect_pointwise; assumption].
    + exact Hl2.
    + intros K HK. apply DictFacts.in_keys_set. right. apply Hsub. right. assumption.
    + exists T'. split; [exact E|]. rewrite HT'.
      rewrite (@bloch_fold_set T (Mat.zeros n n) G old h
                 (MatFacts.rect_zeros n n) HT Hget Hh).
      reflexivity.
Qed.

End BlochSums.

(** X17.  The Hamiltonian is additive wherever addition is defined: when
    [a + b] passes the four checks and [a] stores every key of [b] (so that
    the sum is returned), [(a + b).hamilton(k)] is
    [a.hamilton(k) + b.hamilton(k)], entry by entry. *)
Theorem hamilton_of_sum a b k :
  valid a -> valid b -> hoppings b <> [] ->
  occ a = occ b -> size a = size b ->
  ~ uc_differ (uc a) (uc b) -> ~ vectors_differ (pos a) (pos b) ->
  (forall G, In G (Dict.keys (hoppings b)) -> In G (Dict.keys (hoppings a))) ->
  exists m Ha Hb,
    snd (add a (IsModel b)) = Ok m /\ hamilton a k = Ok Ha /\ hamilton b k = Ok Hb /\
    hamilton m k = Ok (Mat.pointwise Cx.add Ha Hb).
Proof.
  intros Hva Hvb Hneb Hocc Hsize Huc Hpos Hsub.
  assert (Hnea : hoppings a <> []).
  { destruct (hoppings b) as [|[G h] rest] eqn:Eb; [congruence|].
    apply (@in_keys_nonempty _ _ G). apply Hsub. left. reflexivity. }
  pose proof (valid_shapes Hva) as Hsa. pose proof (valid_shapes Hvb) as Hsb.
  rewrite <- Hsize in Hsb.
  set (T := map (merge_entry (hoppings b)) (hoppings a)).
  set (m := with_hoppings a T).
  assert (Hm : snd (add a (IsModel b)) = Ok m).
  { rewrite (@add_returns_sum a b Hva Hvb Hnea Hocc Hsize Huc Hpos Hsub).
    rewrite (@table_sum_subset (hoppings a) (hoppings b) Hsub). reflexivity. }
  assert (Hvm : valid m).
  { constructor; unfold m, T; cbn [with_hoppings hoppings size pos].
    - unfold Dict.wf. rewrite keys_merge. apply (valid_keys Hva).
    - unfold keys_canonical. rewrite keys_merge. apply (valid_canonical Hva).
    - apply shaped_merge; assumption.
    - apply (valid_pos_length Hva).
    - apply (valid_pos_home Hva). }
  assert (Hnem : hoppings m <> []).
  { unfold m, T. cbn [with_hoppings hoppings].
    destruct (hoppings a); [congruence | discriminate]. }
  destruct (hamilton_formula k Hva Hnea) as [HHa _].
  destruct (hamilton_formula k Hvb Hneb) as [HHb _].
  destruct (hamilton_formula k Hvm Hnem) as [HHm _].
  exists m, (Mat.pointwise Cx.add (bloch_sum a k) (dagger (bloch_sum a k))),
         (Mat.pointwise Cx.add (bloch_sum b k) (dagger (bloch_sum b k))).
  split; [exact Hm|]. split; [exact HHa|]. split; [exact HHb|].
  rewrite HHm. f_equal.
  (* the sum over the merged table *)
  pose proof (@add_loop (size a) (hoppings a) (hoppings b) []
                (valid_keys Hva) Hsa (valid_keys Hvb) Hsb Hsub) as Hloop.
  rewrite merge_nil in Hloop. cbn [app] in Hloop. fold T in Hloop.
  destruct (@add_loop_bloch (size a) k (hoppings b) (hoppings a) Hsa Hsb Hsub)
    as [T' [E HT']].
  rewrite Hloop in E. injection E as <-.
  pose proof (@bloch_fold_rect (size a) k (hoppings a) (Mat.zeros (size a) (size a))
                (MatFacts.rect_zeros _ _)) as Hra.
  pose proof (@bloch_fold_rect (size a) k (hoppings b) (Mat.zeros (size a) (size a))
                (MatFacts.rect_zeros _ _)) as Hrb.
  assert (Hsum : bloch_sum m k
                 = Mat.pointwise Cx.add (bloch_sum a k) (bloch_sum b k)).
  { unfold bloch_sum. change (hoppings m) with T. change (size m) with (size a).
    rewrite <- Hsize. rewrite HT'.
    rewrite <- (MatFacts.pointwise_add_zeros_l Hra) at 1.
    rewrite (@bloch_fold_shift (size a) k (hoppings b) _ _
               (MatFacts.rect_zeros _ _) Hra Hsb).
    apply (pointwise_add_comm Hrb Hra). }
  assert (Hra' : Mat.rect (size a) (size a) (bloch_sum a k)) by exact Hra.
  assert (Hrb' : Mat.rect (size a) (size a) (bloch_sum b k)).
  { unfold bloch_sum. rewrite <- Hsize. exact Hrb. }
  rewrite Hsum. apply (plus_dagger_add Hra' Hrb').
Qed.

Lemma hamilton_of_sum_witness :
  exists m Ha Hb,
    snd (add Examples.on_site_chain (IsModel Examples.chain)) = Ok m /\
    hamilton Examples.on_site_chain (1 / 4, 0, 0)%R = Ok Ha /\
    hamilton Examples.chain (1 / 4, 0, 0)%R = Ok Hb /\
    hamilton m (1 / 4, 0, 0)%R = Ok (Mat.pointwise Cx.add Ha Hb).
Proof.
  apply (@hamilton_of_sum Examples.on_site_chain Examples.chain (1 / 4, 0, 0)%R
           on_site_chain_valid chain_valid).
  - discriminate.
  - reflexivity.
  - reflexivity.
  - apply uc_differ_irrefl.
  - apply vectors_differ_irrefl.
  - intros G [<-|[]]. simpl. right. left. reflexivity.
Defined.

(** ** The Hamiltonian of the time-reversal doubled model *)

Lemma bloch_phase_neg G k : bloch_phase G (neg3 k) = Cx.conj (bloch_phase G k).
Proof.
  destruct G as [[g0 g1] g2], k as [[k0 k1] k2].
  unfold bloch_phase, Cx.cexp, Cx.scale, Cx.conj, dot3, neg3, vec3_of_G. cbn [fst snd].
  replace ((IZR g0 * - k0 + IZR g1 * - k1 + IZR g2 * - k2) * (PI * 2))%R
    with (- ((IZR g0 * k0 + IZR g1 * k1 + IZR g2 * k2) * (PI * 2)))%R by ring.
  replace ((IZR g0 * - k0 + IZR g1 * - k1 + IZR g2 * - k2) * (PI * 0))%R
    with ((IZR g0 * k0 + IZR g1 * k1 + IZR g2 * k2) * (PI * 0))%R by ring.
  rewrite cos_neg, sin_neg. apply CxFacts.eq_intro; simpl; ring.
Qed.

Lemma get_conj n h i j :
  Mat.rect n n h -> (i < n)%nat -> (j < n)%nat ->
  Mat.get (Mat.conj h) i j = Cx.conj (Mat.get h i j).
Proof. intros Hh Hi Hj. apply (MatFacts.get_map Cx.conj Hh Hi Hj). Qed.

Lemma rect_conj n h : Mat.rect n n h -> Mat.rect n n (Mat.conj h).
Proof. apply MatFacts.rect_map. Qed.

Lemma cx_conj_mul a b : Cx.conj (Cx.mul a b) = Cx.mul (Cx.conj a) (Cx.conj b).
Proof. apply CxFacts.eq_intro; simpl; ring. Qed.

Lemma cx_mul_zero_l a : Cx.mul Cx.zero a = Cx.zero.
Proof. apply CxFacts.eq_intro; simpl; ring. Qed.

Lemma rect_block_diag n A B : Mat.rect (2 * n) (2 * n) (block_diag n A B).
Proof. apply MatFacts.rect_mk. Qed.

Ltac block_cases n a b :=
  destruct (Nat.ltb_spec a n); destruct (Nat.ltb_spec b n);
  destruct (Nat.leb_spec n a); destruct (Nat.leb_spec n b);
  try lia; cbn [andb].

(** One turn of the sum over the doubled table. *)
Lemma block_diag_term n X Y h k G :
  Mat.rect n n X -> Mat.rect n n Y -> Mat.rect n n h ->
  Mat.pointwise Cx.add (block_diag n X (Mat.conj Y))
                       (Mat.cscale (trs_block n h) (bloch_phase G k))
  = block_diag n
      (Mat.pointwise Cx.add X (Mat.cscale h (bloch_phase G k)))
      (Mat.conj (Mat.pointwise Cx.add Y (Mat.cscale h (bloch_phase G (neg3 k))))).
Proof.
  intros HX HY Hh. apply (@MatFacts.ext (2 * n) (2 * n)).
  - apply MatFacts.rect_pointwise, rect_block_diag.
  - apply rect_block_diag.
  - intros a b Ha Hb.
    rewrite (MatFacts.get_pointwise _ _ (rect_block_diag n X (Mat.conj Y)) Ha Hb).
    rewrite (@get_cscale (2 * n) (trs_block n h) _ a b (MatFacts.rect_mk _ _ _) Ha Hb).
    unfold block_diag, trs_block. rewrite !MatFacts.get_mk by assumption.
    block_cases n a b.
    + rewrite (MatFacts.get_pointwise _ _ HX H H0), (get_cscale _ Hh H H0). reflexivity.
    + rewrite CxFacts.add_zero_l. apply cx_mul_zero_l.
    + rewrite CxFacts.add_zero_l. apply cx_mul_zero_l.
    + assert (Ha' : (a - n < n)%nat) by lia. assert (Hb' : (b - n < n)%nat) by lia.
      rewrite (get_conj HY Ha' Hb').
      rewrite (get_conj (MatFacts.rect_pointwise Cx.add
                           (Mat.cscale h (bloch_phase G (neg3 k))) HY) Ha' Hb').
      rewrite (MatFacts.get_pointwise _ _ HY Ha' Hb'), (get_cscale _ Hh Ha' Hb').
      rewrite CxFacts.conj_add, cx_conj_mul, bloch_phase_neg, CxFacts.conj_conj.
      reflexivity.
Qed.

Lemma block_diag_fold n k l : forall X Y,
  Mat.rect n n X -> Mat.rect n n Y -> shaped n l ->
  fold_left (fun a Gh => Mat.pointwise Cx.add a (Mat.cscale (snd Gh) (bloch_phase (fst Gh) k)))
            (map_table (trs_block n) l) (block_diag n X (Mat.conj Y))
  = block_diag n
      (fold_left (fun a Gh => Mat.pointwise Cx.add a
                                (Mat.cscale (snd Gh) (bloch_phase (fst Gh) k))) l X)
      (Mat.conj
         (fold_left (fun a Gh => Mat.pointwise Cx.add a
                                   (Mat.cscale (snd Gh) (bloch_phase (fst Gh) (neg3 k))))
                    l Y)).
Proof.
  induction l as [|[G h] l IH]; intros X Y HX HY Hl; [reflexivity|].
  unfold shaped, Dict.values in Hl. cbn [map snd] in Hl.
  apply Forall_cons_iff in Hl. destruct Hl as [Hh Hl].
  cbn [map_table map fold_left fst snd].
  rewrite (block_diag_term k G HX HY Hh).
  apply IH; [apply MatFacts.rect_pointwise | apply MatFacts.rect_pointwise |];
    assumption.
Qed.

Lemma block_diag_zeros n :
  block_diag n (Mat.zeros n n) (Mat.conj (Mat.zeros n n)) = Mat.zeros (2 * n) (2 * n).
Proof.
  unfold block_diag, Mat.zeros at 3. apply MatFacts.mk_ext. intros a b Ha Hb.
  block_cases n a b; try reflexivity.
  - apply get_zeros; assumption.
  - rewrite (get_conj (MatFacts.rect_zeros n n)) by lia.
    rewrite get_zeros by lia. apply CxFacts.conj_zero.
Qed.

Lemma block_diag_plus_dagger n A B :
  Mat.rect n n A -> Mat.rect n n B ->
  Mat.pointwise Cx.add (block_diag n A (Mat.conj B)) (dagger (block_diag n A (Mat.conj B)))
  = block_diag n (Mat.pointwise Cx.add A (dagger A))
                 (Mat.conj (Mat.pointwise Cx.add B (dagger B))).
Proof.
  intros HA HB. apply (@MatFacts.ext (2 * n) (2 * n)).
  - apply MatFacts.rect_pointwise, rect_block_diag.
  - apply rect_block_diag.
  - intros a b Ha Hb.
    rewrite (MatFacts.get_pointwise _ _ (rect_block_diag n A (Mat.conj B)) Ha Hb).
    unfold dagger at 1.
    rewrite (MatFacts.get_dagger (rect_block_diag n A (Mat.conj B)) Ha Hb).
    unfold block_diag. rewrite !MatFacts.get_mk by assumption.
    block_cases n a b.
    + rewrite (MatFacts.get_pointwise _ _ HA H H0). unfold dagger.
      rewrite (MatFacts.get_dagger HA H H0). reflexivity.
    + rewrite CxFacts.conj_zero. apply CxFacts.add_zero_l.
    + rewrite CxFacts.conj_zero. apply CxFacts.add_zero_l.
    + assert (Ha' : (a - n < n)%nat) by lia. assert (Hb' : (b - n < n)%nat) by lia.
      rewrite (get_conj HB Ha' Hb'), (get_conj HB Hb' Ha').
      rewrite (get_conj (MatFacts.rect_pointwise Cx.add (dagger B) HB) Ha' Hb').
      rewrite (MatFacts.get_pointwise _ _ HB Ha' Hb'). unfold dagger.
      rewrite (MatFacts.get_dagger HB Ha' Hb').
      rewrite CxFacts.conj_add. reflexivity.
Qed.

(** X18.  The lower block of the doubled model is the time-reversed copy:
    on a valid model that stores at least one key, [trs().hamilton(k)] is
    block diagonal, with [hamilton(k)] in the upper block and the complex
    conjugate of [hamilton(-k)] in the lower block. *)
Theorem hamilton_of_trs m k :
  valid m -> hoppings m <> [] ->
  exists m' H Hrev,
    snd (trs m) = Ok m' /\ hamilton m k = Ok H /\ hamilton m (neg3 k) = Ok Hrev /\
    hamilton m' k = Ok (block_diag (size m) H (Mat.conj Hrev)).
Proof.
  intros Hv Hne.
  set (m' := mkModel (2 * size m)
                     (match occ m with Some o => Some (o * 2)%Z | None => None end)
                     (pos m ++ pos m) (uc m)
                     (map_table (trs_block (size m)) (hoppings m))).
  assert (Hv' : valid m').
  { constructor; unfold m'; cbn [hoppings size pos].
    - unfold Dict.wf. rewrite keys_map_table. apply (valid_keys Hv).
    - unfold keys_canonical. rewrite keys_map_table. apply (valid_canonical Hv).
    - apply (@shaped_map_table (size m) (2 * size m) (trs_block (size m)) (hoppings m));
        [|apply (valid_shapes Hv)].
      intros x _. apply MatFacts.rect_mk.
    - rewrite length_app, (valid_pos_length Hv). lia.
    - apply Forall_app. split; apply (valid_pos_home Hv). }
  assert (Hne' : hoppings m' <> []) by (apply map_table_nonempty; assumption).
  assert (Hm' : snd (trs m) = Ok m').
  { unfold trs. cbn [snd].
    rewrite (@trs_loop (size m) (hoppings m) [] (valid_keys Hv) (valid_shapes Hv)).
    cbn [bind app]. apply (@Model_init_reconstructs m' default_cc_tolerance Hv' Hne'). }
  destruct (hamilton_formula k Hv Hne) as [HH _].
  destruct (hamilton_formula (neg3 k) Hv Hne) as [HHrev _].
  destruct (hamilton_formula k Hv' Hne') as [HH' _].
  exists m', (Mat.pointwise Cx.add (bloch_sum m k) (dagger (bloch_sum m k))),
         (Mat.pointwise Cx.add (bloch_sum m (neg3 k)) (dagger (bloch_sum m (neg3 k)))).
  split; [exact Hm'|]. split; [exact HH|]. split; [exact HHrev|].
  rewrite HH'. f_equal.
  pose proof (@bloch_fold_rect (size m) k (hoppings m) (Mat.zeros (size m) (size m))
                (MatFacts.rect_zeros _ _)) as Hr.
  pose proof (@bloch_fold_rect (size m) (neg3 k) (hoppings m) (Mat.zeros (size m) (size m))
                (MatFacts.rect_zeros _ _)) as Hr'.
  assert (Hb : bloch_sum m' k
               = block_diag (size m) (bloch_sum m k) (Mat.conj (bloch_sum m (neg3 k)))).
  { unfold bloch_sum. change (hoppings m') with (map_table (trs_block (size m)) (hoppings m)).
    change (size m') with (2 * size m)%nat.
    rewrite <- block_diag_zeros.
    apply (@block_diag_fold (size m) k (hoppings m) _ _
             (MatFacts.rect_zeros _ _) (MatFacts.rect_zeros _ _) (valid_shapes Hv)). }
  rewrite Hb. apply (@block_diag_plus_dagger (size m)); [exact Hr | exact Hr'].
Qed.

Lemma hamilton_of_trs_witness :
  exists m' H Hrev,
    snd (trs Examples.chain_i) = Ok m' /\
    hamilton Examples.chain_i (1 / 4, 0, 0)%R = Ok H /\
    hamilton Examples.chain_i (neg3 (1 / 4, 0, 0)%R) = Ok Hrev /\
    hamilton m' (1 / 4, 0, 0)%R = Ok (block_diag 1 H (Mat.conj Hrev)).
Proof.
  apply (@hamilton_of_trs Examples.chain_i (1 / 4, 0, 0)%R chain_i_valid).
  discriminate.
Defined.

(** ** [em_field]: when the modes are looked at *)

Lemma in_combine_seq {A} (l : list A) (d : A) : forall s i x,
  In (i, x) (combine (seq s (length l)) l) <->
  (s <= i < s + length l)%nat /\ nth (i - s) l d = x.
Proof.
  induction l as [|y l IH]; intros s i x; cbn [length seq combine].
  - simpl. split; [tauto | lia].
  - cbn [In]. rewrite IH. split.
    + intros [[= <- <-]|[Hi Hx]].
      * rewrite Nat.sub_diag. simpl. split; [lia | reflexivity].
      * split; [lia|]. replace (i - s)%nat with (S (i - S s)) by lia. exact Hx.
    + intros [Hi Hx]. destruct (Nat.eq_dec i s) as [->|Hne].
      * left. rewrite Nat.sub_diag in Hx. simpl in Hx. subst. reflexivity.
      * right. split; [lia|]. replace (i - s)%nat with (S (i - S s)) in Hx by lia.
        exact Hx.
Qed.

Lemma in_enumerate_iff {A} (l : list A) (d : A) i x :
  In (i, x) (enumerate l) <-> (i < length l)%nat /\ nth i l d = x.
Proof.
  unfold enumerate. rewrite (in_combine_seq l d 0 i x), Nat.sub_0_r. simpl.
  split; intros [H1 H2]; (split; [lia | exact H2]).
Qed.

(** The indices that [hop_mat.nonzero()] lists. *)
Lemma in_nonzero_idx h i j :
  In (i, j) (Mat.nonzero_idx h) <-> Cx.nonzero (Mat.get h i j) = true.
Proof.
  unfold Mat.nonzero_idx, Mat.get. rewrite in_flat_map. split.
  - intros [[i' row] [Hrow H]]. apply in_flat_map in H. destruct H as [[j' z] [Hz H]].
    cbn [fst snd] in H. destruct (Cx.nonzero z) eqn:E; [|destruct H].
    destruct H as [[= <- <-]|[]].
    apply (in_enumerate_iff h []) in Hrow. destruct Hrow as [_ <-].
    apply (in_enumerate_iff (nth i' h []) Cx.zero) in Hz. destruct Hz as [_ Hz].
    rewrite Hz. exact E.
  - intros E.
    assert (Hj : (j < length (nth i h []))%nat).
    { destruct (Nat.lt_ge_cases j (length (nth i h []))) as [H|H]; [exact H|].
      rewrite (nth_overflow _ _ H), CxFacts.nonzero_zero in E. discriminate. }
    assert (Hi : (i < length h)%nat).
    { destruct (Nat.lt_ge_cases i (length h)) as [H|H]; [exact H|].
      rewrite (nth_overflow _ _ H) in Hj. simpl in Hj. lia. }
    exists (i, nth i h []). split.
    + apply (in_enumerate_iff h []). split; [exact Hi | reflexivity].
    + apply in_flat_map. exists (j, nth j (nth i h []) Cx.zero). split.
      * apply (in_enumerate_iff (nth i h []) Cx.zero). split; [exact Hj | reflexivity].
      * cbn [fst snd]. rewrite E. left. reflexivity.
Qed.

Lemma nonzero_true z : z <> Cx.zero -> Cx.nonzero z = true.
Proof.
  intros Hz. destruct (Cx.nonzero z) eqn:E; [reflexivity|].
  apply CxFacts.nonzero_false in E. contradiction.
Qed.

Lemma peierls_table_bad_mode self pv mv u A hop :
  mv <> "absolute"%string -> mv <> "relative"%string ->
  Forall (fun h => length h = length (pos self)) (Dict.values hop) ->
  snd (peierls_table self pv mv u A hop)
  = if forallb (fun Gh => match Mat.nonzero_idx (snd Gh) with [] => true | _ => false end) hop
    then Ok tt else Err (ValueError BadModeVec).
Proof.
  intros Ha Hr Hrows. induction hop as [|[G h] rest IH]; [reflexivity|].
  unfold Dict.values in Hrows. cbn [map snd] in Hrows.
  apply Forall_cons_iff in Hrows. destruct Hrows as [Hh Hrest].
  cbn [peierls_table forallb snd].
  destruct (Mat.nonzero_idx h) as [|[i0 i1] idx] eqn:E.
  - cbn [peierls_matrix andb]. specialize (IH Hrest).
    destruct (peierls_table self pv mv u A rest) as [rest' r']. exact IH.
  - cbn [peierls_matrix andb].
    assert (Hi0 : (i0 < length (pos self))%nat).
    { rewrite <- Hh. apply (@nonzero_idx_row h i0 i1). rewrite E. left. reflexivity. }
    unfold peierls_entry. destruct (index_ok _ Hi0) as [p0 ->]. cbn [bind].
    rewrite (proj2 (String.eqb_neq mv "absolute") Ha).
    rewrite (proj2 (String.eqb_neq mv "relative") Hr). reflexivity.
Qed.

(** X19.  [em_field] validates its arguments only where it uses them.  On
    a valid model that stores at least one key: without potentials every
    mode string is accepted and the model itself is returned; with a scalar
    potential an unknown [mode_scalar] raises [ValueError] when the model
    has an orbital; with a vector potential a missing unit cell raises
    [ValueError], and an unknown [mode_vec] raises [ValueError] only when
    some stored matrix has a non-zero entry: when all stored entries are 0
    the model itself is returned. *)
Theorem em_field_checks_modes_lazily m ps pv ms mv :
  valid m -> hoppings m <> [] ->
  em_field m ps pv ms mv None None = (m, Ok m) /\
  (forall phi, ms <> "relative"%string -> ms <> "absolute"%string -> pos m <> [] ->
     em_field m ps pv ms mv (Some phi) None = (m, Err (ValueError BadModeScalar))) /\
  (forall A, uc m = None ->
     em_field m ps pv ms mv None (Some A) = (m, Err (ValueError UcNotSpecified))) /\
  (forall A u, uc m = Some u -> mv <> "absolute"%string -> mv <> "relative"%string ->
     ((forall G h i j, In (G, h) (hoppings m) -> Mat.get h i j = Cx.zero) ->
      em_field m ps pv ms mv None (Some A) = (m, Ok m)) /\
     ((exists G h i j, In (G, h) (hoppings m) /\ Mat.get h i j <> Cx.zero) ->
      em_field m ps pv ms mv None (Some A) = (m, Err (ValueError BadModeVec)))).
Proof.
  intros Hv Hne.
  pose proof (@Model_init_reconstructs m default_cc_tolerance Hv Hne) as Hinit.
  split; [unfold em_field; rewrite Hinit; reflexivity|]. split.
  { intros phi Hr Ha Hpos. unfold em_field, enumerate.
    destruct (pos m) as [|p rest]; [congruence|].
    cbn [length seq combine foldM]. unfold scalar_step.
    rewrite (proj2 (String.eqb_neq ms "relative") Hr).
    rewrite (proj2 (String.eqb_neq ms "absolute") Ha). reflexivity. }
  split.
  { intros A Hu. unfold em_field. rewrite Hu. reflexivity. }
  intros A u Hu Ha Hr.
  assert (Hrows : Forall (fun h => length h = length (pos m)) (Dict.values (hoppings m))).
  { rewrite (valid_pos_length Hv). eapply Forall_impl; [|exact (valid_shapes Hv)].
    intros h [Hh _]. exact Hh. }
  pose proof (peierls_table_same m pv mv u A (hoppings m)) as Hsame.
  pose proof (@peierls_table_bad_mode m pv mv u A (hoppings m) Ha Hr Hrows) as Hbad.
  split.
  - intros Hzero.
    assert (Hall : forallb (fun Gh => match Mat.nonzero_idx (snd Gh) with
                                      | [] => true | _ => false end) (hoppings m) = true).
    { apply forallb_forall. intros [G h] Hin. cbn [snd].
      destruct (Mat.nonzero_idx h) as [|[i j] idx] eqn:E; [reflexivity|].
      assert (Hij : In (i, j) (Mat.nonzero_idx h)) by (rewrite E; left; reflexivity).
      apply in_nonzero_idx in Hij. rewrite (Hzero G h i j Hin) in Hij.
      rewrite CxFacts.nonzero_zero in Hij. discriminate. }
    rewrite Hall in Hbad. unfold em_field. rewrite Hu.
    destruct (peierls_table m pv mv u A (hoppings m)) as [h' r].
    cbn [fst snd] in Hsame, Hbad. subst h' r.
    rewrite with_hoppings_same, Hinit. reflexivity.
  - intros [G [h [i [j [Hin Hnz]]]]].
    assert (Hall : forallb (fun Gh => match Mat.nonzero_idx (snd Gh) with
                                      | [] => true | _ => false end) (hoppings m) = false).
    { destruct (forallb _ (hoppings m)) eqn:E; [|reflexivity].
      rewrite forallb_forall in E. specialize (E (G, h) Hin). cbn [snd] in E.
      assert (Hij : In (i, j) (Mat.nonzero_idx h)).
      { apply in_nonzero_idx. apply nonzero_true. exact Hnz. }
      destruct (Mat.nonzero_idx h); [destruct Hij | discriminate]. }
    rewrite Hall in Hbad. unfold em_field. rewrite Hu.
    destruct (peierls_table m pv mv u A (hoppings m)) as [h' r].
    cbn [fst snd] in Hsame, Hbad. subst h' r.
    rewrite with_hoppings_same. reflexivity.
Qed.

Lemma em_field_checks_modes_lazily_witness :
  em_field Examples.two_site 1 default_prefactor_vec "relative" "sideways" None None
  = (Examples.two_site, Ok Examples.two_site) /\
  em_field Examples.two_site 1 default_prefactor_vec "relative" "sideways" None
           (Some (fun r => r))
  = (Examples.two_site, Err (ValueError BadModeVec)).
Proof.
  pose proof (@em_field_checks_modes_lazily Examples.two_site 1 default_prefactor_vec
                "relative" "sideways" two_site_valid) as H.
  destruct H as [H1 [_ [_ H4]]]; [discriminate|].
  split; [exact H1|].
  refine (proj2 (H4 (fun r => r) identity3 eq_refl _ _) _); [discriminate | discriminate |].
  exists (1, 0, 0)%Z, [[Cx.zero; Cx.one]; [Cx.zero; Cx.zero]], 0%nat, 1%nat.
  split; [left; reflexivity|].
  unfold Mat.get, Cx.one, Cx.zero. simpl. intros [= H]. lra.
Defined.

(** ** The supercell of a model without any stored matrix *)

Lemma foldM_unchanged {A S} (body : S -> A -> result S) l s :
  (forall a, body s a = Ok s) -> foldM body l s = Ok s.
Proof.
  intros H. induction l as [|a l IH]; cbn [foldM]; [reflexivity|].
  rewrite H. cbn [bind]. exact IH.
Qed.

Lemma foldM_settles {A S} (body : S -> A -> result S) l s c :
  l <> [] -> (forall a, In a l -> body s a = Ok c) -> (forall a, In a l -> body c a = Ok c) ->
  foldM body l s = Ok c.
Proof.
  intros Hne Hs Hc. destruct l as [|a l]; [congruence|]. cbn [foldM].
  rewrite (Hs a (or_introl eq_refl)). cbn [bind].
  assert (Hc' : forall x, In x l -> body c x = Ok c) by (intros x Hx; apply Hc; right; exact Hx).
  clear Hne Hs Hc. induction l as [|b l IH]; cbn [foldM]; [reflexivity|].
  rewrite (Hc' b (or_introl eq_refl)). cbn [bind]. apply IH.
  intros x Hx. apply Hc'. right. exact Hx.
Qed.

Lemma supercell_positions_length self nx ny nz :
  valid self -> (1 <= nx)%Z -> (1 <= ny)%Z -> (1 <= nz)%Z ->
  length (flat_map
            (fun cell => map (fun p => add3 (div3 (vec3_of_G cell) (nx, ny, nz)) p)
                             (map (fun p => div3 p (nx, ny, nz)) (pos self)))
            (cells (nx, ny, nz)))
  = new_size self (nx, ny, nz).
Proof.
  intros Hv Hnx Hny Hnz. rewrite length_flat_map_const with (c := size self).
  - rewrite length_cells, (@new_size_nat self nx ny nz Hnx Hny Hnz). reflexivity.
  - intros cell _. rewrite !length_map. apply (valid_pos_length Hv).
Qed.

Lemma supercell_positions_home self nx ny nz :
  valid self ->
  Forall in_home_cell
    (flat_map
       (fun cell => map (fun p => add3 (div3 (vec3_of_G cell) (nx, ny, nz)) p)
                        (map (fun p => div3 p (nx, ny, nz)) (pos self)))
       (cells (nx, ny, nz))).
Proof.
  intros Hv. apply Forall_forall. intros q Hq.
  apply in_flat_map in Hq. destruct Hq as [[[i j] k] [Hc Hq]].
  apply in_map_iff in Hq. destruct Hq as [r [<- Hr]].
  apply in_map_iff in Hr. destruct Hr as [[[x y] z] [<- Hp]].
  apply in_cells in Hc. destruct Hc as [Hi [Hj Hk]].
  pose proof (proj1 (Forall_forall _ _) (valid_pos_home Hv) _ Hp) as Hh.
  apply in_home_cell_bounds in Hh. destruct Hh as [Hx [Hy Hz]].
  cbn [div3 vec3_of_G add3]. apply in_home_cell_bounds.
  repeat split; apply reduced_coordinate; assumption.
Qed.

Lemma cscale_zeros n z : Mat.cscale (Mat.zeros n n) z = Mat.zeros n n.
Proof.
  apply (@MatFacts.ext n n).
  - apply rect_cscale, MatFacts.rect_zeros.
  - apply MatFacts.rect_zeros.
  - intros i j Hi Hj. rewrite (get_cscale z (MatFacts.rect_zeros n n) Hi Hj).
    rewrite get_zeros by assumption. apply cx_mul_zero_l.
Qed.

(** A passivation of zeros leaves a zero on-site block as it is. *)
Lemma passivation_step_zero self nx ny nz nh cell :
  (1 <= nx)%Z -> (1 <= ny)%Z -> (1 <= nz)%Z -> In cell (cells (nx, ny, nz)) ->
  nh = [] \/ nh = [(origin, Mat.zeros (new_size self (nx, ny, nz))
                                      (new_size self (nx, ny, nz)))] ->
  passivation_step self (nx, ny, nz) (fun _ _ _ => repeat 0%R (size self)) nh cell
  = Ok [(origin, Mat.zeros (new_size self (nx, ny, nz)) (new_size self (nx, ny, nz)))].
Proof.
  intros Hnx Hny Hnz Hcell Hnh. destruct cell as [[i j] k].
  apply in_cells in Hcell. destruct Hcell as [Hi [Hj Hk]].
  unfold passivation_step.
  destruct (@edge_detect_ok nx ny nz i j k) as [[[ex ey] ez] ->]; try lia.
  cbn [bind].
  set (N := new_size self (nx, ny, nz)) in *.
  assert (Hm : Dict.get_default nh origin (Mat.zeros N N) = Mat.zeros N N).
  { destruct Hnh as [-> | ->]; reflexivity. }
  rewrite Hm. unfold add_passivation. fold N. rewrite repeat_length, Nat.eqb_refl.
  cbn [bind].
  match goal with
  | |- Ok (Dict.set nh origin ?M) = _ =>
      assert (HM : M = Mat.zeros N N)
  end.
  { unfold Mat.zeros at 3. apply MatFacts.mk_ext. intros a b Ha Hb.
    rewrite get_zeros by assumption.
    destruct (_ && _)%bool; [|reflexivity].
    destruct (a =? b)%nat.
    - rewrite nth_repeat. apply CxFacts.eq_intro; simpl; ring.
    - apply CxFacts.eq_intro; simpl; ring. }
  rewrite HM. destruct Hnh as [-> | ->]; reflexivity.
Qed.

(** X20.  [supercell] accepts a valid model whose table is empty: for
    dimensions [nx, ny, nz >= 1] and no passivation it returns a model of
    [size * nx * ny * nz] orbitals whose table holds the zero matrix at
    [(0, 0, 0)] and nothing else, so that its Hamiltonian is the zero
    matrix at every [k]. *)
Theorem supercell_of_empty_table m nx ny nz periodic :
  valid m -> hoppings m = [] -> (1 <= nx)%Z -> (1 <= ny)%Z -> (1 <= nz)%Z ->
  exists m',
    snd (supercell m (nx, ny, nz) periodic None) = Ok m' /\
    Z.of_nat (size m') = (Z.of_nat (size m) * nx * ny * nz)%Z /\
    hoppings m' = [(origin, Mat.zeros (size m') (size m'))] /\
    forall k, hamilton m' k = Ok (Mat.zeros (size m') (size m')).
Proof.
  intros Hv He Hnx Hny Hnz. unfold supercell, supercell_outcome. cbn [snd].
  set (N := new_size m (nx, ny, nz)).
  assert (H1 : supercell_hoppings m (nx, ny, nz) periodic = Ok []).
  { unfold supercell_hoppings. rewrite He. apply foldM_unchanged. reflexivity. }
  rewrite H1. cbn [bind].
  assert (Hcells : cells (nx, ny, nz) <> []).
  { assert (Hc : In (0, 0, 0)%Z (cells (nx, ny, nz))) by (apply in_cells; lia).
    intros E. rewrite E in Hc. destruct Hc. }
  rewrite (@foldM_settles _ _
             (passivation_step m (nx, ny, nz) (fun _ _ _ => repeat 0%R (size m)))
             (cells (nx, ny, nz)) [] [(origin, Mat.zeros N N)] Hcells).
  2: { intros cell Hcell. apply passivation_step_zero; try assumption. left. reflexivity. }
  2: { intros cell Hcell. apply passivation_step_zero; try assumption. right. reflexivity. }
  cbn [bind].
  match goal with
  | |- exists m', Model_init _ None ?oc (Some ?ps) ?u false ?tol = Ok m' /\ _ =>
      set (new_occ := oc); set (new_pos := ps); set (new_uc := u)
  end.
  assert (Hsz : init_size [(origin, Mat.zeros N N)] None = Ok N).
  { cbn [init_size]. unfold Mat.zeros. rewrite nrows_mk. reflexivity. }
  assert (Hpos : init_positions N (Some new_pos) [(origin, Mat.zeros N N)]
                 = Ok (new_pos, [(origin, Mat.zeros N N)])).
  { unfold init_positions, new_pos.
    rewrite (@supercell_positions_length m nx ny nz Hv Hnx Hny Hnz). fold N.
    rewrite Nat.eqb_refl. unfold _map_to_uc.
    rewrite (proj2 (fast_path_home _) (@supercell_positions_home m nx ny nz Hv)).
    reflexivity. }
  set (m' := mkModel N new_occ new_pos new_uc [(origin, Mat.zeros N N)]).
  assert (Hinit : Model_init [(origin, Mat.zeros N N)] None new_occ (Some new_pos) new_uc
                             false default_cc_tolerance = Ok m').
  { rewrite (@Model_init_unfold _ None new_occ (Some new_pos) new_uc false
               default_cc_tolerance N new_pos _ Hsz Hpos).
    unfold _map_hoppings_positive_G. cbn [foldM fold_step].
    rewrite DictFacts.key_eqb_refl. cbn [bind Dict.set foldM]. unfold check_shape.
    cbn [snd].
    rewrite (proj2 (MatFacts.has_shape_rect N N _) (MatFacts.rect_zeros N N)).
    reflexivity. }
  exists m'. split; [exact Hinit|]. split.
  { apply (@new_size_Z m nx ny nz Hnx Hny Hnz). }
  split; [reflexivity|].
  intros k. pose proof Hinit as Hv'. apply Model_init_valid in Hv'.
  assert (Hne' : hoppings m' <> []) by discriminate.
  destruct (hamilton_formula k Hv' Hne') as [HH _]. rewrite HH. f_equal.
  unfold bloch_sum. cbn [hoppings size m' fold_left fst snd].
  rewrite cscale_zeros, (MatFacts.pointwise_add_zeros_l (MatFacts.rect_zeros N N)).
  rewrite dagger_zeros. apply (MatFacts.pointwise_add_zeros_l (MatFacts.rect_zeros N N)).
Qed.

Lemma supercell_of_empty_table_witness :
  exists m',
    snd (supercell Examples.empty_model (2, 1, 1)%Z default_periodic None) = Ok m' /\
    Z.of_nat (size m') = 2%Z /\
    hoppings m' = [(origin, Mat.zeros (size m') (size m'))] /\
    forall k, hamilton m' k = Ok (Mat.zeros (size m') (size m')).
Proof.
  apply (@supercell_of_empty_table Examples.empty_model 2 1 1 default_periodic
           empty_model_valid eq_refl); lia.
Defined.

(** ** [change_uc] on any model *)





(** ** The table of a supercell *)

(** *** Loops that add entries, seen from one entry of the result *)

Section Scatter.

Variable n : nat.
Variable Pinv : dict matrix -> Prop.
Variable obs : dict matrix -> C.
Variable body : dict matrix -> LatticeVector -> nat -> nat -> C -> result (dict matrix).
Variable flag : bool.
Variable Gs : LatticeVector.
Variables a b : nat.

Hypothesis Hbody : forall nh G i0 i1 t,
  (i0 < n)%nat -> (i1 < n)%nat -> Pinv nh ->
  exists nh', body nh G i0 i1 t = Ok nh' /\ Pinv nh' /\
              obs nh' = Cx.add (obs nh)
                          (if flag && Dict.key_eqb G Gs && ((i0 =? a) && (i1 =? b))%nat
                           then t else Cx.zero).

Lemma scatter_row G i0 row :
  (i0 < n)%nat -> length row = n ->
  forall rest done nh, row = done ++ rest -> Pinv nh ->
  exists nh',
    foldM (fun s jt => body s G i0 (fst jt) (snd jt))
          (combine (seq (length done) (length rest)) rest) nh = Ok nh' /\
    Pinv nh' /\
    obs nh' = Cx.add (obs nh)
                (if flag && Dict.key_eqb G Gs && ((i0 =? a) && (length done <=? b))%nat
                 then nth b row Cx.zero else Cx.zero).
Proof.
  intros H0 Hrow. induction rest as [|t rest IH]; intros done nh Hsplit Hnh.
  - exists nh. split; [reflexivity|]. split; [assumption|].
    assert (Hd : length done = n) by (rewrite <- Hrow, Hsplit, app_nil_r; reflexivity).
    destruct (flag && Dict.key_eqb G Gs && ((i0 =? a) && (length done <=? b))%nat) eqn:E;
      [|rewrite CxFacts.add_zero_r; reflexivity].
    rewrite !Bool.andb_true_iff in E. destruct E as [_ [_ E]]. apply Nat.leb_le in E.
    rewrite nth_overflow by lia. rewrite CxFacts.add_zero_r. reflexivity.
  - assert (Hk : (length done < n)%nat).
    { rewrite <- Hrow, Hsplit, length_app. simpl. lia. }
    cbn [length seq combine foldM fst snd].
    destruct (@Hbody nh G i0 (length done) t H0 Hk Hnh) as [nh1 [E1 [Hs1 He1]]].
    rewrite E1. cbn [bind].
    destruct (IH (done ++ [t]) nh1) as [nh' [E' [Hs' He']]].
    { rewrite <- app_assoc. exact Hsplit. }
    { exact Hs1. }
    rewrite length_app in E', He'. cbn [length] in E', He'. rewrite Nat.add_1_r in E', He'.
    exists nh'. split; [exact E'|]. split; [exact Hs'|].
    rewrite He', He1, cx_add_assoc. f_equal.
    assert (Ht : nth (length done) row Cx.zero = t).
    { rewrite Hsplit, app_nth2, Nat.sub_diag by lia. reflexivity. }
    destruct (flag && Dict.key_eqb G Gs); cbn [andb]; [|apply CxFacts.add_zero_l].
    destruct (i0 =? a)%nat; cbn [andb]; [|apply CxFacts.add_zero_l].
    destruct (Nat.eqb_spec (length done) b) as [<-|Hbk].
    + rewrite Nat.leb_refl, (proj2 (Nat.leb_gt (S (length done)) (length done))) by lia.
      rewrite Ht. apply CxFacts.add_zero_r.
    + rewrite CxFacts.add_zero_l.
      replace (S (length done) <=? b)%nat with (length done <=? b)%nat; [reflexivity|].
      apply Bool.eq_iff_eq_true. rewrite !Nat.leb_le. lia.
Qed.

Lemma scatter_matrix G h :
  Mat.rect n n h ->
  forall rest done nh, h = done ++ rest -> Pinv nh ->
  exists nh',
    foldM (fun s ir =>
             foldM (fun s jt => body s G (fst ir) (fst jt) (snd jt)) (enumerate (snd ir)) s)
          (combine (seq (length done) (length rest)) rest) nh = Ok nh' /\
    Pinv nh' /\
    obs nh' = Cx.add (obs nh)
                (if flag && Dict.key_eqb G Gs && (length done <=? a)%nat
                 then Mat.get h a b else Cx.zero).
Proof.
  intros [Hlen Hrows]. induction rest as [|r rest IH]; intros done nh Hsplit Hnh.
  - exists nh. split; [reflexivity|]. split; [assumption|].
    assert (Hd : length done = n) by (rewrite <- Hlen, Hsplit, app_nil_r; reflexivity).
    destruct (flag && Dict.key_eqb G Gs && (length done <=? a)%nat) eqn:E;
      [|rewrite CxFacts.add_zero_r; reflexivity].
    rewrite !Bool.andb_true_iff in E. destruct E as [_ E]. apply Nat.leb_le in E.
    unfold Mat.get. rewrite (nth_overflow h) by lia.
    destruct b; simpl; rewrite CxFacts.add_zero_r; reflexivity.
  - assert (Hk : (length done < n)%nat).
    { rewrite <- Hlen, Hsplit, length_app. simpl. lia. }
    assert (Hr : length r = n).
    { rewrite Forall_forall in Hrows. apply Hrows. rewrite Hsplit.
      apply in_or_app. right. left. reflexivity. }
    cbn [length seq combine foldM fst snd].
    destruct (@scatter_row G (length done) r Hk Hr r [] nh eq_refl Hnh)
      as [nh1 [E1 [Hs1 He1]]].
    cbn [length Nat.leb] in E1, He1. rewrite Bool.andb_true_r in He1.
    change (enumerate r) with (combine (seq 0 (length r)) r). rewrite E1. cbn [bind].
    destruct (IH (done ++ [r]) nh1) as [nh' [E' [Hs' He']]].
    { rewrite <- app_assoc. exact Hsplit. }
    { exact Hs1. }
    rewrite length_app in E', He'. cbn [length] in E', He'. rewrite Nat.add_1_r in E', He'.
    exists nh'. split; [exact E'|]. split; [exact Hs'|].
    rewrite He', He1, cx_add_assoc. f_equal.
    assert (Hrow : nth (length done) h [] = r).
    { rewrite Hsplit, app_nth2, Nat.sub_diag by lia. reflexivity. }
    destruct (flag && Dict.key_eqb G Gs); cbn [andb]; [|apply CxFacts.add_zero_l].
    destruct (Nat.eqb_spec (length done) a) as [<-|Hak].
    + rewrite Nat.leb_refl, (proj2 (Nat.leb_gt (S (length done)) (length done))) by lia.
      unfold Mat.get. rewrite Hrow. apply CxFacts.add_zero_r.
    + rewrite CxFacts.add_zero_l.
      replace (S (length done) <=? a)%nat with (length done <=? a)%nat; [reflexivity|].
      apply Bool.eq_iff_eq_true. rewrite !Nat.leb_le. lia.
Qed.

Lemma scatter_table l2 : forall nh,
  Dict.wf l2 -> shaped n l2 -> Pinv nh ->
  exists nh', for_entries body l2 nh = Ok nh' /\ Pinv nh' /\
              obs nh' = Cx.add (obs nh) (if flag then entry l2 Gs a b else Cx.zero).
Proof.
  unfold for_entries. induction l2 as [|[G h] l2 IH]; intros nh Hwf Hl2 Hnh.
  - exists nh. split; [reflexivity|]. split; [assumption|].
    unfold entry. cbn [Dict.get]. destruct flag; rewrite CxFacts.add_zero_r; reflexivity.
  - unfold shaped, Dict.values in Hl2. cbn [map snd] in Hl2.
    apply Forall_cons_iff in Hl2. destruct Hl2 as [Hh Hrest].
    unfold Dict.wf, Dict.keys in Hwf. cbn [map fst] in Hwf.
    apply NoDup_cons_iff in Hwf. destruct Hwf as [Hfresh Hwf'].
    cbn [foldM fst snd].
    destruct (@scatter_matrix G h Hh h [] nh eq_refl Hnh) as [nh1 [E1 [Hs1 He1]]].
    cbn [length Nat.leb] in E1, He1. rewrite Bool.andb_true_r in He1.
    change (enumerate h) with (combine (seq 0 (length h)) h). rewrite E1. cbn [bind].
    destruct (IH nh1 Hwf' Hrest Hs1) as [nh' [E' [Hs' He']]].
    exists nh'. split; [exact E'|]. split; [exact Hs'|].
    rewrite He', He1, cx_add_assoc. f_equal.
    destruct flag; cbn [andb]; [|apply CxFacts.add_zero_l].
    unfold entry at 2. cbn [Dict.get]. rewrite (DictFacts.key_eqb_sym G Gs).
    destruct (Dict.key_eqb Gs G) eqn:E.
    + apply DictFacts.key_eqb_eq in E. subst Gs. unfold entry.
      rewrite (proj2 (DictFacts.get_none l2 G) Hfresh). apply CxFacts.add_zero_r.
    + apply CxFacts.add_zero_l.
Qed.

End Scatter.

(** A loop over phases of which one adds [v] to the observed value. *)
Lemma foldM_phases {A S} (Pinv : S -> Prop) (obs : S -> C) (step : S -> A -> result S)
    (hit : A -> bool) (v : C) l :
  (forall c s, In c l -> Pinv s ->
     exists s', step s c = Ok s' /\ Pinv s' /\
                obs s' = Cx.add (obs s) (if hit c then v else Cx.zero)) ->
  forall s, Pinv s ->
  exists s', foldM step l s = Ok s' /\ Pinv s' /\
             obs s' = fold_left (fun z c => Cx.add z (if hit c then v else Cx.zero)) l (obs s).
Proof.
  induction l as [|c l IH]; intros Hstep s Hs; cbn [foldM fold_left].
  - eauto.
  - destruct (Hstep c s (or_introl eq_refl) Hs) as [s1 [E1 [Hs1 Ho1]]].
    rewrite E1. cbn [bind]. rewrite <- Ho1. apply IH; [|exact Hs1].
    intros c' s' Hc'. apply Hstep. right. exact Hc'.
Qed.

Lemma sum_single_hit {A} (hit : A -> bool) (v : C) (c0 : A) l :
  NoDup l -> In c0 l -> (forall c, In c l -> hit c = true <-> c = c0) ->
  forall z, fold_left (fun z c => Cx.add z (if hit c then v else Cx.zero)) l z = Cx.add z v.
Proof.
  assert (Hmiss : forall l', (forall c, In c l' -> hit c = false) ->
            forall z, fold_left (fun z c => Cx.add z (if hit c then v else Cx.zero)) l' z = z).
  { induction l' as [|c l' IH]; intros Hh z; cbn [fold_left]; [reflexivity|].
    rewrite (Hh c (or_introl eq_refl)), CxFacts.add_zero_r. apply IH.
    intros c' Hc'. apply Hh. right. exact Hc'. }
  induction l as [|c l IH]; intros Hnd Hin Hhit z; [destruct Hin|].
  apply NoDup_cons_iff in Hnd. destruct Hnd as [Hfresh Hnd]. cbn [fold_left].
  destruct Hin as [->|Hin].
  - rewrite (proj2 (Hhit c0 (or_introl eq_refl)) eq_refl). apply Hmiss.
    intros c Hc. destruct (hit c) eqn:E; [|reflexivity].
    apply (Hhit c (or_intror Hc)) in E. subst. contradiction.
  - assert (Hc : hit c = false).
    { destruct (hit c) eqn:E; [|reflexivity].
      apply (Hhit c (or_introl eq_refl)) in E. subst. contradiction. }
    rewrite Hc, CxFacts.add_zero_r. apply IH; [exact Hnd | exact Hin |].
    intros c' Hc'. apply Hhit. right. exact Hc'.
Qed.

(** *** Arithmetic of the cell indices *)

Lemma floor_div_spec v d : (1 <= d)%Z -> floor_div v d = (v / d)%Z.
Proof.
  intros Hd. unfold floor_div. apply Zfloor_eq.
  pose proof (Z.div_mod v d ltac:(lia)) as Hv.
  pose proof (Z.mod_pos_bound v d ltac:(lia)) as Hr.
  assert (HD : (0 < IZR d)%R) by (apply IZR_lt; lia).
  pose proof (@reduced_coordinate (v mod d) d 0 Hr ltac:(lra)) as Hb.
  replace (IZR v / IZR d)%R with (IZR (v / d) + (IZR (v mod d) / IZR d + 0 / IZR d))%R.
  - lra.
  - rewrite Hv at 3. rewrite plus_IZR, mult_IZR. field. lra.
Qed.

Lemma div_mod_of_sum d q r :
  (1 <= d)%Z -> (0 <= r < d)%Z -> ((q * d + r) / d = q /\ (q * d + r) mod d = r)%Z.
Proof.
  intros Hd Hr. split.
  - symmetry. apply (Z.div_unique (q * d + r) d q r); [left; exact Hr | ring].
  - symmetry. apply (Z.mod_unique (q * d + r) d q r); [left; exact Hr | ring].
Qed.

Lemma quotient_remainder_unique d q r q' r' :
  (0 <= r < d)%Z -> (0 <= r' < d)%Z -> (q * d + r = q' * d + r')%Z -> q = q' /\ r = r'.
Proof.
  intros Hr Hr' E.
  assert (Hd : (1 <= d)%Z) by lia.
  destruct (div_mod_of_sum q Hd Hr) as [H1 H2].
  destruct (div_mod_of_sum q' Hd Hr') as [H1' H2'].
  rewrite E in H1, H2. split; congruence.
Qed.

Lemma full_index_inj nx ny nz n i j k a i' j' k' a' :
  (0 <= i < nx)%Z -> (0 <= j < ny)%Z -> (0 <= k < nz)%Z -> (0 <= a < n)%Z ->
  (0 <= i' < nx)%Z -> (0 <= j' < ny)%Z -> (0 <= k' < nz)%Z -> (0 <= a' < n)%Z ->
  (((i * ny + j) * nz + k) * n + a = ((i' * ny + j') * nz + k') * n + a')%Z ->
  (i, j, k) = (i', j', k') /\ a = a'.
Proof.
  intros Hi Hj Hk Ha Hi' Hj' Hk' Ha' E.
  destruct (quotient_remainder_unique _ _ Ha Ha' E) as [E1 ->].
  destruct (quotient_remainder_unique _ _ Hk Hk' E1) as [E2 ->].
  destruct (quotient_remainder_unique _ _ Hj Hj' E2) as [-> ->].
  split; reflexivity.
Qed.

Lemma outside_iff v d :
  (1 <= d)%Z -> ((v <? 0) || (d <=? v))%Z = negb (v / d =? 0)%Z.
Proof.
  intros Hd. pose proof (Z.div_small_iff v d ltac:(lia)) as Hs.
  destruct (Z.ltb_spec v 0); destruct (Z.leb_spec d v); destruct (Z.eqb_spec (v / d) 0);
    cbn [orb negb]; try reflexivity; exfalso; lia.
Qed.

Lemma NoDup_flat_map {A B} (f : A -> list B) l :
  NoDup l -> (forall x, In x l -> NoDup (f x)) ->
  (forall x y z, In x l -> In y l -> In z (f x) -> In z (f y) -> x = y) ->
  NoDup (flat_map f l).
Proof.
  induction l as [|x l IH]; intros Hnd Hf Hdisj; cbn [flat_map]; [constructor|].
  apply NoDup_cons_iff in Hnd. destruct Hnd as [Hx Hnd].
  apply NoDup_app.
  - apply Hf. left. reflexivity.
  - apply IH; [exact Hnd | intros y Hy; apply Hf; right; exact Hy |].
    intros y y' z Hy Hy'. apply Hdisj; right; assumption.
  - intros z Hz Hz'. apply in_flat_map in Hz'. destruct Hz' as [y [Hy Hzy]].
    assert (x = y) by (apply (Hdisj x y z); [left; reflexivity | right; exact Hy | | ];
                       assumption).
    subst. contradiction.
Qed.

Lemma NoDup_map_inj {A B} (f : A -> B) l :
  (forall x y, f x = f y -> x = y) -> NoDup l -> NoDup (map f l).
Proof.
  intros Hf. induction l as [|x l IH]; intros Hnd; cbn [map]; [constructor|].
  apply NoDup_cons_iff in Hnd. destruct Hnd as [Hx Hnd]. constructor; [|apply IH; exact Hnd].
  intros Hin. apply in_map_iff in Hin. destruct Hin as [y [E Hy]].
  apply Hf in E. subst. contradiction.
Qed.

Lemma NoDup_range n : NoDup (range n).
Proof.
  unfold range. apply NoDup_map_inj; [|apply seq_NoDup].
  intros x y. apply Nat2Z.inj.
Qed.

Lemma NoDup_cells dim : NoDup (cells dim).
Proof.
  destruct dim as [[nx ny] nz]. unfold cells.
  apply NoDup_flat_map; [apply NoDup_range | |].
  - intros i _. apply NoDup_flat_map; [apply NoDup_range | |].
    + intros j _. apply NoDup_map_inj; [|apply NoDup_range].
      intros k k' [= E]. exact E.
    + intros j j' z _ _ Hz Hz'. apply in_map_iff in Hz, Hz'.
      destruct Hz as [k [<- _]]. destruct Hz' as [k' [[= E _] _]]. congruence.
  - intros i i' z _ _ Hz Hz'. apply in_flat_map in Hz, Hz'.
    destruct Hz as [j [_ Hz]]. destruct Hz' as [j' [_ Hz']].
    apply in_map_iff in Hz, Hz'.
    destruct Hz as [k [<- _]]. destruct Hz' as [k' [[= E _ _] _]]. congruence.
Qed.

Lemma crosses_neg periodic X : crosses periodic (neg_G X) = crosses periodic X.
Proof.
  destruct X as [[x y] z]. unfold crosses, neg_G, G_list.
  destruct periodic as [|p0 [|p1 [|p2 rest]]]; cbn [combine existsb fst snd];
    try reflexivity;
    repeat match goal with
           | |- context [(- ?v =? 0)%Z] =>
               replace (- v =? 0)%Z with (v =? 0)%Z
                 by (apply Bool.eq_iff_eq_true; rewrite !Z.eqb_eq; lia)
           end; reflexivity.
Qed.

(** *** One entry of the supercell's loop *)

Lemma cut_hop_crosses px py pz v0 v1 v2 nx ny nz :
  (1 <= nx)%Z -> (1 <= ny)%Z -> (1 <= nz)%Z ->
  existsb (fun po : bool * bool => negb (fst po) && snd po)
    (combine [px; py; pz]
       (map (fun pd : Z * Z => (fst pd <? 0) || (snd pd <=? fst pd))%Z
            (combine (G_list (v0, v1, v2)) (G_list (nx, ny, nz)))))
  = crosses [px; py; pz] (v0 / nx, v1 / ny, v2 / nz)%Z.
Proof.
  intros Hnx Hny Hnz. unfold crosses, G_list. cbn [combine map existsb fst snd].
  rewrite !outside_iff by assumption. reflexivity.
Qed.

Section SupercellTable.

Variable self : Model.
Variables nx ny nz : Z.
Variables px py pz : bool.
Hypothesis Hnx : (1 <= nx)%Z.
Hypothesis Hny : (1 <= ny)%Z.
Hypothesis Hnz : (1 <= nz)%Z.

Let dim : LatticeVector := (nx, ny, nz).
Let N : nat := new_size self dim.
Let periodic : list bool := [px; py; pz].

(** The number of orbital [a] of the unit cell [c]. *)
Let fi (c : LatticeVector) (a : nat) : Z :=
  let '(i, j, k) := c in
  (((i * ny + j) * nz + k) * Z.of_nat (size self) + Z.of_nat a)%Z.

Let Pinv (nh : dict matrix) : Prop := shaped N nh /\ Dict.wf nh.

Lemma full_idx_fi c a :
  In c (cells dim) -> (a < size self)%nat ->
  full_idx self dim c a = Ok (fi c a) /\ (0 <= fi c a < Z.of_nat N)%Z.
Proof.
  destruct c as [[i j] k]. intros Hc Ha. apply in_cells in Hc. destruct Hc as [Hi [Hj Hk]].
  unfold full_idx, dim. rewrite pos_to_idx_ok by lia. cbn [bind fi]. split; [reflexivity|].
  unfold N, dim. rewrite (@new_size_Z self nx ny nz Hnx Hny Hnz).
  apply flat_index_bound; lia.
Qed.

Lemma fi_inj c a c' a' :
  In c (cells dim) -> In c' (cells dim) -> (a < size self)%nat -> (a' < size self)%nat ->
  Z.to_nat (fi c a) = Z.to_nat (fi c' a') -> c = c' /\ a = a'.
Proof.
  intros Hc Hc' Ha Ha' E.
  destruct (@full_idx_fi _ _ Hc Ha) as [_ Hb]. destruct (@full_idx_fi _ _ Hc' Ha') as [_ Hb'].
  assert (E' : fi c a = fi c' a') by lia.
  destruct c as [[i j] k], c' as [[i' j'] k'].
  apply in_cells in Hc, Hc'. cbn [fi] in E'.
  destruct (@full_index_inj nx ny nz (Z.of_nat (size self)) i j k (Z.of_nat a)
              i' j' k' (Z.of_nat a')) as [H1 H2]; try lia.
  split; [exact H1 | lia].
Qed.

Lemma supercell_entry_adds c c0 c1 X a b nh G i0 i1 t :
  In c (cells dim) -> In c0 (cells dim) -> In c1 (cells dim) ->
  (a < size self)%nat -> (b < size self)%nat ->
  (i0 < size self)%nat -> (i1 < size self)%nat -> Pinv nh ->
  exists nh',
    supercell_entry self dim periodic c nh G i0 i1 t = Ok nh' /\ Pinv nh' /\
    entry nh' X (Z.to_nat (fi c0 a)) (Z.to_nat (fi c1 b))
    = Cx.add (entry nh X (Z.to_nat (fi c0 a)) (Z.to_nat (fi c1 b)))
        (if (Dict.key_eqb c c0 && negb (crosses periodic X))
            && Dict.key_eqb G (source_G dim X c0 c1) && ((i0 =? a) && (i1 =? b))%nat
         then t else Cx.zero).
Proof.
  intros Hc Hc0 Hc1 Ha Hb Hi0 Hi1 [Hsh Hwf].
  destruct (@full_idx_fi _ _ Hc Hi0) as [Efi Hbi0].
  destruct (@full_idx_fi _ _ Hc0 Ha) as [_ HbA]. destruct (@full_idx_fi _ _ Hc1 Hb) as [_ HbB].
  unfold supercell_entry. rewrite Efi. cbn [bind].
  destruct c as [[ci cj] ck], G as [[g0 g1] g2].
  pose proof Hc as Hc'. apply in_cells in Hc'.
  cbn [add_G]. unfold dim at 1, periodic at 1.
  rewrite (@cut_hop_crosses px py pz (ci + g0) (cj + g1) (ck + g2) nx ny nz Hnx Hny Hnz).
  fold periodic.
  set (v0 := (ci + g0)%Z). set (v1 := (cj + g1)%Z). set (v2 := (ck + g2)%Z).
  (* the condition of the conclusion, as a proposition *)
  assert (Hcond :
    ((Dict.key_eqb (ci, cj, ck) c0 && negb (crosses periodic X))
       && Dict.key_eqb (g0, g1, g2) (source_G dim X c0 c1) && ((i0 =? a) && (i1 =? b))%nat)
    = true ->
    (ci, cj, ck) = c0 /\ crosses periodic X = false /\ i0 = a /\ i1 = b /\
    X = (v0 / nx, v1 / ny, v2 / nz)%Z /\ c1 = (v0 mod nx, v1 mod ny, v2 mod nz)%Z).
  { rewrite !Bool.andb_true_iff, Bool.negb_true_iff, !Nat.eqb_eq.
    intros [[[E1 E2] E3] [E4 E5]].
    apply DictFacts.key_eqb_eq in E1, E3. subst c0.
    split; [reflexivity|]. split; [exact E2|]. split; [exact E4|]. split; [exact E5|].
    destruct X as [[x0 x1] x2], c1 as [[d0 d1] d2]. apply in_cells in Hc1.
    unfold source_G, dim, mul_G, add_G, sub_G in E3. injection E3 as E30 E31 E32.
    destruct (@div_mod_of_sum nx x0 d0 Hnx ltac:(lia)) as [Q0 R0].
    destruct (@div_mod_of_sum ny x1 d1 Hny ltac:(lia)) as [Q1 R1].
    destruct (@div_mod_of_sum nz x2 d2 Hnz ltac:(lia)) as [Q2 R2].
    unfold v0, v1, v2.
    replace (ci + g0)%Z with (x0 * nx + d0)%Z by lia.
    replace (cj + g1)%Z with (x1 * ny + d1)%Z by lia.
    replace (ck + g2)%Z with (x2 * nz + d2)%Z by lia.
    rewrite Q0, Q1, Q2, R0, R1, R2. split; reflexivity. }
  destruct (crosses periodic (v0 / nx, v1 / ny, v2 / nz)%Z) eqn:Ecut.
  - (* the hopping is cut *)
    exists nh. split; [reflexivity|]. split; [split; assumption|].
    match goal with
    | |- _ = Cx.add _ (if ?cond then _ else _) => destruct cond eqn:E
    end; [|rewrite CxFacts.add_zero_r; reflexivity].
    exfalso. destruct (Hcond eq_refl) as [_ [Hx [_ [_ [HX _]]]]]. congruence.
  - (* the hopping is kept *)
    change (floor_div3 (v0, v1, v2) dim)
      with (floor_div v0 nx, floor_div v1 ny, floor_div v2 nz).
    change (mod3 (v0, v1, v2) dim) with (v0 mod nx, v1 mod ny, v2 mod nz)%Z.
    rewrite !floor_div_spec by assumption.
    assert (Hc1' : In (v0 mod nx, v1 mod ny, v2 mod nz)%Z (cells dim)).
    { apply in_cells. repeat split; try (apply Z.mod_pos_bound; lia). }
    destruct (@full_idx_fi _ _ Hc1' Hi1) as [Efi1 Hbi1]. rewrite Efi1. cbn [bind].
    unfold np_add_at. fold N.
    rewrite (np_index_ok _ Hbi0), (np_index_ok _ Hbi1). cbn [bind].
    eexists. split; [reflexivity|]. split.
    { split; [|apply DictFacts.wf_set; assumption].
      apply shaped_set; [assumption|]. apply rect_upd. apply shaped_get_default.
      assumption. }
    rewrite entry_set.
    assert (HA : (Z.to_nat (fi c0 a) < N)%nat) by lia.
    assert (HB : (Z.to_nat (fi c1 b) < N)%nat) by lia.
    match goal with
    | |- _ = Cx.add _ (if ?cond then _ else _) => destruct cond eqn:E
    end.
    + destruct (Hcond eq_refl) as [Hc0' [_ [-> [-> [-> ->]]]]]. subst c0.
      rewrite DictFacts.key_eqb_refl.
      rewrite (@get_upd N N _ _ _ _ _ _ (shaped_get_default _ Hsh) HA HB).
      rewrite !Nat.eqb_refl. cbn [andb].
      rewrite (@get_default_entry N nh _ _ _ HA HB). reflexivity.
    + rewrite CxFacts.add_zero_r.
      destruct (Dict.key_eqb X (v0 / nx, v1 / ny, v2 / nz)%Z) eqn:EX; [|reflexivity].
      apply DictFacts.key_eqb_eq in EX.
      rewrite (@get_upd N N _ _ _ _ _ _ (shaped_get_default _ Hsh) HA HB).
      rewrite (@get_default_entry N nh _ _ _ HA HB). rewrite <- EX.
      destruct (Nat.eqb_spec (Z.to_nat (fi c0 a)) (Z.to_nat (fi (ci, cj, ck) i0)))
        as [EA|]; [|reflexivity].
      destruct (Nat.eqb_spec (Z.to_nat (fi c1 b))
                  (Z.to_nat (fi (v0 mod nx, v1 mod ny, v2 mod nz)%Z i1)))
        as [EB|]; [|reflexivity].
      exfalso.
      destruct (@fi_inj _ _ _ _ Hc0 Hc Ha Hi0 EA) as [-> ->].
      destruct (@fi_inj _ _ _ _ Hc1 Hc1' Hb Hi1 EB) as [-> ->].
      rewrite DictFacts.key_eqb_refl, !Nat.eqb_refl in E. rewrite EX, Ecut in E.
      cbn [negb andb] in E.
      assert (Hsrc : source_G dim (v0 / nx, v1 / ny, v2 / nz)%Z (ci, cj, ck)
                       (v0 mod nx, v1 mod ny, v2 mod nz)%Z = (g0, g1, g2)).
      { unfold source_G, dim, mul_G, add_G, sub_G.
        pose proof (Z.div_mod v0 nx ltac:(lia)). pose proof (Z.div_mod v1 ny ltac:(lia)).
        pose proof (Z.div_mod v2 nz ltac:(lia)). unfold v0, v1, v2 in *.
        apply f_equal2; [apply f_equal2|]; lia. }
      rewrite Hsrc, DictFacts.key_eqb_refl in E. discriminate.
Qed.

(** *** The table after the loop over the hoppings *)

Lemma supercell_hoppings_entry c0 c1 X a b :
  valid self -> In c0 (cells dim) -> In c1 (cells dim) ->
  (a < size self)%nat -> (b < size self)%nat ->
  exists nh1,
    supercell_hoppings self dim periodic = Ok nh1 /\ Pinv nh1 /\
    entry nh1 X (Z.to_nat (fi c0 a)) (Z.to_nat (fi c1 b))
    = if crosses periodic X then Cx.zero
      else entry (hoppings self) (source_G dim X c0 c1) a b.
Proof.
  intros Hv Hc0 Hc1 Ha Hb. unfold supercell_hoppings.
  set (e := entry (hoppings self) (source_G dim X c0 c1) a b).
  destruct (@foldM_phases _ _ Pinv
              (fun nh => entry nh X (Z.to_nat (fi c0 a)) (Z.to_nat (fi c1 b)))
              (fun nh c => for_entries (supercell_entry self dim periodic c)
                                       (hoppings self) nh)
              (fun c => Dict.key_eqb c c0)
              (if crosses periodic X then Cx.zero else e)
              (cells dim)) with (s := @nil (LatticeVector * matrix))
    as [nh1 [E1 [HP1 Ho1]]].
  - intros c s Hc Hs.
    destruct (@scatter_table (size self) Pinv
                (fun nh => entry nh X (Z.to_nat (fi c0 a)) (Z.to_nat (fi c1 b)))
                (supercell_entry self dim periodic c)
                (Dict.key_eqb c c0 && negb (crosses periodic X))
                (source_G dim X c0 c1) a b) with (l2 := hoppings self) (nh := s)
      as [s' [E [HP Ho]]].
    + intros nh G i0 i1 t Hi0 Hi1 Hnh.
      apply supercell_entry_adds; assumption.
    + exact (valid_keys Hv).
    + exact (valid_shapes Hv).
    + exact Hs.
    + exists s'. split; [exact E|]. split; [exact HP|]. rewrite Ho. fold e.
      destruct (Dict.key_eqb c c0), (crosses periodic X); reflexivity.
  - split; [apply shaped_nil | constructor].
  - exists nh1. split; [exact E1|]. split; [exact HP1|]. rewrite Ho1.
    rewrite (@sum_single_hit _ (fun c => Dict.key_eqb c c0) _ c0 (cells dim)
               (NoDup_cells dim) Hc0).
    + unfold entry at 1. cbn [Dict.get]. apply CxFacts.add_zero_l.
    + intros c _. apply DictFacts.key_eqb_eq.
Qed.

(** *** The loop over the passivation *)

Lemma block_of_cell cell c a :
  In cell (cells dim) -> In c (cells dim) -> (a < size self)%nat ->
  (Z.to_nat (fi cell 0) <= Z.to_nat (fi c a) < Z.to_nat (fi cell 0) + size self)%nat ->
  c = cell.
Proof.
  intros Hcell Hc Ha Hin.
  destruct (@full_idx_fi c a Hc Ha) as [_ Hb].
  assert (H0 : (0 <= fi cell 0)%Z).
  { destruct cell as [[i j] k]. apply in_cells in Hcell. cbn [fi].
    pose proof (@flat_index_bound nx ny nz 1 i j k 0). nia. }
  destruct c as [[i j] k], cell as [[i' j'] k'].
  apply in_cells in Hc, Hcell. cbn [fi] in *.
  remember ((i * ny + j) * nz + k)%Z as I eqn:EI.
  remember ((i' * ny + j') * nz + k')%Z as I' eqn:EI'.
  assert (HI : I = I').
  { destruct (@quotient_remainder_unique (Z.of_nat (size self)) I (Z.of_nat a) I'
                (I * Z.of_nat (size self) + Z.of_nat a - I' * Z.of_nat (size self))%Z)
      as [E _]; [lia | lia | ring | exact E]. }
  destruct (@full_index_inj nx ny nz 1 i j k 0 i' j' k' 0) as [E _]; try lia.
  exact E.
Qed.

Variable f : (bool * bool) -> (bool * bool) -> (bool * bool) -> list R.
Hypothesis Hf : forall x y z, length (f x y z) = size self.

(** The energy that [f] gives to orbital [a] of the unit cell [c]. *)
Let pe (c : LatticeVector) (a : nat) : R :=
  match _edge_detect_pos c dim with
  | Ok (ex, ey, ez) => nth a (f ex ey ez) 0%R
  | Err _ => 0%R
  end.

Lemma passivation_entry nh cell c0 c1 X a b :
  In cell (cells dim) -> In c0 (cells dim) -> In c1 (cells dim) ->
  (a < size self)%nat -> (b < size self)%nat -> Pinv nh ->
  exists nh',
    passivation_step self dim f nh cell = Ok nh' /\ Pinv nh' /\
    entry nh' X (Z.to_nat (fi c0 a)) (Z.to_nat (fi c1 b))
    = Cx.add (entry nh X (Z.to_nat (fi c0 a)) (Z.to_nat (fi c1 b)))
        (if Dict.key_eqb cell c0
         then (if Dict.key_eqb X origin && Dict.key_eqb c0 c1 && (a =? b)%nat
               then Cx.of_R (pe c0 a * (1 / 2))%R else Cx.zero)
         else Cx.zero).
Proof.
  intros Hcell Hc0 Hc1 Ha Hb [Hsh Hwf].
  destruct (@full_idx_fi c0 a Hc0 Ha) as [_ HbA].
  destruct (@full_idx_fi c1 b Hc1 Hb) as [_ HbB].
  assert (HA : (Z.to_nat (fi c0 a) < N)%nat) by lia.
  assert (HB : (Z.to_nat (fi c1 b) < N)%nat) by lia.
  pose proof (@block_of_cell cell c0 a Hcell Hc0 Ha) as Hblock0.
  pose proof (@block_of_cell cell c1 b Hcell Hc1 Hb) as Hblock1.
  assert (Hfi : forall x, In cell (cells dim) ->
                  Z.to_nat (fi cell x) = (Z.to_nat (fi cell 0) + x)%nat).
  { intros x Hin. destruct cell as [[i j] k]. apply in_cells in Hin. cbn [fi].
    pose proof (@flat_index_bound nx ny nz 1 i j k 0). nia. }
  assert (Hpe : forall ex ey ez, _edge_detect_pos cell dim = Ok (ex, ey, ez) ->
                  cell = c0 -> pe c0 a = nth a (f ex ey ez) 0%R).
  { intros ex ey ez E <-. unfold pe. rewrite E. reflexivity. }
  destruct cell as [[i j] k].
  pose proof Hcell as Hcell'. apply in_cells in Hcell'. destruct Hcell' as [Hi [Hj Hk]].
  unfold passivation_step, dim.
  destruct (@edge_detect_ok nx ny nz i j k) as [[[ex ey] ez] Eedge]; try lia.
  rewrite Eedge. cbn [bind]. fold dim. fold N.
  specialize (Hpe ex ey ez Eedge).
  unfold add_passivation. fold N. rewrite Hf, Nat.eqb_refl. cbn [bind].
  replace ((i * ny * nz + j * nz + k) * Z.of_nat (size self))%Z
    with (fi (i, j, k) 0) by (cbn [fi]; ring).
  eexists. split; [reflexivity|]. split.
  { split; [|apply DictFacts.wf_set; assumption].
    apply shaped_set; [assumption | apply MatFacts.rect_mk]. }
  rewrite entry_set.
  destruct (Dict.key_eqb X origin) eqn:EX.
  2: { cbn [andb]. destruct (Dict.key_eqb (i, j, k) c0);
         rewrite CxFacts.add_zero_r; reflexivity. }
  apply DictFacts.key_eqb_eq in EX. subst X. cbn [andb].
  rewrite MatFacts.get_mk by assumption.
  rewrite (@get_default_entry N nh origin _ _ HA HB).
  set (idx := Z.to_nat (fi (i, j, k) 0)) in *.
  destruct (Dict.key_eqb (i, j, k) c0) eqn:E0.
  - apply DictFacts.key_eqb_eq in E0. subst c0. specialize (Hpe eq_refl).
    rewrite (Hfi a Hcell). fold idx.
    rewrite (proj2 (Nat.leb_le idx (idx + a)) ltac:(lia)).
    rewrite (proj2 (Nat.ltb_lt (idx + a) (idx + size self)) ltac:(lia)). cbn [andb].
    destruct (Dict.key_eqb (i, j, k) c1) eqn:E1.
    + apply DictFacts.key_eqb_eq in E1. subst c1. rewrite (Hfi b Hcell). fold idx.
      rewrite (proj2 (Nat.leb_le idx (idx + b)) ltac:(lia)).
      rewrite (proj2 (Nat.ltb_lt (idx + b) (idx + size self)) ltac:(lia)). cbn [andb].
      replace (idx + a =? idx + b)%nat with (a =? b)%nat
        by (apply Bool.eq_iff_eq_true; rewrite !Nat.eqb_eq; lia).
      destruct (a =? b)%nat; [|reflexivity].
      replace (idx + a - idx)%nat with a by lia. rewrite Hpe. reflexivity.
    + cbn [andb]. rewrite CxFacts.add_zero_r.
      destruct ((idx <=? Z.to_nat (fi c1 b)) && (Z.to_nat (fi c1 b) <? idx + size self))%nat
        eqn:Ein; [|reflexivity].
      exfalso. apply Bool.andb_true_iff in Ein. destruct Ein as [Hlo Hhi].
      apply Nat.leb_le in Hlo. apply Nat.ltb_lt in Hhi.
      rewrite (Hblock1 (conj Hlo Hhi)), DictFacts.key_eqb_refl in E1. discriminate.
  - rewrite CxFacts.add_zero_r.
    destruct ((idx <=? Z.to_nat (fi c0 a)) && (Z.to_nat (fi c0 a) <? idx + size self))%nat
      eqn:Ein; [|reflexivity].
    exfalso. apply Bool.andb_true_iff in Ein. destruct Ein as [Hlo Hhi].
    apply Nat.leb_le in Hlo. apply Nat.ltb_lt in Hhi.
    rewrite (Hblock0 (conj Hlo Hhi)), DictFacts.key_eqb_refl in E0. discriminate.
Qed.

Lemma passivation_loop nh1 c0 c1 X a b :
  In c0 (cells dim) -> In c1 (cells dim) ->
  (a < size self)%nat -> (b < size self)%nat -> Pinv nh1 ->
  exists nh2,
    foldM (passivation_step self dim f) (cells dim) nh1 = Ok nh2 /\ Pinv nh2 /\
    entry nh2 X (Z.to_nat (fi c0 a)) (Z.to_nat (fi c1 b))
    = Cx.add (entry nh1 X (Z.to_nat (fi c0 a)) (Z.to_nat (fi c1 b)))
        (if Dict.key_eqb X origin && Dict.key_eqb c0 c1 && (a =? b)%nat
         then Cx.of_R (pe c0 a * (1 / 2))%R else Cx.zero).
Proof.
  intros Hc0 Hc1 Ha Hb HP.
  destruct (@foldM_phases _ _ Pinv
              (fun nh => entry nh X (Z.to_nat (fi c0 a)) (Z.to_nat (fi c1 b)))
              (passivation_step self dim f)
              (fun c => Dict.key_eqb c c0)
              (if Dict.key_eqb X origin && Dict.key_eqb c0 c1 && (a =? b)%nat
               then Cx.of_R (pe c0 a * (1 / 2))%R else Cx.zero)
              (cells dim)) with (s := nh1) as [nh2 [E [HP2 Ho]]].
  - intros c s Hc Hs. apply passivation_entry; assumption.
  - exact HP.
  - exists nh2. split; [exact E|]. split; [exact HP2|]. rewrite Ho.
    apply (@sum_single_hit _ (fun c => Dict.key_eqb c c0) _ c0 (cells dim)
             (NoDup_cells dim) Hc0).
    intros c _. apply DictFacts.key_eqb_eq.
Qed.

(** *** The table that reaches the constructor *)

Lemma supercell_raw_entry c0 c1 X a b iA iB nh1 nh2 :
  valid self -> In c0 (cells dim) -> In c1 (cells dim) ->
  (a < size self)%nat -> (b < size self)%nat ->
  full_idx self dim c0 a = Ok iA -> full_idx self dim c1 b = Ok iB ->
  supercell_hoppings self dim periodic = Ok nh1 ->
  foldM (passivation_step self dim f) (cells dim) nh1 = Ok nh2 ->
  (shaped N nh2 /\ Dict.wf nh2) /\
  ((Z.to_nat iA < N)%nat /\ (Z.to_nat iB < N)%nat) /\
  entry nh2 X (Z.to_nat iA) (Z.to_nat iB)
  = Cx.add (if crosses periodic X then Cx.zero
            else entry (hoppings self) (source_G dim X c0 c1) a b)
           (if Dict.key_eqb X origin && Dict.key_eqb c0 c1 && (a =? b)%nat
            then Cx.of_R (match _edge_detect_pos c0 dim with
                          | Ok (ex, ey, ez) => nth a (f ex ey ez) 0%R
                          | Err _ => 0%R
                          end * (1 / 2))%R
            else Cx.zero).
Proof.
  intros Hv Hc0 Hc1 Ha Hb EA EB E1 E2.
  destruct (@full_idx_fi c0 a Hc0 Ha) as [EA' HbA].
  destruct (@full_idx_fi c1 b Hc1 Hb) as [EB' HbB].
  rewrite EA in EA'. injection EA' as ->. rewrite EB in EB'. injection EB' as ->.
  destruct (@supercell_hoppings_entry c0 c1 X a b Hv Hc0 Hc1 Ha Hb)
    as [nh1' [E1' [HP1 He1]]].
  rewrite E1 in E1'. injection E1' as <-.
  destruct (@passivation_loop nh1 c0 c1 X a b Hc0 Hc1 Ha Hb HP1) as [nh2' [E2' [HP2 He2]]].
  rewrite E2 in E2'. injection E2' as <-.
  split; [exact HP2|]. split; [split; lia|].
  rewrite He2, He1. reflexivity.
Qed.

End SupercellTable.

(** *** The table of the model that [supercell] returns *)

(** The entries of the table that [_map_hoppings_positive_G] returns. *)
Lemma merged_entry n nh res X A B :
  Dict.wf nh -> shaped n nh -> _map_hoppings_positive_G n nh = Ok res ->
  (A < n)%nat -> (B < n)%nat ->
  entry res X A B
  = if Dict.key_eqb X origin then entry nh X A B
    else if first_nonzero_positive X
         then Cx.add (entry nh X A B) (Cx.conj (entry nh (neg_G X) B A))
         else Cx.zero.
Proof.
  intros Hwf Hsh Hres HA HB.
  destruct (@merge_loop n nh [] [] Hwf Hsh (shaped_nil n)) as [res' [E Hget]].
  { intros G. rewrite merged_lookup_nil. reflexivity. }
  unfold _map_hoppings_positive_G in Hres. rewrite Hres in E. injection E as <-.
  cbn [app] in Hget. unfold entry at 1. rewrite Hget. unfold merged_lookup.
  destruct (Dict.key_eqb X origin); [reflexivity|].
  destruct (first_nonzero_positive X); [|reflexivity].
  assert (Hpart : forall K, Mat.rect n n (part n (Dict.get nh K))).
  { intros K. destruct (Dict.get nh K) as [h|] eqn:EK; cbn [part].
    - exact (shaped_get _ Hsh EK).
    - apply MatFacts.rect_zeros. }
  assert (Hentry : forall K i j, (i < n)%nat -> (j < n)%nat ->
                     Mat.get (part n (Dict.get nh K)) i j = entry nh K i j).
  { intros K i j Hi Hj. unfold entry. destruct (Dict.get nh K); cbn [part];
      [reflexivity | apply get_zeros; assumption]. }
  assert (Hsum : Mat.get (Mat.pointwise Cx.add (part n (Dict.get nh X))
                            (dagger (part n (Dict.get nh (neg_G X))))) A B
                 = Cx.add (entry nh X A B) (Cx.conj (entry nh (neg_G X) B A))).
  { rewrite (MatFacts.get_pointwise _ _ (Hpart X) HA HB). unfold dagger.
    rewrite (MatFacts.get_dagger (Hpart (neg_G X)) HA HB).
    rewrite !Hentry by assumption. reflexivity. }
  destruct (Dict.get nh X) as [h|] eqn:EX;
    destruct (Dict.get nh (neg_G X)) as [g|] eqn:EG; try exact Hsum.
  unfold entry. rewrite EX, EG, CxFacts.conj_zero. symmetry. apply CxFacts.add_zero_l.
Qed.

Lemma source_G_neg dim X c0 c1 :
  source_G dim (neg_G X) c1 c0 = neg_G (source_G dim X c0 c1).
Proof.
  destruct dim as [[nx ny] nz], X as [[x y] z], c0 as [[i j] k], c1 as [[i' j'] k'].
  unfold source_G, neg_G, mul_G, add_G, sub_G. apply f_equal2; [apply f_equal2|]; ring.
Qed.

Lemma crosses_origin px py pz : crosses [px; py; pz] origin = false.
Proof. destruct px, py, pz; reflexivity. Qed.

(** X22.  The table of a supercell, entry by entry.  For a valid model,
    dimensions [nx, ny, nz >= 1] and a passivation that fits (or none), let
    [A] be the number of orbital [a] of the unit cell [c0] and [B] the
    number of orbital [b] of the unit cell [c1], and let
    [G = X * dim + c1 - c0] be the lattice vector from [c0] in the home
    supercell to [c1] in the supercell at [X].  The entry [(A, B)] of the
    returned model is: at the key [(0, 0, 0)], the given entry [(a, b)] at
    [G], plus half the passivation energy of the orbital when [A = B]; at a
    key [X] with a non-zero coordinate along a direction that is not
    periodic, 0; at any other key [X] with a positive first non-zero
    coordinate, the given entry [(a, b)] at [G] plus the conjugate of the
    given entry [(b, a)] at [-G]; and 0 at every other key. *)
Theorem supercell_table m nx ny nz px py pz passivation :
  valid m -> (1 <= nx)%Z -> (1 <= ny)%Z -> (1 <= nz)%Z ->
  passivation_fits m passivation ->
  exists m',
    snd (supercell m (nx, ny, nz) [px; py; pz] passivation) = Ok m' /\
    forall X c0 c1 a b iA iB,
      In c0 (cells (nx, ny, nz)) -> In c1 (cells (nx, ny, nz)) ->
      (a < size m)%nat -> (b < size m)%nat ->
      full_idx m (nx, ny, nz) c0 a = Ok iA -> full_idx m (nx, ny, nz) c1 b = Ok iB ->
      entry (hoppings m') X (Z.to_nat iA) (Z.to_nat iB)
      = if Dict.key_eqb X origin
        then Cx.add (entry (hoppings m) (source_G (nx, ny, nz) X c0 c1) a b)
                    (if Dict.key_eqb c0 c1 && (a =? b)%nat
                     then Cx.of_R (passivation_energy (nx, ny, nz) passivation c0 a
                                   * (1 / 2))%R
                     else Cx.zero)
        else if crosses [px; py; pz] X then Cx.zero
        else if first_nonzero_positive X
             then Cx.add (entry (hoppings m) (source_G (nx, ny, nz) X c0 c1) a b)
                         (Cx.conj (entry (hoppings m)
                                         (neg_G (source_G (nx, ny, nz) X c0 c1)) b a))
             else Cx.zero.
Proof.
  intros Hv Hnx Hny Hnz Hfits. unfold supercell, supercell_outcome. cbn [snd].
  destruct (@supercell_loops_ok m nx ny nz [px; py; pz] passivation Hv Hnx Hny Hnz Hfits)
    as [nh1 [nh2 [E1 [E2 [Hsh2 Hne2]]]]].
  rewrite E1. cbn [bind]. rewrite E2. cbn [bind].
  set (N := new_size m (nx, ny, nz)) in *.
  set (f := match passivation with
            | None => fun _ _ _ => repeat 0%R (size m)
            | Some g => g
            end) in *.
  assert (Hf : forall x y z, length (f x y z) = size m).
  { unfold f. destruct passivation as [g|]; [exact Hfits|].
    intros. apply repeat_length. }
  assert (Hpe : forall c a,
            match _edge_detect_pos c (nx, ny, nz) with
            | Ok (ex, ey, ez) => nth a (f ex ey ez) 0%R
            | Err _ => 0%R
            end = passivation_energy (nx, ny, nz) passivation c a).
  { intros c a. unfold passivation_energy, f. destruct passivation as [g|]; [reflexivity|].
    destruct (_edge_detect_pos c (nx, ny, nz)) as [[[ex ey] ez]|]; [|reflexivity].
    apply nth_repeat. }
  match goal with
  | |- exists m', Model_init nh2 None ?oc (Some ?ps) ?u false ?tol = Ok m' /\ _ =>
      destruct (@Model_init_home N nh2 oc ps u tol Hne2 Hsh2
                  (@supercell_positions_length m nx ny nz Hv Hnx Hny Hnz)
                  (@supercell_positions_home m nx ny nz Hv))
        as [m' [Hm [Hsize [_ [_ Hpos]]]]]
  end.
  exists m'. split; [exact Hm|].
  (* the table of [m'] is the merge of [nh2] *)
  assert (Hmerge : _map_hoppings_positive_G N nh2 = Ok (hoppings m')).
  { pose proof Hm as Hm2. apply Model_init_ok in Hm2.
    destruct Hm2 as [hop1 [_ [Hp [Hred _]]]]. rewrite Hsize in Hp, Hred.
    unfold init_positions in Hp.
    rewrite (@supercell_positions_length m nx ny nz Hv Hnx Hny Hnz) in Hp.
    fold N in Hp. rewrite Nat.eqb_refl in Hp. unfold _map_to_uc in Hp.
    rewrite (proj2 (fast_path_home _) (@supercell_positions_home m nx ny nz Hv)) in Hp.
    injection Hp as _ <-. exact Hred. }
  intros X c0 c1 a b iA iB Hc0 Hc1 Ha Hb EA EB.
  destruct (@supercell_raw_entry m nx ny nz px py pz Hnx Hny Hnz f Hf
              c0 c1 X a b iA iB nh1 nh2 Hv Hc0 Hc1 Ha Hb EA EB E1 E2)
    as [[_ Hwf2] [[HA HB] He]].
  destruct (@supercell_raw_entry m nx ny nz px py pz Hnx Hny Hnz f Hf
              c1 c0 (neg_G X) b a iB iA nh1 nh2 Hv Hc1 Hc0 Hb Ha EB EA E1 E2)
    as [_ [_ He']].
  fold N in HA, HB.
  rewrite (@merged_entry N nh2 (hoppings m') X _ _ Hwf2 Hsh2 Hmerge HA HB).
  rewrite He, He', crosses_neg, source_G_neg, !Hpe.
  destruct (Dict.key_eqb X origin) eqn:EX.
  - apply DictFacts.key_eqb_eq in EX. subst X. rewrite crosses_origin. reflexivity.
  - assert (EX' : Dict.key_eqb (neg_G X) origin = false).
    { apply DictFacts.key_eqb_neq. apply neg_G_not_origin.
      apply DictFacts.key_eqb_neq. exact EX. }
    rewrite EX'. cbn [andb]. rewrite !CxFacts.add_zero_r.
    destruct (crosses [px; py; pz] X).
    + destruct (first_nonzero_positive X); [|reflexivity].
      rewrite CxFacts.conj_zero. apply CxFacts.add_zero_l.
    + reflexivity.
Qed.

Lemma supercell_table_witness :
  exists m',
    snd (supercell Examples.two_site (2, 1, 1)%Z [true; false; false] None) = Ok m' /\
    forall X c0 c1 a b iA iB,
      In c0 (cells (2, 1, 1)%Z) -> In c1 (cells (2, 1, 1)%Z) ->
      (a < 2)%nat -> (b < 2)%nat ->
      full_idx Examples.two_site (2, 1, 1)%Z c0 a = Ok iA ->
      full_idx Examples.two_site (2, 1, 1)%Z c1 b = Ok iB ->
      entry (hoppings m') X (Z.to_nat iA) (Z.to_nat iB)
      = if Dict.key_eqb X origin
        then Cx.add (entry (hoppings Examples.two_site) (source_G (2, 1, 1)%Z X c0 c1) a b)
                    (if Dict.key_eqb c0 c1 && (a =? b)%nat
                     then Cx.of_R (passivation_energy (2, 1, 1)%Z None c0 a * (1 / 2))%R
                     else Cx.zero)
        else if crosses [true; false; false] X then Cx.zero
        else if first_nonzero_positive X
             then Cx.add (entry (hoppings Examples.two_site)
                                (source_G (2, 1, 1)%Z X c0 c1) a b)
                         (Cx.conj (entry (hoppings Examples.two_site)
                                         (neg_G (source_G (2, 1, 1)%Z X c0 c1)) b a))
             else Cx.zero.
Proof.
  apply (@supercell_table Examples.two_site 2 1 1 true false false None two_site_valid);
    [lia | lia | lia | exact I].
Defined.
